(** * Clip Merger: a shallow embedding of [src/App.tsx]

    The component merges a list of video files by playing them one after the
    other into a hidden canvas whose stream, together with a Web Audio
    destination node, is recorded by a [MediaRecorder].

    The embedding follows the source function by function.  React state,
    refs and the local variables captured by the closures of
    [startProcessing] are the fields of one record, [State]; every browser
    callback ([onloadedmetadata], [oncanplay], [onended], [onerror],
    [ondataavailable], [onstop], the settlement of an awaited promise, an
    animation frame) is an [Event] delivered by the browser, and [step] runs
    the handler that the source installed for it, up to the next suspension
    point of the program.  Every externally visible action is appended to a
    chronological [log]. *)

From stdpp Require Import base list sets strings pretty.
From Stdlib Require Import ZArith Ascii Floats.SpecFloat Sorting.Sorted.

Open Scope Z_scope.

(** ** Browser values *)

(** A [File] of the selected folder.  [videoWidth] and [videoHeight] are the
    intrinsic dimensions the decoder reports for the file; the source reads
    them through [video.videoWidth] / [video.videoHeight] once the metadata
    of the element playing the file has loaded. *)
Record File := {
  name : string;
  type : string;
  webkitRelativePath : string;
  videoWidth : Z;
  videoHeight : Z
}.

(** A [Blob]: its bytes and its MIME type. *)
Record Blob := {
  bytes : list Byte.byte;
  blobType : string
}.

Definition size (b : Blob) : nat := length (bytes b).

(** [new Blob(chunks, { type })] *)
Definition newBlob (chunks : list Blob) (ty : string) : Blob :=
  {| bytes := concat (map bytes chunks); blobType := ty |}.

(** Values that reach a [catch] clause or a [reject]: either a primitive
    string, or an [Error] / [DOMException] object carrying a [message]. *)
Inductive JsError :=
| ErrString (s : string)
| ErrObject (msg : string).

(** [error.message]: [undefined] on a primitive string. *)
Definition error_message (e : JsError) : option string :=
  match e with
  | ErrString _ => None
  | ErrObject m => Some m
  end.

(** [error.message || 'Unknown error']: [undefined] and the empty string are
    falsy. *)
Definition message_or_unknown (e : JsError) : string :=
  match error_message e with
  | Some m => if String.eqb m "" then "Unknown error" else m
  | None => "Unknown error"
  end.

(** [s.includes(needle)] *)
Definition includes (needle s : string) : bool :=
  match String.index 0 needle s with
  | Some _ => true
  | None => false
  end.

(** [s.startsWith(p)] *)
Definition startsWith (p s : string) : bool := String.prefix p s.

(** [path.split('/')[0]]: the part of [path] before its first slash. *)
Fixpoint split_head (path : string) : string :=
  match path with
  | EmptyString => EmptyString
  | String c rest =>
      if Ascii.eqb c "/"%char then EmptyString else String c (split_head rest)
  end.

Definition dquote : string := String (Ascii.ascii_of_nat 34) EmptyString.

(** ** Numbers

    [progress] is a JavaScript number.  The only non-integral computation of
    the source is [Math.round((i / files.length) * 100)], evaluated in
    IEEE 754 binary64; it is embedded with the Standard Library's
    specification of binary64 arithmetic. *)
Module JsNumber.

Definition prec : Z := 53.
Definition emax : Z := 1024.

(** The double that represents the integer [n] (array indices and lengths
    are below [2^32], hence exact). *)
Definition of_Z (n : Z) : spec_float := binary_normalize prec emax n 0 false.

Definition div : spec_float -> spec_float -> spec_float := SFdiv prec emax.
Definition mul : spec_float -> spec_float -> spec_float := SFmul prec emax.

(** [Math.round(x)]: the integer closest to [x], the one closer to plus
    infinity when two are equally close.  The result is given as an integer;
    the loop of [startProcessing] only calls it on finite values (it runs
    with [i < files.length], so the divisor is not zero), and [0] stands for
    the remaining, non-finite, arguments. *)
Definition round (x : spec_float) : Z :=
  match x with
  | S754_finite s m e =>
      let n := cond_Zopp s (Zpos m) in
      if 0 <=? e then n * 2 ^ e
      else (2 * n + 2 ^ (- e)) / 2 ^ (1 - e)
  | _ => 0
  end.

End JsNumber.

(** [Math.round((i / n) * 100)] *)
Definition loop_progress (i n : nat) : Z :=
  JsNumber.round
    (JsNumber.mul (JsNumber.div (JsNumber.of_Z (Z.of_nat i)) (JsNumber.of_Z (Z.of_nat n)))
                (JsNumber.of_Z 100)).

(** ** Component state *)

Inductive Phase := idle | processing | completed | error.

Record ProcessStatus := {
  state : Phase;
  message : string;
  progress : Z
}.

(** What the runtime decides: codec support, collation, whether the hidden
    canvas is mounted and yields a 2D context, and whether a fresh
    [AudioContext] starts suspended. *)
Record Runtime := {
  isTypeSupported : string -> bool;
  localeCompare : string -> string -> comparison;
  canvasMounted : bool;
  context2d : bool;
  audioSuspended : bool
}.

Inductive AudioState := AudioSuspended | AudioRunning | AudioClosed.

Inductive RecordingState := inactive | recording.

Record Recorder := {
  recState : RecordingState;
  recMimeType : string;
  videoBitsPerSecond : Z
}.

(** One [<video>] element together with the local variables of the promise
    executor that created it. *)
Record Video := {
  vfile : File;
  hasMetadata : bool;            (* readyState >= HAVE_METADATA *)
  oncanplay : bool;              (* the handler is still installed *)
  playPending : bool;            (* [await video.play()] not yet settled *)
  sourceNode : option bool;      (* [Some c]: node created, connected iff [c] *)
  drawRequestId : option nat;    (* the animation frame request still pending *)
  paused : bool;
  ended : bool;
  settled : option (option JsError) (* the promise: pending, resolved, rejected *)
}.

(** How the attempt to wire the audio of a clip goes. *)
Inductive AudioOutcome :=
| AudioOk
| CreateFails (e : JsError)
| ConnectFails (e : JsError).

(** Where the [async] function [startProcessing] is suspended. *)
Inductive Pc :=
| PcIdle                 (* not called, or returned at the guard *)
| PcResume               (* at [await audioCtx.resume()] *)
| PcClip (i : nat)       (* at the [await] of the session of clip [i] *)
| PcReturned.            (* past the [try] / [catch] *)

(** Externally visible actions, in the order the program performs them. *)
Inductive Action :=
| AIsTypeSupported (mime : string) (answer : bool)
| ASetStatus (s : ProcessStatus)
| ASetDownloadUrl (b : Blob)
| AConsoleLog (s : string)
| AConsoleWarn (e : JsError)
| AConsoleError (e : JsError)
| ARecorderNew (mime : string) (bits : Z)
| ARecorderStart
| ARecorderStop
| ACloseAudio
| ABreak (i : nat)
| ACreateVideo (i : nat) (n : string)
| ASetCanvasSize (v : nat) (w h : Z)
| AConnectAudio (v : nat)
| ADisconnectAudio (v : nat)
| APlay (v : nat)
| ADrawImage (v : nat) (w h : Z)
| ACancelAnimationFrame (v : nat)
| ARemoveVideo (v : nat)
| ARevokeObjectURL (v : nat)
| AResolve (v : nat)
| AReject (v : nat) (e : JsError).

Record State := {
  (* React state *)
  files : list File;
  folderName : string;
  status : ProcessStatus;
  downloadUrl : option Blob;     (* the object URL, identified with its blob *)
  finalMimeType : string;
  (* refs and DOM *)
  processingRef : bool;
  audioContextRef : option AudioState;
  canvas : Z * Z;
  (* locals of [startProcessing] *)
  mediaRecorder : option Recorder;
  chunks : list Blob;
  dimensionsSet : bool;
  videos : list Video;
  (* scheduling *)
  pc : Pc;
  stopQueued : bool;             (* the task firing [stop] is queued *)
  nextRequestId : nat;
  log : list Action
}.

(** ** Field updates *)

Definition with_hasMetadata (x : bool) (v : Video) : Video :=
  {| vfile := vfile v; hasMetadata := x; oncanplay := oncanplay v;
     playPending := playPending v; sourceNode := sourceNode v;
     drawRequestId := drawRequestId v; paused := paused v; ended := ended v;
     settled := settled v |}.

Definition with_oncanplay (x : bool) (v : Video) : Video :=
  {| vfile := vfile v; hasMetadata := hasMetadata v; oncanplay := x;
     playPending := playPending v; sourceNode := sourceNode v;
     drawRequestId := drawRequestId v; paused := paused v; ended := ended v;
     settled := settled v |}.

Definition with_playPending (x : bool) (v : Video) : Video :=
  {| vfile := vfile v; hasMetadata := hasMetadata v;
     oncanplay := oncanplay v; playPending := x; sourceNode := sourceNode v;
     drawRequestId := drawRequestId v; paused := paused v; ended := ended v;
     settled := settled v |}.

Definition with_sourceNode (x : option bool) (v : Video) : Video :=
  {| vfile := vfile v; hasMetadata := hasMetadata v;
     oncanplay := oncanplay v; playPending := playPending v; sourceNode := x;
     drawRequestId := drawRequestId v; paused := paused v; ended := ended v;
     settled := settled v |}.

Definition with_drawRequestId (x : option nat) (v : Video) : Video :=
  {| vfile := vfile v; hasMetadata := hasMetadata v;
     oncanplay := oncanplay v; playPending := playPending v;
     sourceNode := sourceNode v; drawRequestId := x; paused := paused v;
     ended := ended v; settled := settled v |}.

Definition with_paused (x : bool) (v : Video) : Video :=
  {| vfile := vfile v; hasMetadata := hasMetadata v;
     oncanplay := oncanplay v; playPending := playPending v;
     sourceNode := sourceNode v; drawRequestId := drawRequestId v;
     paused := x; ended := ended v; settled := settled v |}.

Definition with_ended (x : bool) (v : Video) : Video :=
  {| vfile := vfile v; hasMetadata := hasMetadata v;
     oncanplay := oncanplay v; playPending := playPending v;
     sourceNode := sourceNode v; drawRequestId := drawRequestId v;
     paused := paused v; ended := x; settled := settled v |}.

Definition with_settled (x : option (option JsError)) (v : Video) : Video :=
  {| vfile := vfile v; hasMetadata := hasMetadata v;
     oncanplay := oncanplay v; playPending := playPending v;
     sourceNode := sourceNode v; drawRequestId := drawRequestId v;
     paused := paused v; ended := ended v; settled := x |}.

Definition set_status (x : ProcessStatus) (st : State) : State :=
  {| files := files st; folderName := folderName st; status := x;
     downloadUrl := downloadUrl st; finalMimeType := finalMimeType st;
     processingRef := processingRef st;
     audioContextRef := audioContextRef st; canvas := canvas st;
     mediaRecorder := mediaRecorder st; chunks := chunks st;
     dimensionsSet := dimensionsSet st; videos := videos st; pc := pc st;
     stopQueued := stopQueued st; nextRequestId := nextRequestId st;
     log := log st |}.

Definition set_downloadUrl (x : option Blob) (st : State) : State :=
  {| files := files st; folderName := folderName st; status := status st;
     downloadUrl := x; finalMimeType := finalMimeType st;
     processingRef := processingRef st;
     audioContextRef := audioContextRef st; canvas := canvas st;
     mediaRecorder := mediaRecorder st; chunks := chunks st;
     dimensionsSet := dimensionsSet st; videos := videos st; pc := pc st;
     stopQueued := stopQueued st; nextRequestId := nextRequestId st;
     log := log st |}.

Definition set_finalMimeType (x : string) (st : State) : State :=
  {| files := files st; folderName := folderName st; status := status st;
     downloadUrl := downloadUrl st; finalMimeType := x;
     processingRef := processingRef st;
     audioContextRef := audioContextRef st; canvas := canvas st;
     mediaRecorder := mediaRecorder st; chunks := chunks st;
     dimensionsSet := dimensionsSet st; videos := videos st; pc := pc st;
     stopQueued := stopQueued st; nextRequestId := nextRequestId st;
     log := log st |}.

Definition set_processingRef (x : bool) (st : State) : State :=
  {| files := files st; folderName := folderName st; status := status st;
     downloadUrl := downloadUrl st; finalMimeType := finalMimeType st;
     processingRef := x; audioContextRef := audioContextRef st;
     canvas := canvas st; mediaRecorder := mediaRecorder st;
     chunks := chunks st; dimensionsSet := dimensionsSet st;
     videos := videos st; pc := pc st; stopQueued := stopQueued st;
     nextRequestId := nextRequestId st; log := log st |}.

Definition set_audioContextRef (x : option AudioState) (st : State) : State :=
  {| files := files st; folderName := folderName st; status := status st;
     downloadUrl := downloadUrl st; finalMimeType := finalMimeType st;
     processingRef := processingRef st; audioContextRef := x;
     canvas := canvas st; mediaRecorder := mediaRecorder st;
     chunks := chunks st; dimensionsSet := dimensionsSet st;
     videos := videos st; pc := pc st; stopQueued := stopQueued st;
     nextRequestId := nextRequestId st; log := log st |}.

Definition set_canvas (x : Z * Z) (st : State) : State :=
  {| files := files st; folderName := folderName st; status := status st;
     downloadUrl := downloadUrl st; finalMimeType := finalMimeType st;
     processingRef := processingRef st;
     audioContextRef := audioContextRef st; canvas := x;
     mediaRecorder := mediaRecorder st; chunks := chunks st;
     dimensionsSet := dimensionsSet st; videos := videos st; pc := pc st;
     stopQueued := stopQueued st; nextRequestId := nextRequestId st;
     log := log st |}.

Definition set_mediaRecorder (x : option Recorder) (st : State) : State :=
  {| files := files st; folderName := folderName st; status := status st;
     downloadUrl := downloadUrl st; finalMimeType := finalMimeType st;
     processingRef := processingRef st;
     audioContextRef := audioContextRef st; canvas := canvas st;
     mediaRecorder := x; chunks := chunks st;
     dimensionsSet := dimensionsSet st; videos := videos st; pc := pc st;
     stopQueued := stopQueued st; nextRequestId := nextRequestId st;
     log := log st |}.

Definition set_chunks (x : list Blob) (st : State) : State :=
  {| files := files st; folderName := folderName st; status := status st;
     downloadUrl := downloadUrl st; finalMimeType := finalMimeType st;
     processingRef := processingRef st;
     audioContextRef := audioContextRef st; canvas := canvas st;
     mediaRecorder := mediaRecorder st; chunks := x;
     dimensionsSet := dimensionsSet st; videos := videos st; pc := pc st;
     stopQueued := stopQueued st; nextRequestId := nextRequestId st;
     log := log st |}.

Definition set_dimensionsSet (x : bool) (st : State) : State :=
  {| files := files st; folderName := folderName st; status := status st;
     downloadUrl := downloadUrl st; finalMimeType := finalMimeType st;
     processingRef := processingRef st;
     audioContextRef := audioContextRef st; canvas := canvas st;
     mediaRecorder := mediaRecorder st; chunks := chunks st;
     dimensionsSet := x; videos := videos st; pc := pc st;
     stopQueued := stopQueued st; nextRequestId := nextRequestId st;
     log := log st |}.

Definition set_videos (x : list Video) (st : State) : State :=
  {| files := files st; folderName := folderName st; status := status st;
     downloadUrl := downloadUrl st; finalMimeType := finalMimeType st;
     processingRef := processingRef st;
     audioContextRef := audioContextRef st; canvas := canvas st;
     mediaRecorder := mediaRecorder st; chunks := chunks st;
     dimensionsSet := dimensionsSet st; videos := x; pc := pc st;
     stopQueued := stopQueued st; nextRequestId := nextRequestId st;
     log := log st |}.

Definition set_pc (x : Pc) (st : State) : State :=
  {| files := files st; folderName := folderName st; status := status st;
     downloadUrl := downloadUrl st; finalMimeType := finalMimeType st;
     processingRef := processingRef st;
     audioContextRef := audioContextRef st; canvas := canvas st;
     mediaRecorder := mediaRecorder st; chunks := chunks st;
     dimensionsSet := dimensionsSet st; videos := videos st; pc := x;
     stopQueued := stopQueued st; nextRequestId := nextRequestId st;
     log := log st |}.

Definition set_stopQueued (x : bool) (st : State) : State :=
  {| files := files st; folderName := folderName st; status := status st;
     downloadUrl := downloadUrl st; finalMimeType := finalMimeType st;
     processingRef := processingRef st;
     audioContextRef := audioContextRef st; canvas := canvas st;
     mediaRecorder := mediaRecorder st; chunks := chunks st;
     dimensionsSet := dimensionsSet st; videos := videos st; pc := pc st;
     stopQueued := x; nextRequestId := nextRequestId st; log := log st |}.

Definition set_nextRequestId (x : nat) (st : State) : State :=
  {| files := files st; folderName := folderName st; status := status st;
     downloadUrl := downloadUrl st; finalMimeType := finalMimeType st;
     processingRef := processingRef st;
     audioContextRef := audioContextRef st; canvas := canvas st;
     mediaRecorder := mediaRecorder st; chunks := chunks st;
     dimensionsSet := dimensionsSet st; videos := videos st; pc := pc st;
     stopQueued := stopQueued st; nextRequestId := x; log := log st |}.

Definition set_log (x : list Action) (st : State) : State :=
  {| files := files st; folderName := folderName st; status := status st;
     downloadUrl := downloadUrl st; finalMimeType := finalMimeType st;
     processingRef := processingRef st;
     audioContextRef := audioContextRef st; canvas := canvas st;
     mediaRecorder := mediaRecorder st; chunks := chunks st;
     dimensionsSet := dimensionsSet st; videos := videos st; pc := pc st;
     stopQueued := stopQueued st; nextRequestId := nextRequestId st;
     log := x |}.

Definition emit (acts : list Action) (st : State) : State :=
  set_log (log st ++ acts) st.

(** [setStatus(s)] *)
Definition setStatus (s : ProcessStatus) (st : State) : State :=
  set_status s (emit [ASetStatus s] st).

(** A video element [v] of the run, changed in place. *)
Definition update_video (v : nat) (f : Video -> Video) (st : State) : State :=
  set_videos (alter f v (videos st)) st.

(** ** The component *)

Definition PREFERRED_FORMAT : string :=
  "video/mp4; codecs=" +:+ dquote +:+ "avc1.42E01E, mp4a.40.2" +:+ dquote.

Definition FALLBACK_FORMAT : string :=
  "video/webm; codecs=" +:+ dquote +:+ "vp8, opus" +:+ dquote.

(** The state of the freshly mounted component. *)
Definition mounted : State :=
  {| files := []; folderName := "video";
     status := {| state := idle; message := ""; progress := 0 |};
     downloadUrl := None; finalMimeType := "";
     processingRef := false; audioContextRef := None; canvas := (300, 150);
     mediaRecorder := None; chunks := []; dimensionsSet := false;
     videos := []; pc := PcIdle; stopQueued := false; nextRequestId := 0%nat;
     log := [] |}.

(** [Array.prototype.sort] is stable; with the comparator of the source, an
    element goes before the first one that does not order before it. *)
Fixpoint sort_insert (cmp : string -> string -> comparison) (f : File)
    (l : list File) : list File :=
  match l with
  | [] => [f]
  | g :: rest =>
      match cmp (name f) (name g) with
      | Gt => g :: sort_insert cmp f rest
      | _ => f :: l
      end
  end.

Definition sort_files (cmp : string -> string -> comparison)
    (l : list File) : list File :=
  foldr (sort_insert cmp) [] l.

Definition handleFolderSelect (rt : Runtime) (fileList : list File)
    (st : State) : State :=
  if (length fileList =? 0)%nat then st
  else
    let videoFiles :=
      sort_files (localeCompare rt)
        (filter (fun f => startsWith "video/" (type f) = true) fileList) in
    match videoFiles with
    | [] =>
        setStatus {| state := error;
                     message := "No video files found in the selected folder.";
                     progress := 0 |} st
    | first :: _ =>
        let path := webkitRelativePath first in
        let extractedFolderName :=
          if String.eqb (split_head path) "" then "merged_video"
          else split_head path in
        let st :=
          {| files := videoFiles; folderName := extractedFolderName;
             status := status st; downloadUrl := None;
             finalMimeType := finalMimeType st;
             processingRef := processingRef st;
             audioContextRef := audioContextRef st; canvas := canvas st;
             mediaRecorder := mediaRecorder st; chunks := chunks st;
             dimensionsSet := dimensionsSet st; videos := videos st;
             pc := pc st; stopQueued := stopQueued st;
             nextRequestId := nextRequestId st; log := log st |} in
        setStatus {| state := idle;
                     message := "Ready to merge " +:+ pretty (length videoFiles)
                                +:+ " clips from " +:+ dquote
                                +:+ extractedFolderName +:+ dquote;
                     progress := 0 |} st
    end.

(** [getSupportedMimeType]: the queries put to the runtime, in order, and the
    format returned. *)
Definition getSupportedMimeType (rt : Runtime) : list Action * string :=
  if isTypeSupported rt PREFERRED_FORMAT then
    ([AIsTypeSupported PREFERRED_FORMAT true], PREFERRED_FORMAT)
  else if isTypeSupported rt "video/mp4" then
    ([AIsTypeSupported PREFERRED_FORMAT false;
      AIsTypeSupported "video/mp4" true], "video/mp4")
  else
    ([AIsTypeSupported PREFERRED_FORMAT false;
      AIsTypeSupported "video/mp4" false], FALLBACK_FORMAT).

(** [mediaRecorder.stop()]: the recorder becomes inactive at once and the
    task that fires [stop] is queued. *)
Definition recorder_stop (st : State) : State :=
  match mediaRecorder st with
  | Some r =>
      match recState r with
      | inactive => st
      | recording =>
          set_stopQueued true
            (set_mediaRecorder
               (Some {| recState := inactive; recMimeType := recMimeType r;
                        videoBitsPerSecond := videoBitsPerSecond r |})
               (emit [ARecorderStop] st))
      end
  | None => st
  end.

(** The [catch] clause of [startProcessing]. *)
Definition catch_block (err : JsError) (st : State) : State :=
  let st := emit [AConsoleError err] st in
  let st := setStatus {| state := error;
                         message := "Error: " +:+ message_or_unknown err;
                         progress := 0 |} st in
  let st := set_processingRef false st in
  set_pc PcReturned (recorder_stop st).

(** "Stop everything": the statements after the loop. *)
Definition after_loop (st : State) : State :=
  set_pc PcReturned (recorder_stop st).

Definition new_video (f : File) : Video :=
  {| vfile := f; hasMetadata := false; oncanplay := true;
     playPending := false; sourceNode := None; drawRequestId := None;
     paused := true; ended := false; settled := None |}.

(** The loop of [startProcessing], entered with loop variable [i], up to the
    [await] of the session it creates. *)
Definition loop_from (i : nat) (st : State) : State :=
  match files st !! i with
  | Some file =>
      if negb (processingRef st) then after_loop (emit [ABreak i] st)
      else
        let st :=
          setStatus {| state := processing;
                       message := "Processing clip " +:+ pretty (i + 1)%nat
                                  +:+ "/" +:+ pretty (length (files st))
                                  +:+ ": " +:+ name file;
                       progress := loop_progress i (length (files st)) |} st in
        let st := set_videos (videos st ++ [new_video file]) st in
        set_pc (PcClip i) (emit [ACreateVideo i (name file)] st)
  | None => after_loop st
  end.

(** [startProcessing] from the canvas set-up on (what follows the optional
    [await audioCtx.resume()]). *)
Definition after_resume (rt : Runtime) (st : State) : State :=
  if negb (context2d rt) then
    catch_block (ErrObject "Could not get canvas context") st
  else
    let st :=
      set_mediaRecorder
        (Some {| recState := inactive; recMimeType := finalMimeType st;
                 videoBitsPerSecond := 5000000 |})
        (emit [ARecorderNew (finalMimeType st) 5000000] st) in
    let st := set_chunks [] st in
    let st :=
      set_mediaRecorder
        (Some {| recState := recording; recMimeType := finalMimeType st;
                 videoBitsPerSecond := 5000000 |})
        (emit [ARecorderStart] st) in
    let st := set_dimensionsSet false st in
    loop_from 0 st.

Definition startProcessing (rt : Runtime) (st : State) : State :=
  if (length (files st) =? 0)%nat || negb (canvasMounted rt) then st
  else
    let st := set_processingRef true st in
    let st := setStatus {| state := processing;
                           message := "Initializing processing engine...";
                           progress := 0 |} st in
    let st := set_mediaRecorder None st in
    let '(queries, mimeType) := getSupportedMimeType rt in
    let st := set_finalMimeType mimeType (emit queries st) in
    let st := emit [AConsoleLog ("Using format: " +:+ mimeType)] st in
    if audioSuspended rt then
      set_pc PcResume (set_audioContextRef (Some AudioSuspended) st)
    else
      after_resume rt (set_audioContextRef (Some AudioRunning) st).

(** [handleDownload]: the name under which the merged file is saved, when
    there is something to download. *)
Definition handleDownload (st : State) : option string :=
  match downloadUrl st with
  | None => None
  | Some _ =>
      let ext := if includes "mp4" (finalMimeType st) then "mp4" else "webm" in
      Some (folderName st +:+ "." +:+ ext)
  end.

(** ** One playback session *)

(** [resolve()] of the promise of video [v]: a settled promise ignores it;
    otherwise the function awaiting it runs on, here with the next turn of
    the loop. *)
Definition resolve (v : nat) (st : State) : State :=
  match videos st !! v with
  | Some vid =>
      match settled vid with
      | Some _ => st
      | None =>
          let st := update_video v (with_settled (Some None)) st in
          let st := emit [AResolve v] st in
          match pc st with
          | PcClip i => if (i =? v)%nat then loop_from (S i) st else st
          | _ => st
          end
      end
  | None => st
  end.

(** [reject(e)]: the awaiting function runs on in its [catch] clause. *)
Definition reject (v : nat) (e : JsError) (st : State) : State :=
  match videos st !! v with
  | Some vid =>
      match settled vid with
      | Some _ => st
      | None =>
          let st := update_video v (with_settled (Some (Some e))) st in
          let st := emit [AReject v e] st in
          match pc st with
          | PcClip i => if (i =? v)%nat then catch_block e st else st
          | _ => st
          end
      end
  | None => st
  end.

(** [cleanup] *)
Definition cleanup (v : nat) (st : State) : State :=
  match videos st !! v with
  | Some vid =>
      let st := update_video v (with_drawRequestId None) st in
      let st := emit [ACancelAnimationFrame v] st in
      let st :=
        match sourceNode vid with
        | Some _ =>
            emit [ADisconnectAudio v]
              (update_video v (with_sourceNode (Some false)) st)
        | None => st
        end in
      emit [ARemoveVideo v; ARevokeObjectURL v] st
  | None => st
  end.

(** [video.onloadedmetadata] *)
Definition onloadedmetadata (v : nat) (st : State) : State :=
  match videos st !! v with
  | Some vid =>
      let st := update_video v (with_hasMetadata true) st in
      if negb (dimensionsSet st) then
        let w := videoWidth (vfile vid) in
        let h := videoHeight (vfile vid) in
        set_dimensionsSet true
          (set_canvas (w, h) (emit [ASetCanvasSize v w h] st))
      else st
  | None => st
  end.

(** [video.oncanplay], up to [await video.play()] *)
Definition oncanplay_handler (v : nat) (audio : AudioOutcome) (st : State)
    : State :=
  match videos st !! v with
  | Some vid =>
      if oncanplay vid then
        let st := update_video v (with_oncanplay false) st in
        let st :=
          match audio with
          | AudioOk =>
              emit [AConnectAudio v]
                (update_video v (with_sourceNode (Some true)) st)
          | CreateFails e => emit [AConsoleWarn e] st
          | ConnectFails e =>
              emit [AConsoleWarn e]
                (update_video v (with_sourceNode (Some false)) st)
          end in
        emit [APlay v] (update_video v (with_playPending true) st)
      else st
  | None => st
  end.

(** [drawFrame] *)
Definition drawFrame (v : nat) (st : State) : State :=
  match videos st !! v with
  | Some vid =>
      if paused vid || ended vid then st
      else
        let st := emit [ADrawImage v (fst (canvas st)) (snd (canvas st))] st in
        let st :=
          update_video v (with_drawRequestId (Some (nextRequestId st))) st in
        set_nextRequestId (S (nextRequestId st)) st
  | None => st
  end.

(** [video.oncanplay], after [await video.play()] *)
Definition play_settled (v : nat) (res : option JsError) (st : State)
    : State :=
  match videos st !! v with
  | Some vid =>
      if playPending vid then
        let st := update_video v (with_playPending false) st in
        match res with
        | None => drawFrame v (update_video v (with_paused false) st)
        | Some err => reject v err (cleanup v st)
        end
      else st
  | None => st
  end.

(** The callback registered by [requestAnimationFrame(drawFrame)] *)
Definition animation_frame (v : nat) (st : State) : State :=
  match videos st !! v with
  | Some vid =>
      match drawRequestId vid with
      | Some _ => drawFrame v (update_video v (with_drawRequestId None) st)
      | None => st
      end
  | None => st
  end.

(** [video.onended] *)
Definition onended (v : nat) (st : State) : State :=
  match videos st !! v with
  | Some vid =>
      let st :=
        update_video v (fun x => with_paused true (with_ended true x)) st in
      resolve v (cleanup v st)
  | None => st
  end.

(** [video.onerror] *)
Definition onerror (v : nat) (st : State) : State :=
  match videos st !! v with
  | Some vid =>
      reject v (ErrString ("Error playing file " +:+ name (vfile vid)))
        (cleanup v st)
  | None => st
  end.

(** ** The recorder *)

(** [mediaRecorder.ondataavailable] *)
Definition ondataavailable (data : Blob) (st : State) : State :=
  match mediaRecorder st with
  | Some _ =>
      if (0 <? size data)%nat then set_chunks (chunks st ++ [data]) st else st
  | None => st
  end.

(** [mediaRecorder.onstop] *)
Definition onstop (st : State) : State :=
  match mediaRecorder st with
  | Some r =>
      let blob := newBlob (chunks st) (recMimeType r) in
      let st := set_downloadUrl (Some blob) (emit [ASetDownloadUrl blob] st) in
      let st := setStatus {| state := completed;
                             message := "Processing complete!";
                             progress := 100 |} st in
      let st := set_processingRef false st in
      match audioContextRef st with
      | Some AudioClosed => st
      | Some _ => set_audioContextRef (Some AudioClosed) (emit [ACloseAudio] st)
      | None => st
      end
  | None => st
  end.

(** ** The browser's side *)

(** What can happen between two runs of the program's code.  A video
    element is named by the index of the clip it was created for.  The
    settlement of [video.play()] is an event of its own, since [oncanplay]
    awaits it.  [EvCancel] stands for whoever holds [processingRef] clearing
    it while the run is under way; the component itself only clears it when
    a run is over. *)
Inductive Event :=
| EvResume (res : option JsError)     (* [audioCtx.resume()] settles *)
| EvLoadedMetadata (v : nat)
| EvCanPlay (v : nat) (audio : AudioOutcome)
| EvPlaySettled (v : nat) (res : option JsError)
| EvAnimationFrame (v : nat)
| EvEnded (v : nat)
| EvError (v : nat)
| EvDataAvailable (data : Blob)
| EvRecorderStop                      (* the queued [stop] event fires *)
| EvCancel.                           (* [processingRef.current = false] *)

(** The program's reaction to one event: the handler, and whatever the
    handler resumes, run to the next suspension point. *)
Definition step (rt : Runtime) (st : State) (e : Event) : State :=
  match e with
  | EvResume res =>
      match pc st with
      | PcResume =>
          match res with
          | None =>
              after_resume rt (set_audioContextRef (Some AudioRunning) st)
          | Some err => catch_block err st
          end
      | _ => st
      end
  | EvLoadedMetadata v => onloadedmetadata v st
  | EvCanPlay v audio => oncanplay_handler v audio st
  | EvPlaySettled v res => play_settled v res st
  | EvAnimationFrame v => animation_frame v st
  | EvEnded v => onended v st
  | EvError v => onerror v st
  | EvDataAvailable data => ondataavailable data st
  | EvRecorderStop =>
      if stopQueued st then onstop (set_stopQueued false st) else st
  | EvCancel => set_processingRef false st
  end.

Definition exec (rt : Runtime) (st : State) (evs : list Event) : State :=
  foldl (step rt) st evs.

(** A queued [stop] task that the schedule has not delivered yet runs in the
    end: the state a run settles in. *)
Definition finish (rt : Runtime) (st : State) : State :=
  if stopQueued st then step rt st EvRecorderStop else st.

(** The component holding [fs] as its [files], "Start Merge" not yet
    pressed.  (What [handleFolderSelect] leaves in [status] and [folderName]
    is not read by [startProcessing].) *)
Definition selected (fs : list File) : State :=
  {| files := fs; folderName := folderName mounted; status := status mounted;
     downloadUrl := None; finalMimeType := finalMimeType mounted;
     processingRef := false; audioContextRef := None;
     canvas := canvas mounted; mediaRecorder := None; chunks := [];
     dimensionsSet := false; videos := []; pc := PcIdle;
     stopQueued := false; nextRequestId := 0%nat; log := [] |}.

(** One run: "Start Merge" on [fs], then the events [evs]. *)
Definition run (rt : Runtime) (fs : list File) (evs : list Event) : State :=
  exec rt (startProcessing rt (selected fs)) evs.

(** What the browser cannot do: [ended] is only fired at an element whose
    metadata has loaded. *)
Definition browser_ok (st : State) (e : Event) : bool :=
  match e with
  | EvEnded v =>
      match videos st !! v with
      | Some vid => hasMetadata vid
      | None => true
      end
  | _ => true
  end.

Fixpoint schedule_ok (rt : Runtime) (st : State) (evs : list Event) : bool :=
  match evs with
  | [] => true
  | e :: rest => browser_ok st e && schedule_ok rt (step rt st e) rest
  end.

(** ** What the component offers

    The conditions under which the JSX of [App] renders its controls, and
    the one handler written inline there. *)

(** [files.length > 0 && status.state === 'idle']: the "Start Merge" button. *)
Definition showsStartMerge (st : State) : bool :=
  (0 <? length (files st))%nat
  && match state (status st) with idle => true | _ => false end.

(** [status.state === 'processing' || ... 'completed' || ... 'error']: the
    progress panel. *)
Definition showsProgress (st : State) : bool :=
  match state (status st) with
  | processing | completed | error => true
  | idle => false
  end.

(** [status.state === 'completed' && downloadUrl]: the download section. *)
Definition showsDownload (st : State) : bool :=
  match state (status st), downloadUrl st with
  | completed, Some _ => true
  | _, _ => false
  end.

(** The [onClick] of "Start Over". *)
Definition startOver (st : State) : State :=
  let st :=
    {| files := []; folderName := folderName st; status := status st;
       downloadUrl := None; finalMimeType := finalMimeType st;
       processingRef := processingRef st;
       audioContextRef := audioContextRef st; canvas := canvas st;
       mediaRecorder := mediaRecorder st; chunks := chunks st;
       dimensionsSet := dimensionsSet st; videos := videos st;
       pc := pc st; stopQueued := stopQueued st;
       nextRequestId := nextRequestId st; log := log st |} in
  setStatus {| state := idle; message := ""; progress := 0 |} st.

(** * Specification vocabulary *)

(** ** Views of the session list

    The promises, the files and the metadata flags of the sessions created
    so far, by clip index. *)

Definition settles (st : State) : list (option (option JsError)) :=
  settled <$> videos st.

Definition vfiles (st : State) : list File := vfile <$> videos st.

Definition metas (st : State) : list bool := hasMetadata <$> videos st.

(** ** Steps that leave the orchestration alone *)

Definition quiet_action (a : Action) : bool :=
  match a with
  | AConsoleWarn _ | AConnectAudio _ | ADisconnectAudio _ | APlay _
  | ADrawImage _ _ _ | ACancelAnimationFrame _ | ARemoveVideo _
  | ARevokeObjectURL _ => true
  | _ => false
  end.

(** [quiet st st']: from [st] to [st'] only the playback details of the
    sessions changed, and the log grew by actions of playback and teardown. *)
Record quiet (st st' : State) : Prop := {
  q_files : files st' = files st;
  q_status : status st' = status st;
  q_downloadUrl : downloadUrl st' = downloadUrl st;
  q_finalMimeType : finalMimeType st' = finalMimeType st;
  q_processingRef : processingRef st' = processingRef st;
  q_mediaRecorder : mediaRecorder st' = mediaRecorder st;
  q_chunks : chunks st' = chunks st;
  q_stopQueued : stopQueued st' = stopQueued st;
  q_pc : pc st' = pc st;
  q_dimensionsSet : dimensionsSet st' = dimensionsSet st;
  q_canvas : canvas st' = canvas st;
  q_audio : audioContextRef st' = audioContextRef st;
  q_settles : settles st' = settles st;
  q_vfiles : vfiles st' = vfiles st;
  q_metas : metas st' = metas st;
  q_log : exists acts,
      log st' = log st ++ acts /\ Forall (fun a => quiet_action a = true) acts
}.

(** The actions of one call of [cleanup], [b] telling whether the session
    had created its audio source node. *)
Definition cleanup_actions (v : nat) (b : bool) : list Action :=
  ACancelAnimationFrame v
    :: (if b then [ADisconnectAudio v] else [])
    ++ [ARemoveVideo v; ARevokeObjectURL v].

Definition has_source (vid : Video) : bool :=
  match sourceNode vid with Some _ => true | None => false end.

(** ** The shape of one step

    Whatever the event, the step either leaves the orchestration alone, or
    tears the session down and settles its promise, or is one of the few
    handlers that act on the run as a whole. *)
Inductive Shape (rt : Runtime) (st : State) : Event -> State -> Prop :=
| ShQuiet e st' : quiet st st' -> Shape rt st e st'
| ShEnded v vid st1 :
    videos st !! v = Some vid -> quiet st st1 ->
    log st1 = log st ++ cleanup_actions v (has_source vid) ->
    Shape rt st (EvEnded v) (resolve v st1)
| ShError v vid st1 :
    videos st !! v = Some vid -> quiet st st1 ->
    log st1 = log st ++ cleanup_actions v (has_source vid) ->
    Shape rt st (EvError v)
      (reject v (ErrString ("Error playing file " +:+ name (vfile vid))) st1)
| ShPlayFailed v vid err st1 :
    videos st !! v = Some vid -> quiet st st1 ->
    log st1 = log st ++ cleanup_actions v (has_source vid) ->
    Shape rt st (EvPlaySettled v (Some err)) (reject v err st1)
| ShMetadata v : Shape rt st (EvLoadedMetadata v) (onloadedmetadata v st)
| ShResumed :
    pc st = PcResume ->
    Shape rt st (EvResume None)
      (after_resume rt (set_audioContextRef (Some AudioRunning) st))
| ShResumeFailed err :
    pc st = PcResume -> Shape rt st (EvResume (Some err)) (catch_block err st)
| ShData d : Shape rt st (EvDataAvailable d) (ondataavailable d st)
| ShStop :
    stopQueued st = true ->
    Shape rt st EvRecorderStop (onstop (set_stopQueued false st))
| ShCancel : Shape rt st EvCancel (set_processingRef false st).

(** ** The orchestration invariant

    The sessions created so far are those of a prefix of the clip list; while
    the loop awaits the session of clip [i], the sessions before it have
    resolved, its own promise is pending and the recorder is recording; once
    the function has returned no promise is pending. *)
Definition Inv (st : State) : Prop :=
  vfiles st `prefix_of` files st /\
  match pc st with
  | PcIdle | PcResume =>
      settles st = [] /\ mediaRecorder st = None /\ stopQueued st = false
  | PcClip i =>
      settles st = replicate i (Some None) ++ [None] /\
      (exists r, mediaRecorder st = Some r /\ recState r = recording) /\
      stopQueued st = false
  | PcReturned => None ∉ settles st
  end.

(** What the invariant reads. *)
Definition control (st : State) :=
  (files st, pc st, settles st, vfiles st, mediaRecorder st, stopQueued st).

(** The state right after [resolve()] or [reject(e)] settled a pending
    promise, before the awaiting function runs on. *)
Definition resolved (v : nat) (st : State) : State :=
  emit [AResolve v] (update_video v (with_settled (Some None)) st).

Definition rejected (v : nat) (e : JsError) (st : State) : State :=
  emit [AReject v e] (update_video v (with_settled (Some (Some e))) st).

(** ** Observers of the log *)

(** The sessions created, in the order of their creation. *)
Definition created (tr : list Action) : list (nat * string) :=
  omap (fun a => match a with ACreateVideo i n => Some (i, n) | _ => None end)
       tr.

Definition is_create (a : Action) : bool :=
  match a with ACreateVideo _ _ => true | _ => false end.

Definition is_error_status (a : Action) : bool :=
  match a with
  | ASetStatus s => match state s with error => true | _ => false end
  | _ => false
  end.

(** No [error] status was ever published. *)
Definition clean (tr : list Action) : Prop :=
  Forall (fun a => is_error_status a = false) tr.

(** What a run that is still inside its [try] block can have logged. *)
Definition running_action (a : Action) : bool :=
  match a with
  | ARecorderStop | ABreak _ | AReject _ _ | AConsoleError _ => false
  | _ => negb (is_error_status a)
  end.

Definition neutral_action (a : Action) : bool :=
  running_action a && negb (is_create a).

(** The status the loop publishes at the start boundary of clip [i], whose
    file is [f]. *)
Definition clip_status (fs : list File) (i : nat) (f : File) : ProcessStatus :=
  {| state := processing;
     message := "Processing clip " +:+ pretty (i + 1)%nat +:+ "/"
                +:+ pretty (length fs) +:+ ": " +:+ name f;
     progress := loop_progress i (length fs) |}.

Definition completed_status : ProcessStatus :=
  {| state := completed; message := "Processing complete!"; progress := 100 |}.

(** [check a pre] holds of every action [a] of the log, [pre] being what was
    logged before it. *)
Definition preceded (check : Action -> list Action -> Prop)
    (tr : list Action) : Prop :=
  forall pre a post, tr = pre ++ a :: post -> check a pre.

(** A session is created right after the status naming its clip was
    published and, for a clip that is not the first, right after the session
    before it was torn down and resolved. *)
Definition start_check (fs : list File) (a : Action) (pre : list Action)
    : Prop :=
  match a with
  | ACreateVideo i n =>
      exists f p, fs !! i = Some f /\ n = name f /\
        pre = p ++ [ASetStatus (clip_status fs i f)] /\
        match i with
        | O => True
        | S v => exists p' b, p = p' ++ cleanup_actions v b ++ [AResolve v]
        end
  | _ => True
  end.

(** The history invariant: what the log tells about the state. *)
Record Hist (fs : list File) (st : State) : Prop := {
  h_files : files st = fs;
  h_created : created (log st) = imap (fun i f => (i, name f)) (vfiles st);
  h_preceded : preceded (start_check fs) (log st);
  h_running :
    pc st <> PcReturned -> Forall (fun a => running_action a = true) (log st);
  h_stop :
    ARecorderStop ∈ log st ->
    is_Some (mediaRecorder st) /\
    (stopQueued st = true \/
     (status st = completed_status /\ is_Some (downloadUrl st)));
  h_break : forall j, ABreak j ∈ log st -> ARecorderStop ∈ log st /\ clean (log st);
  h_reject : forall v e, AReject v e ∈ log st -> ARecorderStop ∈ log st;
  h_resolved : forall k,
    pc st = PcReturned -> settles st = replicate (S k) (Some None) ->
    clean (log st) /\ ARecorderStop ∈ log st /\
    (is_Some (files st !! S k) -> ABreak (S k) ∈ log st)
}.

(** The [error] statuses published, in order. *)
Definition error_statuses (tr : list Action) : list ProcessStatus :=
  omap (fun a => match a with
                 | ASetStatus s =>
                     match state s with error => Some s | _ => None end
                 | _ => None
                 end) tr.

(** The assignments to the canvas dimensions, in order. *)
Definition canvas_sets (tr : list Action) : list (nat * Z * Z) :=
  omap (fun a => match a with
                 | ASetCanvasSize v w h => Some (v, w, h)
                 | _ => None
                 end) tr.

(** The formats the negotiator asked the runtime about, in order. *)
Definition queried (tr : list Action) : list string :=
  omap (fun a => match a with
                 | AIsTypeSupported m _ => Some m
                 | _ => None
                 end) tr.

(** ** The format negotiator as the specification words it *)

Definition preference_list : list string :=
  [PREFERRED_FORMAT; "video/mp4"; FALLBACK_FORMAT].

Fixpoint first_supported (supported : string -> bool) (l : list string)
    : option string :=
  match l with
  | [] => None
  | m :: rest => if supported m then Some m else first_supported supported rest
  end.

(** Test the preference list in order, return the first supported entry,
    and the fallback when none is reported supported. *)
Definition negotiate_spec (supported : string -> bool) : string :=
  match first_supported supported preference_list with
  | Some m => m
  | None => FALLBACK_FORMAT
  end.

(** [floor(i / N * 100)], the progress the specification words. *)
Definition floor_progress (i n : nat) : Z := Z.of_nat i * 100 / Z.of_nat n.

(** ** The canvas dimensions *)

Definition DimInv (f0 : File) (st : State) : Prop :=
  files st !! 0%nat = Some f0 /\
  if dimensionsSet st then
    canvas st = (videoWidth f0, videoHeight f0) /\
    canvas_sets (log st) = [(0%nat, videoWidth f0, videoHeight f0)] /\
    metas st !! 0%nat = Some true
  else
    canvas_sets (log st) = [] /\
    Forall (fun b => b = false) (metas st) /\
    (length (metas st) <= 1)%nat.

(** ** Cancellation *)

(** A run whose flag was cleared while it awaited the session of clip [i]. *)
Definition Cancelled (i : nat) (st : State) : Prop :=
  processingRef st = false /\
  length (videos st) = S i /\
  (pc st = PcClip i \/ pc st = PcReturned) /\
  take i (settles st) = replicate i (Some None).

(** ** Failures *)

(** The events in which something other than the audio wiring fails. *)
Definition benign (e : Event) : bool :=
  match e with
  | EvError _ | EvPlaySettled _ (Some _) | EvResume (Some _) => false
  | _ => true
  end.

Definition no_failure (a : Action) : bool :=
  match a with
  | AReject _ _ | AConsoleError _ => false
  | _ => negb (is_error_status a)
  end.

Definition audio_failure (audio : AudioOutcome) : option JsError :=
  match audio with
  | AudioOk => None
  | CreateFails e | ConnectFails e => Some e
  end.

(** ** Sample inputs *)

Definition sample_runtime : Runtime :=
  {| isTypeSupported := fun _ => true;
     localeCompare := String.compare;
     canvasMounted := true;
     context2d := true;
     audioSuspended := false |}.

Definition clip_a : File :=
  {| name := "a.mp4"; type := "video/mp4";
     webkitRelativePath := "clips/a.mp4";
     videoWidth := 640; videoHeight := 480 |}.

Definition clip_b : File :=
  {| name := "b.mp4"; type := "video/mp4";
     webkitRelativePath := "clips/b.mp4";
     videoWidth := 1280; videoHeight := 720 |}.

Definition clip_c : File :=
  {| name := "c.mp4"; type := "video/mp4";
     webkitRelativePath := "clips/c.mp4";
     videoWidth := 1920; videoHeight := 1080 |}.

Definition notes_txt : File :=
  {| name := "notes.txt"; type := "text/plain";
     webkitRelativePath := "clips/notes.txt";
     videoWidth := 0; videoHeight := 0 |}.

(** The events of a clip that plays to its end. *)
Definition plays (v : nat) : list Event :=
  [EvLoadedMetadata v; EvCanPlay v AudioOk; EvPlaySettled v None;
   EvAnimationFrame v; EvEnded v].

(** What the canvas invariant reads, but for the metadata flags. *)
Definition dims_frame (st st' : State) : Prop :=
  dimensionsSet st' = dimensionsSet st /\ canvas st' = canvas st /\
  files st' = files st /\
  canvas_sets (log st') = canvas_sets (log st).

(** A change of state that publishes no failure: the log grows by actions
    other than a rejection, a logged error or an [error] status, and the
    status is either kept or one of those just published. *)
Definition harmless (st st' : State) : Prop :=
  exists acts,
    log st' = log st ++ acts /\
    Forall (fun a => no_failure a = true) acts /\
    (status st' = status st \/ ASetStatus (status st') ∈ acts).

(** ** Folder selection *)

(** [file.type.startsWith('video/')] *)
Definition is_video (f : File) : Prop := startsWith "video/" (type f) = true.

(** [a] does not sort after [b]. *)
Definition in_order (cmp : string -> string -> comparison) (a b : File)
    : Prop :=
  cmp (name a) (name b) <> Gt.

Fixpoint has_slash (s : string) : bool :=
  match s with
  | EmptyString => false
  | String c rest => Ascii.eqb c "/"%char || has_slash rest
  end.

(** ** The recorded data *)

(** The blobs the recorder hands over, in the order of their events. *)
Definition datas (evs : list Event) : list Blob :=
  omap (fun e => match e with EvDataAvailable d => Some d | _ => None end) evs.

(** [e.data.size > 0] *)
Definition nonempty (b : Blob) : bool := (0 <? size b)%nat.

Definition is_stop_event (e : Event) : bool :=
  match e with EvRecorderStop => true | _ => false end.

Definition is_resume_event (e : Event) : bool :=
  match e with EvResume _ => true | _ => false end.

(** A run that failed before a recorder or a session existed. *)
Definition FailedEarly (s : ProcessStatus) (st : State) : Prop :=
  pc st = PcReturned /\ videos st = [] /\ mediaRecorder st = None /\
  stopQueued st = false /\ status st = s /\ downloadUrl st = None.


(** A run waiting for the audio context to resume. *)
Definition Waiting (st : State) : Prop :=
  pc st = PcResume /\ videos st = [] /\ mediaRecorder st = None /\
  stopQueued st = false /\ downloadUrl st = None.

(** What no handler of a run assigns. *)
Definition static (st : State) : list File * string * string :=
  (files st, folderName st, finalMimeType st).

(** What the recorder has gathered and what was made of it: the format the
    recorder was created with, the chunks kept, the download. *)
Definition rec_view (st : State) : option string * list Blob * option Blob :=
  (recMimeType <$> mediaRecorder st, chunks st, downloadUrl st).

(** ** The end of a run *)

(** A run that is over: [startProcessing] has returned, the flag is
    cleared, no [stop] event is outstanding and no session is pending. *)
Definition Over (st : State) : Prop :=
  pc st = PcReturned /\ processingRef st = false /\
  stopQueued st = false /\ None ∉ settles st.

(** Once "Start Merge" was pressed the status is never [idle] again, and it
    is [completed] only when the run is over and its merged file exists. *)
Definition Busy (st : State) : Prop :=
  state (status st) <> idle /\
  (state (status st) = completed -> Over st /\ is_Some (downloadUrl st)).

(** A change of status that publishes neither [idle] nor [completed]. *)
Definition mood (st st' : State) : Prop :=
  status st' = status st \/ state (status st') = processing \/
  state (status st') = error.

(** What tells whether a run is over, and what it shows. *)
Definition over_view (st : State) :=
  (status st, downloadUrl st, pc st, processingRef st, stopQueued st,
   settles st).

(** ** Settling a session *)




(** ** Starting playback *)

(** The sessions on which [video.play()] was called, and those whose audio
    source was created and connected, in order. *)
Definition played (tr : list Action) : list nat :=
  omap (fun a => match a with APlay v => Some v | _ => None end) tr.

Definition wired (tr : list Action) : list nat :=
  omap (fun a => match a with AConnectAudio v => Some v | _ => None end) tr.

(** The sessions whose [oncanplay] handler is still installed. *)
Definition armed (st : State) : list bool := oncanplay <$> videos st.

(** [st'] differs from [st] by nothing that starts playback: the same calls
    of [play()] and the same audio wirings were made, and the handlers
    installed are those of [st] and those of the sessions created since. *)
Definition calm (st st' : State) : Prop :=
  played (log st') = played (log st) /\ wired (log st') = wired (log st) /\
  armed st `prefix_of` armed st'.

(** Playback was started, and the audio wired, at most once per session, and
    only on sessions whose [oncanplay] handler has been removed. *)
Definition PlayOnce (st : State) : Prop :=
  NoDup (played (log st)) /\ NoDup (wired (log st)) /\
  forall v, v ∈ played (log st) \/ v ∈ wired (log st) ->
            armed st !! v = Some false.

(** ** The life of the recorder *)

(** What the log tells of the recorder, the merged file and the audio
    context. *)
Definition life_action (a : Action) : bool :=
  match a with
  | ARecorderNew _ _ | ARecorderStart | ARecorderStop | ASetDownloadUrl _
  | ACloseAudio => true
  | _ => false
  end.

Definition life (tr : list Action) : list Action :=
  filter (fun a => life_action a = true) tr.

(** The whole life, for format [m] and merged file [b]. *)
Definition whole_life (m : string) (b : Blob) : list Action :=
  [ARecorderNew m 5000000; ARecorderStart; ARecorderStop; ASetDownloadUrl b;
   ACloseAudio].

(** How far the life has got, as the state has it. *)
Definition Life (m : string) (st : State) : Prop :=
  finalMimeType st = m /\
  match mediaRecorder st with
  | None => life (log st) = [] /\ stopQueued st = false
  | Some r =>
      audioContextRef st
      = Some (match recState r, stopQueued st with
              | inactive, false => AudioClosed
              | _, _ => AudioRunning
              end) /\
      match recState r, stopQueued st with
      | recording, false => life (log st) = [ARecorderNew m 5000000; ARecorderStart]
      | recording, true => False
      | inactive, true =>
          life (log st) = [ARecorderNew m 5000000; ARecorderStart; ARecorderStop]
      | inactive, false =>
          exists b, downloadUrl st = Some b /\ life (log st) = whole_life m b
      end
  end.

(** What [Life] reads, but for the log. *)
Definition life_view (st : State) :=
  (finalMimeType st, mediaRecorder st, stopQueued st, audioContextRef st,
   downloadUrl st).

(** ** Drawing *)

(** The sessions resolved, in order. *)
Definition resolves (tr : list Action) : list nat :=
  omap (fun a => match a with AResolve v => Some v | _ => None end) tr.

(** The [ended] flags of the elements, by session. *)
Definition endeds (st : State) : list bool := ended <$> videos st.

(** Actions that neither draw nor resolve nor create a session. *)
Definition draw_neutral (a : Action) : bool :=
  match a with
  | ADrawImage _ _ _ | AResolve _ | ACreateVideo _ _ => false
  | _ => true
  end.

(** [st'] differs from [st] by nothing that bears on drawing. *)
Definition steady (st st' : State) : Prop :=
  endeds st' = endeds st /\
  exists acts, log st' = log st ++ acts /\
               Forall (fun a => draw_neutral a = true) acts.

(** A frame is drawn for the session created last, and not after that
    session resolved. *)
Definition draw_check (a : Action) (pre : list Action) : Prop :=
  match a with
  | ADrawImage v _ _ => (v ∉ resolves pre) /\ length (created pre) = S v
  | _ => True
  end.

Definition Draw (st : State) : Prop :=
  (forall v, v ∈ resolves (log st) -> endeds st !! v = Some true) /\
  (forall v, (S v < length (endeds st))%nat -> endeds st !! v = Some true) /\
  preceded draw_check (log st) /\
  length (created (log st)) = length (endeds st).

(** ** The chunks of a run *)

(** The events that follow the settlement of [audioCtx.resume()]. *)
Fixpoint resumed (evs : list Event) : list Event :=
  match evs with
  | [] => []
  | EvResume _ :: rest => rest
  | _ :: rest => resumed rest
  end.

(** The chunks the recorder of a run emitted in the course of [evs]: the
    recorder exists once [startProcessing] is past its
    [await audioCtx.resume()], which it only has on a runtime whose audio
    context starts suspended. *)
Definition emitted (rt : Runtime) (evs : list Event) : list Blob :=
  datas (if audioSuspended rt then resumed evs else evs).

Definition is_break (a : Action) : bool :=
  match a with ABreak _ => true | _ => false end.

Definition is_cancel (e : Event) : bool :=
  match e with EvCancel => true | _ => false end.

(** A run that nobody cancelled: it never left its loop at the cancellation
    check, and its flag is set until [startProcessing] returns. *)
Definition Uncancelled (st : State) : Prop :=
  Forall (fun a => is_break a = false) (log st) /\
  (pc st = PcReturned \/ processingRef st = true).

(** * Verification *)

(** ** Lists *)

Section list_facts.
Context {A B : Type}.
Implicit Types (l : list A) (i v : nat).

(** A field update that a view does not read. *)
Lemma fmap_alter_keep (g : A -> B) (f : A -> A) i l :
  (forall x, g (f x) = g x) -> g <$> alter f i l = g <$> l.
Proof.
  intros Hk. revert i. induction l as [|a l IH]; intros [|i]; simpl; try done.
  - by rewrite Hk.
  - f_equal. apply IH.
Qed.

(** A field update that sets what the view reads. *)
Lemma fmap_alter_set (g : A -> B) (f : A -> A) (b : B) i l :
  (forall x, g (f x) = b) -> g <$> alter f i l = alter (fun _ => b) i (g <$> l).
Proof.
  intros Hk. revert i. induction l as [|a l IH]; intros [|i]; simpl; try done.
  - by rewrite Hk.
  - f_equal. apply IH.
Qed.

Lemma alter_replicate_last (a b c : A) i :
  alter (fun _ => c) i (replicate i a ++ [b]) = replicate i a ++ [c].
Proof. induction i as [|i IH]; simpl; [done | by f_equal]. Qed.

Lemma lookup_replicate_last (a b x : A) i v :
  (replicate i a ++ [b]) !! v = Some x -> x <> a -> v = i /\ x = b.
Proof.
  revert v. induction i as [|i IH]; intros [|v]; simpl; intros Hl Hne.
  - by inversion Hl.
  - done.
  - by inversion Hl.
  - destruct (IH v Hl Hne) as [-> ->]. done.
Qed.

End list_facts.

Lemma quiet_refl st : quiet st st.
Proof.
  constructor; try done. exists []. by rewrite app_nil_r.
Qed.

Lemma quiet_trans st1 st2 st3 : quiet st1 st2 -> quiet st2 st3 -> quiet st1 st3.
Proof.
  intros [] []. constructor; try congruence.
  destruct q_log0 as (a1 & E1 & F1), q_log1 as (a2 & E2 & F2).
  exists (a1 ++ a2). rewrite E2, E1, app_assoc. split; [done|].
  by apply Forall_app.
Qed.

Lemma quiet_emit acts st :
  Forall (fun a => quiet_action a = true) acts -> quiet st (emit acts st).
Proof. intros Hq. constructor; try done. by exists acts. Qed.

Lemma quiet_update_video v f st :
  (forall x, settled (f x) = settled x) ->
  (forall x, vfile (f x) = vfile x) ->
  (forall x, hasMetadata (f x) = hasMetadata x) ->
  quiet st (update_video v f st).
Proof.
  intros H1 H2 H3. constructor; try done.
  - unfold settles; simpl. by apply fmap_alter_keep.
  - unfold vfiles; simpl. by apply fmap_alter_keep.
  - unfold metas; simpl. by apply fmap_alter_keep.
  - exists []. by rewrite app_nil_r.
Qed.

Lemma quiet_nextRequestId n st : quiet st (set_nextRequestId n st).
Proof. constructor; try done. exists []. by rewrite app_nil_r. Qed.

Ltac quiet_chain :=
  repeat first
    [ apply quiet_refl
    | (eapply quiet_trans; [| apply quiet_emit; repeat constructor ])
    | (eapply quiet_trans; [| apply quiet_nextRequestId ])
    | (eapply quiet_trans; [| apply quiet_update_video; intros []; reflexivity ]) ].

Lemma cleanup_quiet v st : quiet st (cleanup v st).
Proof.
  unfold cleanup. destruct (videos st !! v) as [vid|]; [|apply quiet_refl].
  destruct (sourceNode vid); quiet_chain.
Qed.

Lemma cleanup_log v st vid :
  videos st !! v = Some vid ->
  log (cleanup v st) = log st ++ cleanup_actions v (has_source vid).
Proof.
  intros Hv. unfold cleanup, cleanup_actions, has_source. rewrite Hv.
  destruct (sourceNode vid); simpl; by rewrite <- !app_assoc.
Qed.

Lemma drawFrame_quiet v st : quiet st (drawFrame v st).
Proof.
  unfold drawFrame. destruct (videos st !! v) as [vid|]; [|apply quiet_refl].
  destruct (paused vid || ended vid); quiet_chain.
Qed.

Lemma oncanplay_quiet v audio st : quiet st (oncanplay_handler v audio st).
Proof.
  unfold oncanplay_handler.
  destruct (videos st !! v) as [vid|]; [|apply quiet_refl].
  destruct (oncanplay vid); [|apply quiet_refl].
  destruct audio; quiet_chain.
Qed.

Lemma animation_frame_quiet v st : quiet st (animation_frame v st).
Proof.
  unfold animation_frame.
  destruct (videos st !! v) as [vid|]; [|apply quiet_refl].
  destruct (drawRequestId vid); [|apply quiet_refl].
  eapply quiet_trans; [|apply drawFrame_quiet]. quiet_chain.
Qed.

Lemma lookup_update_video v f st vid :
  videos st !! v = Some vid -> videos (update_video v f st) !! v = Some (f vid).
Proof. intros Hv. simpl. by rewrite list_lookup_alter_eq, Hv. Qed.

Lemma step_shape rt st e : Shape rt st e (step rt st e).
Proof.
  destruct e as [res|v|v audio|v res|v|v|v|d| |]; simpl.
  - destruct (pc st) eqn:Hpc; try (apply ShQuiet, quiet_refl).
    destruct res; [by apply ShResumeFailed | by apply ShResumed].
  - apply ShMetadata.
  - apply ShQuiet, oncanplay_quiet.
  - unfold play_settled. destruct (videos st !! v) as [vid|] eqn:Hv;
      [|apply ShQuiet, quiet_refl].
    destruct (playPending vid); [|apply ShQuiet, quiet_refl].
    destruct res as [err|].
    + eapply ShPlayFailed; [exact Hv | |].
      * eapply quiet_trans; [|apply cleanup_quiet]. quiet_chain.
      * by erewrite cleanup_log by (by apply lookup_update_video).
    + apply ShQuiet. eapply quiet_trans; [|apply drawFrame_quiet]. quiet_chain.
  - apply ShQuiet, animation_frame_quiet.
  - unfold onended. destruct (videos st !! v) as [vid|] eqn:Hv;
      [|apply ShQuiet, quiet_refl].
    eapply ShEnded; [exact Hv | |].
    + eapply quiet_trans; [|apply cleanup_quiet]. quiet_chain.
    + by erewrite cleanup_log by (by apply lookup_update_video).
  - unfold onerror. destruct (videos st !! v) as [vid|] eqn:Hv;
      [|apply ShQuiet, quiet_refl].
    eapply ShError; [exact Hv | apply cleanup_quiet | by apply cleanup_log].
  - apply ShData.
  - destruct (stopQueued st) eqn:Hq; [by apply ShStop | apply ShQuiet, quiet_refl].
  - apply ShCancel.
Qed.

Lemma Inv_control st st' : control st' = control st -> Inv st -> Inv st'.
Proof.
  unfold control, Inv. intros [= E1 E2 E3 E4 E5 E6].
  by rewrite E1, E2, E3, E4, E5, E6.
Qed.

Lemma control_onloadedmetadata v st :
  control (onloadedmetadata v st) = control st.
Proof.
  unfold onloadedmetadata. destruct (videos st !! v); [|done].
  assert (Hs : settled <$> alter (with_hasMetadata true) v (videos st)
               = settles st) by by apply fmap_alter_keep.
  assert (Hf : vfile <$> alter (with_hasMetadata true) v (videos st)
               = vfiles st) by by apply fmap_alter_keep.
  destruct (negb _); unfold control, settles, vfiles; simpl;
    by rewrite Hs, Hf.
Qed.

Lemma control_ondataavailable d st :
  control (ondataavailable d st) = control st.
Proof.
  unfold ondataavailable. destruct (mediaRecorder st); [|done].
  by destruct (0 <? size d)%nat.
Qed.

Lemma Inv_quiet st st' : quiet st st' -> Inv st -> Inv st'.
Proof.
  intros [] [Hf Hp]. split; [congruence|].
  rewrite q_pc0, q_settles0, q_mediaRecorder0, q_stopQueued0. exact Hp.
Qed.

Lemma settles_resolved v st :
  settles (resolved v st) = alter (fun _ => Some None) v (settles st).
Proof. unfold settles; simpl. by apply fmap_alter_set. Qed.

Lemma settles_rejected v e st :
  settles (rejected v e st) = alter (fun _ => Some (Some e)) v (settles st).
Proof. unfold settles; simpl. by apply fmap_alter_set. Qed.

Lemma vfiles_resolved v st : vfiles (resolved v st) = vfiles st.
Proof. unfold vfiles; simpl. by apply fmap_alter_keep. Qed.

Lemma vfiles_rejected v e st : vfiles (rejected v e st) = vfiles st.
Proof. unfold vfiles; simpl. by apply fmap_alter_keep. Qed.

Lemma metas_resolved v st : metas (resolved v st) = metas st.
Proof. unfold metas; simpl. by apply fmap_alter_keep. Qed.

Lemma metas_rejected v e st : metas (rejected v e st) = metas st.
Proof. unfold metas; simpl. by apply fmap_alter_keep. Qed.

(** Under the invariant the only pending promise is the awaited one. *)

Lemma pending_awaited st v vid :
  Inv st -> videos st !! v = Some vid -> settled vid = None ->
  pc st = PcClip v /\ settles st = replicate v (Some None) ++ [None].
Proof.
  intros [_ Hp] Hv Hs.
  assert (Hl : settles st !! v = Some None).
  { unfold settles. by rewrite list_lookup_fmap, Hv, <- Hs. }
  destruct (pc st) as [| |i|].
  - destruct Hp as [E _]. by rewrite E in Hl.
  - destruct Hp as [E _]. by rewrite E in Hl.
  - destruct Hp as [E _]. rewrite E in Hl.
    apply lookup_replicate_last in Hl as [-> _]; done.
  - exfalso. apply Hp. eapply list_elem_of_lookup_2, Hl.
Qed.

Lemma resolve_cases v st :
  Inv st ->
  resolve v st = st \/
  (pc st = PcClip v /\ settles st = replicate v (Some None) ++ [None] /\
   resolve v st = loop_from (S v) (resolved v st)).
Proof.
  intros HI. unfold resolve.
  destruct (videos st !! v) as [vid|] eqn:Hv; [|by left].
  destruct (settled vid) eqn:Hs; [by left|]. right.
  destruct (pending_awaited st v vid HI Hv Hs) as [Hpc E].
  repeat split; try done. simpl. rewrite Hpc. by rewrite Nat.eqb_refl.
Qed.

Lemma reject_cases v e st :
  Inv st ->
  reject v e st = st \/
  (pc st = PcClip v /\ settles st = replicate v (Some None) ++ [None] /\
   reject v e st = catch_block e (rejected v e st)).
Proof.
  intros HI. unfold reject.
  destruct (videos st !! v) as [vid|] eqn:Hv; [|by left].
  destruct (settled vid) eqn:Hs; [by left|]. right.
  destruct (pending_awaited st v vid HI Hv Hs) as [Hpc E].
  repeat split; try done. simpl. rewrite Hpc. by rewrite Nat.eqb_refl.
Qed.

Lemma prefix_snoc_lookup {A} (l fs : list A) (f : A) :
  l `prefix_of` fs -> fs !! length l = Some f -> (l ++ [f]) `prefix_of` fs.
Proof.
  intros [k ->] Hl. rewrite lookup_app_r in Hl by lia.
  rewrite Nat.sub_diag in Hl. destruct k as [|x k]; simplify_eq/=.
  exists k. by rewrite <- app_assoc.
Qed.

Lemma not_elem_of_replicate_snoc {A} (a b x : A) (n : nat) :
  x <> a -> x <> b -> x ∉ replicate n a ++ [b].
Proof.
  intros Ha Hb [H|H]%elem_of_app.
  - by apply elem_of_replicate in H as [? _].
  - by apply list_elem_of_singleton in H.
Qed.

Lemma length_settles st : length (settles st) = length (videos st).
Proof. unfold settles. by rewrite length_fmap. Qed.

Lemma length_vfiles st : length (vfiles st) = length (videos st).
Proof. unfold vfiles. by rewrite length_fmap. Qed.

Lemma Inv_after_loop st :
  vfiles st `prefix_of` files st -> None ∉ settles st -> Inv (after_loop st).
Proof.
  intros Hf Hn. unfold after_loop, recorder_stop.
  destruct (mediaRecorder st) as [r|]; [destruct (recState r)|]; by split.
Qed.

Lemma Inv_catch_block e st :
  vfiles st `prefix_of` files st -> None ∉ settles st -> Inv (catch_block e st).
Proof.
  intros Hf Hn. unfold catch_block, recorder_stop; simpl.
  destruct (mediaRecorder st) as [r|]; [destruct (recState r)|]; by split.
Qed.

(** The loop entered with [j] sessions created, all of them resolved. *)

Lemma Inv_loop_from j st :
  vfiles st `prefix_of` files st ->
  settles st = replicate j (Some None) ->
  (exists r, mediaRecorder st = Some r /\ recState r = recording) ->
  stopQueued st = false ->
  Inv (loop_from j st).
Proof.
  intros Hf Hs Hr Hq.
  assert (Hn : None ∉ settles st).
  { rewrite Hs. by intros [? _]%elem_of_replicate. }
  assert (Hlen : length (vfiles st) = j).
  { by rewrite length_vfiles, <- length_settles, Hs, length_replicate. }
  unfold loop_from. destruct (files st !! j) as [file|] eqn:Hj.
  - destruct (processingRef st); simpl.
    + split; simpl.
      * unfold vfiles; simpl. rewrite fmap_app. simpl.
        apply prefix_snoc_lookup; [done|]. fold (vfiles st). by rewrite Hlen.
      * unfold settles; simpl. rewrite fmap_app. fold (settles st).
        by rewrite Hs.
    + by apply Inv_after_loop.
  - by apply Inv_after_loop.
Qed.

Lemma Inv_step rt st e : Inv st -> Inv (step rt st e).
Proof.
  intros HI. destruct (step_shape rt st e)
    as [e st' Hq|v vid st1 Hv Hq Hl|v vid st1 Hv Hq Hl|v vid err st1 Hv Hq Hl
       |v|Hpc|err Hpc|d|Hsq|].
  - by eapply Inv_quiet.
  - apply (Inv_quiet _ _ Hq) in HI.
    destruct (resolve_cases v st1 HI) as [->|(Hpc & E & ->)]; [done|].
    destruct HI as [Hf Hp]. rewrite Hpc in Hp. destruct Hp as (_ & Hr & Hsq).
    apply Inv_loop_from; try done.
    + by rewrite vfiles_resolved.
    + rewrite settles_resolved, E, alter_replicate_last.
      by rewrite <- replicate_S_end.
  - apply (Inv_quiet _ _ Hq) in HI.
    destruct (reject_cases v (ErrString ("Error playing file " +:+ name (vfile vid)))
                st1 HI) as [->|(Hpc & E & ->)]; [done|].
    destruct HI as [Hf Hp]. apply Inv_catch_block.
    + by rewrite vfiles_rejected.
    + rewrite settles_rejected, E, alter_replicate_last.
      by apply not_elem_of_replicate_snoc.
  - apply (Inv_quiet _ _ Hq) in HI.
    destruct (reject_cases v err st1 HI) as [->|(Hpc & E & ->)]; [done|].
    destruct HI as [Hf Hp]. apply Inv_catch_block.
    + by rewrite vfiles_rejected.
    + rewrite settles_rejected, E, alter_replicate_last.
      by apply not_elem_of_replicate_snoc.
  - eapply Inv_control, HI. apply control_onloadedmetadata.
  - destruct HI as [Hf Hp]. rewrite Hpc in Hp. destruct Hp as (Hs & Hr & Hsq).
    unfold after_resume. destruct (negb (context2d rt)).
    + apply Inv_catch_block; [done|]. change (None ∉ settles st).
      rewrite Hs. by intros ?%elem_of_nil.
    + apply Inv_loop_from; try done. by eexists.
  - destruct HI as [Hf Hp]. rewrite Hpc in Hp. destruct Hp as (Hs & Hr & Hsq).
    apply Inv_catch_block; [done|]. rewrite Hs. by intros ?%elem_of_nil.
  - eapply Inv_control, HI. apply control_ondataavailable.
  - destruct HI as [Hf Hp].
    assert (Hpc : pc st = PcReturned).
    { destruct (pc st); try done; destruct Hp as (_ & _ & ?); congruence. }
    rewrite Hpc in Hp. unfold onstop; simpl.
    destruct (mediaRecorder st); [|split; simpl; [done | by rewrite Hpc]].
    destruct (audioContextRef st) as [[]|]; split; simpl; try done;
      by rewrite Hpc.
  - by eapply Inv_control, HI.
Qed.

Lemma Inv_selected fs : Inv (selected fs).
Proof. split; simpl; [apply prefix_nil | done]. Qed.

Lemma Inv_startProcessing rt st :
  Inv st -> pc st = PcIdle -> Inv (startProcessing rt st).
Proof.
  intros HI Hpc. unfold startProcessing.
  destruct (_ || _); [done|].
  destruct HI as [Hf Hp]. rewrite Hpc in Hp. destruct Hp as (Hs & Hr & Hq).
  destruct (getSupportedMimeType rt) as [queries mimeType].
  destruct (audioSuspended rt).
  - by split.
  - unfold after_resume. destruct (negb (context2d rt)).
    + apply Inv_catch_block; [done|]. change (None ∉ settles st).
      rewrite Hs. by intros ?%elem_of_nil.
    + apply Inv_loop_from; try done. by eexists.
Qed.

Lemma Inv_exec rt st evs : Inv st -> Inv (exec rt st evs).
Proof.
  revert st. induction evs as [|e evs IH]; intros st HI; [done|].
  simpl. by apply IH, Inv_step.
Qed.

Lemma Inv_run rt fs evs : Inv (run rt fs evs).
Proof. apply Inv_exec, Inv_startProcessing; [apply Inv_selected | done]. Qed.

Lemma exec_app rt st evs1 evs2 :
  exec rt st (evs1 ++ evs2) = exec rt (exec rt st evs1) evs2.
Proof. unfold exec. apply foldl_app. Qed.

(** ** Reasoning on the log *)

Lemma created_app l1 l2 : created (l1 ++ l2) = created l1 ++ created l2.
Proof. unfold created. apply omap_app. Qed.

Lemma created_plain acts :
  Forall (fun a => is_create a = false) acts -> created acts = [].
Proof.
  induction 1 as [|a acts Ha _ IH]; [done|].
  destruct a; try done; exact IH.
Qed.

Lemma neutral_running a : neutral_action a = true -> running_action a = true.
Proof. unfold neutral_action. by intros [? _]%andb_true_iff. Qed.

Lemma neutral_plain a : neutral_action a = true -> is_create a = false.
Proof.
  unfold neutral_action. intros [_ H]%andb_true_iff. by apply negb_true_iff.
Qed.

Lemma quiet_neutral a : quiet_action a = true -> neutral_action a = true.
Proof. by destruct a. Qed.

Lemma running_clean a : running_action a = true -> is_error_status a = false.
Proof. destruct a; simpl; try done. by intros ?%negb_true_iff. Qed.

Lemma running_log_clean l :
  Forall (fun a => running_action a = true) l -> clean l.
Proof. intros H. eapply Forall_impl; [exact H|]. intros a. apply running_clean. Qed.

Lemma running_log_no a l :
  Forall (fun a => running_action a = true) l -> running_action a = false ->
  a ∉ l.
Proof.
  intros Hl Ha Hin. rewrite Forall_forall in Hl. apply Hl in Hin. congruence.
Qed.

Lemma elem_of_app_other {A} (a : A) (l acts : list A) (p : A -> bool) :
  a ∈ l ++ acts -> p a = false -> Forall (fun x => p x = true) acts -> a ∈ l.
Proof.
  intros [H|H]%elem_of_app Ha Hacts; [done|].
  rewrite Forall_forall in Hacts. apply Hacts in H. congruence.
Qed.

Lemma start_check_plain fs a pre : is_create a = false -> start_check fs a pre.
Proof. by destruct a. Qed.

Lemma app_eq_cut {A} (l acts pre post : list A) (x : A) :
  l ++ acts = pre ++ x :: post ->
  (exists post', l = pre ++ x :: post') \/
  (exists pre', pre = l ++ pre' /\ acts = pre' ++ x :: post).
Proof.
  revert pre. induction l as [|y l IH]; intros pre E; simpl in *.
  - right. by exists pre.
  - destruct pre as [|z pre]; simplify_eq/=.
    + left. by exists l.
    + destruct (IH _ H0) as [[post' ->]|(pre' & -> & ->)].
      * left. by exists post'.
      * right. by exists pre'.
Qed.

Lemma preceded_app check l acts :
  preceded check l ->
  (forall pre a post, acts = pre ++ a :: post -> check a (l ++ pre)) ->
  preceded check (l ++ acts).
Proof.
  intros Hl Hacts pre a post E.
  apply app_eq_cut in E as [[post' ->]|(pre' & -> & ->)].
  - by eapply Hl.
  - by eapply Hacts.
Qed.

Lemma preceded_snoc check l a :
  preceded check l -> check a l -> preceded check (l ++ [a]).
Proof.
  intros Hl Ha. apply preceded_app; [done|].
  intros [|? pre] b post E; simplify_eq/=.
  - by rewrite app_nil_r.
  - by destruct pre.
Qed.

Lemma preceded_app_plain fs l acts :
  preceded (start_check fs) l ->
  Forall (fun a => is_create a = false) acts ->
  preceded (start_check fs) (l ++ acts).
Proof.
  intros Hl Hacts. apply preceded_app; [done|].
  intros pre a post ->. apply start_check_plain.
  rewrite Forall_app, Forall_cons in Hacts. tauto.
Qed.

Lemma preceded_nil check : preceded check [].
Proof. intros [|] ? ? ?; simplify_eq/=. Qed.

(** ** The history invariant *)

Lemma Hist_running fs st :
  files st = fs ->
  created (log st) = imap (fun i f => (i, name f)) (vfiles st) ->
  preceded (start_check fs) (log st) ->
  pc st <> PcReturned ->
  Forall (fun a => running_action a = true) (log st) ->
  Hist fs st.
Proof.
  intros Hf Hc Hp Hpc Hr. constructor; try done.
  - intros H. by apply (running_log_no _ _ Hr) in H.
  - intros j H. by apply (running_log_no _ _ Hr) in H.
  - intros v e H. by apply (running_log_no _ _ Hr) in H.
Qed.

Lemma Hist_return fs st l acts :
  files st = fs ->
  created (log st) = imap (fun i f => (i, name f)) (vfiles st) ->
  preceded (start_check fs) (log st) ->
  log st = l ++ acts ->
  Forall (fun a => running_action a = true) l ->
  pc st = PcReturned ->
  (ARecorderStop ∈ acts -> is_Some (mediaRecorder st) /\ stopQueued st = true) ->
  (forall j, ABreak j ∈ acts -> ARecorderStop ∈ acts /\ clean acts) ->
  (forall v e, AReject v e ∈ acts -> ARecorderStop ∈ acts) ->
  (forall k, settles st = replicate (S k) (Some None) ->
     clean acts /\ ARecorderStop ∈ acts /\
     (is_Some (files st !! S k) -> ABreak (S k) ∈ acts)) ->
  Hist fs st.
Proof.
  intros Hf Hc Hp El Hr Hpc Hstop Hbreak Hreject Hres.
  assert (Hno : forall a, running_action a = false -> a ∈ log st -> a ∈ acts).
  { intros a Ha. rewrite El. intros [H|H]%elem_of_app; [|done].
    by apply (running_log_no _ _ Hr) in H. }
  constructor; try done.
  - intros H. apply Hno, Hstop in H as [? ?]; [|done]. by split; [|left].
  - intros j H. apply Hno, Hbreak in H as [? ?]; [|done].
    rewrite El. split; [apply elem_of_app; by right|].
    apply Forall_app. split; [by apply running_log_clean | done].
  - intros v e H. apply Hno, Hreject in H; [|done].
    rewrite El. apply elem_of_app; by right.
  - intros k _ Hk. destruct (Hres k Hk) as (? & ? & Hb). rewrite El.
    split; [|split].
    + apply Forall_app. split; [by apply running_log_clean | done].
    + apply elem_of_app; by right.
    + intros Hs. apply elem_of_app; right; by apply Hb.
Qed.

(** Extending the log by actions that concern neither the sessions' order
    nor the way the run ends. *)
Lemma Hist_neutral fs st st' acts :
  Hist fs st ->
  files st' = files st -> vfiles st' = vfiles st -> settles st' = settles st ->
  pc st' = pc st -> mediaRecorder st' = mediaRecorder st ->
  stopQueued st' = stopQueued st -> status st' = status st ->
  downloadUrl st' = downloadUrl st ->
  log st' = log st ++ acts ->
  Forall (fun a => neutral_action a = true) acts ->
  Hist fs st'.
Proof.
  intros [] E1 E2 E3 E4 E5 E6 E7 E8 El Hn.
  assert (Hr : Forall (fun a => running_action a = true) acts).
  { eapply Forall_impl; [exact Hn|]. intros a. apply neutral_running. }
  assert (Hp : Forall (fun a => is_create a = false) acts).
  { eapply Forall_impl; [exact Hn|]. intros a. apply neutral_plain. }
  assert (Hno : forall a, running_action a = false -> a ∈ log st' -> a ∈ log st).
  { intros a Ha. rewrite El. intros H.
    by apply (elem_of_app_other _ _ _ running_action) in H. }
  assert (Hcl : clean (log st) -> clean (log st')).
  { intros H. rewrite El. apply Forall_app. split; [done|].
    by apply running_log_clean. }
  constructor.
  - congruence.
  - rewrite El, created_app, (created_plain acts) by done.
    by rewrite app_nil_r, E2.
  - rewrite El. by apply preceded_app_plain.
  - rewrite E4, El. intros H. apply Forall_app. split; [by apply h_running0 | done].
  - rewrite E5, E6, E7, E8. intros H. by apply h_stop0, Hno.
  - intros j H. destruct (h_break0 j) as [? ?]; [by apply Hno|].
    split; [|by apply Hcl]. rewrite El. apply elem_of_app; by left.
  - intros v e H. rewrite El. apply elem_of_app; left.
    eapply h_reject0. by apply Hno.
  - rewrite E4, E3, E1. intros k Hpc Hk.
    destruct (h_resolved0 k Hpc Hk) as (? & ? & Hb).
    split; [by apply Hcl|]. rewrite El.
    split; [apply elem_of_app; by left|].
    intros Hs. apply elem_of_app; left; by apply Hb.
Qed.

Lemma Hist_quiet fs st st' : quiet st st' -> Hist fs st -> Hist fs st'.
Proof.
  intros [] HH. destruct q_log0 as (acts & El & Hq).
  eapply Hist_neutral; try done.
  eapply Forall_impl; [exact Hq|]. intros a. apply quiet_neutral.
Qed.

Lemma imap_snoc_name (l : list File) (f : File) :
  imap (fun i f => (i, name f)) (l ++ [f])
  = imap (fun i f => (i, name f)) l ++ [(length l, name f)].
Proof. rewrite imap_app. simpl. by rewrite Nat.add_0_r. Qed.

Lemma replicate_inj_length {A} (a : A) (n m : nat) :
  replicate n a = replicate m a -> n = m.
Proof. intros H. apply (f_equal length) in H. by rewrite !length_replicate in H. Qed.

Ltac mem :=
  clear; intros;
  repeat rewrite ?elem_of_app, ?elem_of_cons, ?elem_of_nil in *;
  intuition (try discriminate; try congruence).

(** The loop entered with [j] sessions created and resolved, the log ending
    with the teardown and the resolution of the last of them. *)
Lemma Hist_loop_from fs j st :
  Hist fs st -> pc st <> PcReturned ->
  settles st = replicate j (Some None) ->
  (exists r, mediaRecorder st = Some r /\ recState r = recording) ->
  match j with
  | O => True
  | S v => exists p b, log st = p ++ cleanup_actions v b ++ [AResolve v]
  end ->
  Hist fs (loop_from j st).
Proof.
  intros [] Hpc Hs (r & Hr & Hrec) Hlast.
  pose proof (h_running0 Hpc) as Hrun.
  assert (Hlen : length (vfiles st) = j).
  { by rewrite length_vfiles, <- length_settles, Hs, length_replicate. }
  unfold loop_from. destruct (files st !! j) as [file|] eqn:Hj.
  - destruct (processingRef st); simpl.
    + apply Hist_running; simpl; try done.
      * rewrite !created_app, h_created0. unfold vfiles; simpl.
        rewrite fmap_app. simpl. fold (vfiles st).
        by rewrite imap_snoc_name, Hlen, app_nil_r.
      * apply preceded_snoc; [apply preceded_snoc; [done | exact I]|].
        simpl. exists file, (log st). rewrite <- h_files0.
        by repeat split.
      * by repeat (apply Forall_app; split; [|by repeat constructor]).
    + unfold after_loop, recorder_stop; simpl. rewrite Hr, Hrec.
      eapply (Hist_return fs _ (log st) [ABreak j; ARecorderStop]).
      * done.
      * simpl. by rewrite !created_app, !app_nil_r.
      * simpl. repeat (apply preceded_snoc; [|exact I]); done.
      * simpl. by rewrite <- app_assoc.
      * done.
      * done.
      * intros _. split; [by eexists | done].
      * intros j' _. split; [mem | by repeat constructor].
      * mem.
      * intros k Hk. change (settles st = replicate (S k) (Some None)) in Hk.
        rewrite Hs in Hk. apply replicate_inj_length in Hk as ->.
        split; [by repeat constructor|]. split; mem.
  - unfold after_loop, recorder_stop; simpl. rewrite Hr, Hrec.
    eapply (Hist_return fs _ (log st) [ARecorderStop]).
    + done.
    + simpl. by rewrite !created_app, !app_nil_r.
    + simpl. repeat (apply preceded_snoc; [|exact I]); done.
    + done.
    + done.
    + done.
    + intros _. split; [by eexists | done].
    + mem.
    + mem.
    + intros k Hk. change (settles st = replicate (S k) (Some None)) in Hk.
      rewrite Hs in Hk. apply replicate_inj_length in Hk as ->.
      split; [by repeat constructor|]. split; [mem|].
      change (is_Some (files st !! S k) -> ABreak (S k) ∈ [ARecorderStop]).
      rewrite Hj. by intros [? ?].
Qed.

Lemma Hist_catch_block fs e st l r :
  files st = fs ->
  created (log st) = imap (fun i f => (i, name f)) (vfiles st) ->
  preceded (start_check fs) (log st) ->
  log st = l ++ r ->
  Forall (fun a => running_action a = true) l ->
  (r = [] /\ mediaRecorder st = None) \/
  (exists v e' rec, r = [AReject v e'] /\ mediaRecorder st = Some rec /\
                    recState rec = recording) ->
  (forall k, settles st <> replicate (S k) (Some None)) ->
  Hist fs (catch_block e st).
Proof.
  intros Hf Hc Hp El Hl Hr Hs.
  set (err := {| state := error; message := "Error: " +:+ message_or_unknown e;
                 progress := 0 |}).
  unfold catch_block, recorder_stop; simpl.
  destruct Hr as [[-> Hr]|(v & e' & rec & -> & Hr & Hrec)]; rewrite Hr.
  - rewrite app_nil_r in El.
    eapply (Hist_return fs _ l [AConsoleError e; ASetStatus err]).
    + done.
    + simpl. by rewrite !created_app, !app_nil_r.
    + simpl. repeat (apply preceded_snoc; [|exact I]); done.
    + simpl. by rewrite El, <- app_assoc.
    + done.
    + done.
    + mem.
    + mem.
    + mem.
    + intros k Hk. by apply Hs in Hk.
  - rewrite Hrec.
    eapply (Hist_return fs _ l
              [AReject v e'; AConsoleError e; ASetStatus err; ARecorderStop]).
    + done.
    + simpl. by rewrite !created_app, !app_nil_r.
    + simpl. repeat (apply preceded_snoc; [|exact I]); done.
    + simpl. by rewrite El, <- !app_assoc.
    + done.
    + done.
    + intros _. split; [by eexists | done].
    + mem.
    + mem.
    + intros k Hk. by apply Hs in Hk.
Qed.

Lemma Hist_onstop fs st :
  Hist fs st -> pc st = PcReturned ->
  Hist fs (onstop (set_stopQueued false st)).
Proof.
  intros HH Hpc. pose proof HH as [].
  unfold onstop; simpl. destruct (mediaRecorder st) as [r|] eqn:Hr.
  - set (blob := newBlob (chunks st) (recMimeType r)).
    assert (Hgen : forall st' acts,
      files st' = files st -> vfiles st' = vfiles st ->
      settles st' = settles st -> pc st' = pc st ->
      status st' = completed_status -> is_Some (downloadUrl st') ->
      is_Some (mediaRecorder st') ->
      log st' = log st ++ acts ->
      Forall (fun a => neutral_action a = true) acts ->
      Hist fs st').
    { intros st' acts E1 E2 E3 E4 E5 E6 E7 El Hn.
      assert (Hrun : Forall (fun a => running_action a = true) acts).
      { eapply Forall_impl; [exact Hn|]. intros a. apply neutral_running. }
      assert (Hpl : Forall (fun a => is_create a = false) acts).
      { eapply Forall_impl; [exact Hn|]. intros a. apply neutral_plain. }
      assert (Hno : forall a, running_action a = false -> a ∈ log st' -> a ∈ log st).
      { intros a Ha. rewrite El. intros H.
        by apply (elem_of_app_other _ _ _ running_action) in H. }
      assert (Hcl : clean (log st) -> clean (log st')).
      { intros H. rewrite El. apply Forall_app. split; [done|].
        by apply running_log_clean. }
      constructor.
      - congruence.
      - rewrite El, created_app, (created_plain acts) by done.
        by rewrite app_nil_r, E2.
      - rewrite El. by apply preceded_app_plain.
      - by rewrite E4, Hpc.
      - intros _. split; [done|]. by right.
      - intros j H. destruct (h_break0 j) as [? ?]; [by apply Hno|].
        split; [|by apply Hcl]. rewrite El. apply elem_of_app; by left.
      - intros v e H. rewrite El. apply elem_of_app; left.
        eapply h_reject0. by apply Hno.
      - rewrite E4, E3, E1. intros k Hpc' Hk.
        destruct (h_resolved0 k Hpc' Hk) as (? & ? & Hb).
        split; [by apply Hcl|]. rewrite El.
        split; [apply elem_of_app; by left|].
        intros Hs. apply elem_of_app; left; by apply Hb. }
    destruct (audioContextRef st) as [[]|].
    + eapply (Hgen _ [ASetDownloadUrl blob; ASetStatus completed_status;
                      ACloseAudio]); try done;
        [simpl; by rewrite <- !app_assoc | by repeat constructor].
    + eapply (Hgen _ [ASetDownloadUrl blob; ASetStatus completed_status;
                      ACloseAudio]); try done;
        [simpl; by rewrite <- !app_assoc | by repeat constructor].
    + eapply (Hgen _ [ASetDownloadUrl blob; ASetStatus completed_status]);
        try done;
        [simpl; by rewrite <- !app_assoc | by repeat constructor].
    + eapply (Hgen _ [ASetDownloadUrl blob; ASetStatus completed_status]);
        try done;
        [simpl; by rewrite <- !app_assoc | by repeat constructor].
  - constructor; try done.
    intros H. apply h_stop0 in H as [[? ?] _]. congruence.
Qed.

Lemma settles_snoc_not_resolved (i k : nat) (e : JsError) :
  replicate i (Some None) ++ [Some (Some e)]
  <> replicate (S k) (Some (@None JsError)).
Proof.
  intros H.
  assert (Hin : Some (Some e) ∈ replicate (S k) (Some (@None JsError))).
  { rewrite <- H. apply elem_of_app. right. by apply list_elem_of_singleton. }
  by apply elem_of_replicate_inv in Hin.
Qed.

(** More of the same while the run is inside its [try] block. *)
Lemma Hist_more fs st st' acts :
  Hist fs st -> pc st <> PcReturned -> pc st' = pc st ->
  files st' = files st -> vfiles st' = vfiles st ->
  log st' = log st ++ acts ->
  Forall (fun a => neutral_action a = true) acts ->
  Hist fs st'.
Proof.
  intros [] Hpc E1 E2 E3 El Hn.
  apply Hist_running.
  - congruence.
  - rewrite El, created_app, (created_plain acts).
    + by rewrite app_nil_r, E3.
    + eapply Forall_impl; [exact Hn|]. intros a. apply neutral_plain.
  - rewrite El. apply preceded_app_plain; [done|].
    eapply Forall_impl; [exact Hn|]. intros a. apply neutral_plain.
  - congruence.
  - rewrite El. apply Forall_app. split; [by apply h_running0|].
    eapply Forall_impl; [exact Hn|]. intros a. apply neutral_running.
Qed.

Lemma Hist_rejected fs v e st :
  Inv st -> Hist fs st -> pc st = PcClip v ->
  settles st = replicate v (Some None) ++ [None] ->
  Hist fs (catch_block e (rejected v e st)).
Proof.
  intros [Hf Hp] [] Hpc E. rewrite Hpc in Hp. destruct Hp as (_ & Hr & Hsq).
  eapply (Hist_catch_block _ _ _ (log st) [AReject v e]); try done.
  - rewrite vfiles_rejected. simpl. by rewrite created_app, app_nil_r.
  - simpl. by apply preceded_snoc.
  - apply h_running0. by rewrite Hpc.
  - right. destruct Hr as (rec & ? & ?). by exists v, e, rec.
  - intros k. rewrite settles_rejected, E, alter_replicate_last.
    apply settles_snoc_not_resolved.
Qed.

Lemma onloadedmetadata_log v st :
  exists acts,
    log (onloadedmetadata v st) = log st ++ acts /\
    Forall (fun a => neutral_action a = true) acts /\
    status (onloadedmetadata v st) = status st /\
    downloadUrl (onloadedmetadata v st) = downloadUrl st.
Proof.
  unfold onloadedmetadata. destruct (videos st !! v) as [vid|].
  - destruct (negb _); simpl.
    + eexists. split; [done|]. by repeat constructor.
    + exists []. by rewrite app_nil_r.
  - exists []. by rewrite app_nil_r.
Qed.

(** [startProcessing] from the canvas set-up on: from the call itself or
    from the resumption of the audio context. *)
Lemma Hist_after_resume rt fs st :
  Inv st -> Hist fs st -> pc st = PcIdle \/ pc st = PcResume ->
  Hist fs (after_resume rt (set_audioContextRef (Some AudioRunning) st)).
Proof.
  intros [Hf Hp] HH Hpc.
  assert (Hrun : pc st <> PcReturned) by (destruct Hpc; congruence).
  assert (Hs : settles st = [] /\ mediaRecorder st = None).
  { destruct Hpc as [E|E]; rewrite E in Hp; tauto. }
  destruct Hs as [Hs Hr]. unfold after_resume.
  destruct (negb (context2d rt)).
  - destruct HH. eapply (Hist_catch_block _ _ _ (log st) []); try done.
    + by rewrite app_nil_r.
    + by apply h_running0.
    + by left.
    + intros k. change (settles st <> replicate (S k) (Some None)).
      by rewrite Hs.
  - apply Hist_loop_from; try done.
    + eapply (Hist_more _ st _ [ARecorderNew (finalMimeType st) 5000000;
                                ARecorderStart]); try done.
      * simpl. by rewrite <- app_assoc.
      * by repeat constructor.
    + by eexists.
Qed.

Lemma Hist_step rt fs st e : Inv st -> Hist fs st -> Hist fs (step rt st e).
Proof.
  intros HI HH. destruct (step_shape rt st e)
    as [e st' Hq|v vid st1 Hv Hq Hl|v vid st1 Hv Hq Hl|v vid err st1 Hv Hq Hl
       |v|Hpc|err Hpc|d|Hsq|].
  - by eapply Hist_quiet.
  - apply (Inv_quiet _ _ Hq) in HI. apply (Hist_quiet _ _ _ Hq) in HH.
    destruct (resolve_cases v st1 HI) as [->|(Hpc & E & ->)]; [done|].
    destruct HI as [Hf Hp]. rewrite Hpc in Hp. destruct Hp as (_ & Hr & Hsq).
    assert (Hrun : pc st1 <> PcReturned) by by rewrite Hpc.
    apply Hist_loop_from.
    + eapply (Hist_more _ st1 _ [AResolve v]); try done.
      * apply vfiles_resolved.
      * by repeat constructor.
    + done.
    + rewrite settles_resolved, E, alter_replicate_last.
      by rewrite <- replicate_S_end.
    + done.
    + exists (log st), (has_source vid). simpl. by rewrite Hl, <- app_assoc.
  - apply (Inv_quiet _ _ Hq) in HI. apply (Hist_quiet _ _ _ Hq) in HH.
    set (e' := ErrString ("Error playing file " +:+ name (vfile vid))).
    destruct (reject_cases v e' st1 HI) as [->|(Hpc & E & ->)]; [done|].
    by apply Hist_rejected.
  - apply (Inv_quiet _ _ Hq) in HI. apply (Hist_quiet _ _ _ Hq) in HH.
    destruct (reject_cases v err st1 HI) as [->|(Hpc & E & ->)]; [done|].
    by apply Hist_rejected.
  - destruct (onloadedmetadata_log v st) as (acts & El & Hn & Es & Ed).
    pose proof (control_onloadedmetadata v st) as [= E1 E2 E3 E4 E5 E6].
    by eapply Hist_neutral.
  - apply Hist_after_resume; [done | done | by right].
  - destruct HI as [Hf Hp]. rewrite Hpc in Hp. destruct Hp as (Hs & Hr & Hsq).
    destruct HH.
    eapply (Hist_catch_block _ _ _ (log st) []); try done.
    + by rewrite app_nil_r.
    + apply h_running0. by rewrite Hpc.
    + by left.
    + intros k. by rewrite Hs.
  - pose proof (control_ondataavailable d st) as [= E1 E2 E3 E4 E5 E6].
    eapply (Hist_neutral _ st _ []); try done.
    + unfold ondataavailable. destruct (mediaRecorder st); [|done].
      by destruct (0 <? size d)%nat.
    + unfold ondataavailable. destruct (mediaRecorder st); [|done].
      by destruct (0 <? size d)%nat.
    + rewrite app_nil_r. unfold ondataavailable.
      destruct (mediaRecorder st); [|done]. by destruct (0 <? size d)%nat.
  - apply Hist_onstop; [done|]. destruct HI as [_ Hp].
    destruct (pc st); try done; destruct Hp as (_ & _ & ?); congruence.
  - eapply (Hist_neutral _ st _ []); try done. simpl. by rewrite app_nil_r.
Qed.

Lemma Hist_startProcessing rt fs :
  Hist fs (startProcessing rt (selected fs)).
Proof.
  unfold startProcessing. destruct (_ || _) eqn:Hg.
  - by apply Hist_running; [| |apply preceded_nil| |].
  - simpl. destruct (getSupportedMimeType rt) as [queries mimeType] eqn:Hm.
    set (ini := {| state := processing;
                   message := "Initializing processing engine...";
                   progress := 0 |}).
    assert (Hq : Forall (fun a => neutral_action a = true) queries).
    { unfold getSupportedMimeType in Hm.
      repeat destruct (isTypeSupported rt _); simplify_eq; by repeat constructor. }
    assert (Hacts : Forall (fun a => neutral_action a = true)
              (ASetStatus ini :: queries
                 ++ [AConsoleLog ("Using format: " +:+ mimeType)])).
    { constructor; [done|]. apply Forall_app. split; [done|].
      by repeat constructor. }
    assert (Hgen : forall st', pc st' <> PcReturned -> files st' = fs ->
              vfiles st' = [] -> settles st' = [] -> mediaRecorder st' = None ->
              log st' = ASetStatus ini :: queries
                          ++ [AConsoleLog ("Using format: " +:+ mimeType)] ->
              Hist fs st').
    { intros st' E1 E2 E3 E4 E5 El. apply Hist_running; try done.
      - rewrite El, E3. by apply created_plain, (Forall_impl _ _ _ Hacts),
          neutral_plain.
      - rewrite El. apply (preceded_app_plain fs []); [apply preceded_nil|].
        eapply Forall_impl; [exact Hacts|]. intros a. apply neutral_plain.
      - rewrite El. eapply Forall_impl; [exact Hacts|]. intros a.
        apply neutral_running. }
    destruct (audioSuspended rt).
    + apply Hgen; try done.
    + apply Hist_after_resume;
        [split; [apply prefix_nil | done] | by apply Hgen | by left].
Qed.

Lemma Hist_exec rt fs st evs :
  Inv st -> Hist fs st -> Hist fs (exec rt st evs).
Proof.
  revert st. induction evs as [|e evs IH]; intros st HI HH; [done|].
  simpl. apply IH; [by apply Inv_step | by apply Hist_step].
Qed.

Lemma Hist_run rt fs evs : Hist fs (run rt fs evs).
Proof.
  apply Hist_exec; [|apply Hist_startProcessing].
  apply Inv_startProcessing; [apply Inv_selected | done].
Qed.

(** * The claims *)

(** ** Format negotiation *)

(** C5 (as the code has it): the negotiator asks the runtime about the
    combined codec string and, when that is refused, about the bare
    container, in that order and about nothing else: the fallback is never
    asked about.  It returns the first of the two reported supported and the
    fallback, untested, when neither is, whether or not the runtime supports
    the fallback; this is the format that testing the whole preference list
    and defaulting to the fallback returns, for every runtime, and there is
    no failure path. *)
Theorem C5_negotiation_first_supported_else_fallback (rt : Runtime) :
  snd (getSupportedMimeType rt) = negotiate_spec (isTypeSupported rt) /\
  snd (getSupportedMimeType rt) ∈ preference_list /\
  queried (fst (getSupportedMimeType rt))
  = (if isTypeSupported rt PREFERRED_FORMAT then [PREFERRED_FORMAT]
     else [PREFERRED_FORMAT; "video/mp4"]) /\
  (FALLBACK_FORMAT ∉ queried (fst (getSupportedMimeType rt))) /\
  (forall m b, AIsTypeSupported m b ∈ fst (getSupportedMimeType rt) ->
               b = isTypeSupported rt m /\
               (b = true -> snd (getSupportedMimeType rt) = m)) /\
  (isTypeSupported rt PREFERRED_FORMAT = false ->
   isTypeSupported rt "video/mp4" = false ->
   snd (getSupportedMimeType rt) = FALLBACK_FORMAT).
Proof.
  assert (Hab : FALLBACK_FORMAT <> PREFERRED_FORMAT) by (by vm_compute).
  assert (Hcb : FALLBACK_FORMAT <> "video/mp4") by (by vm_compute).
  unfold getSupportedMimeType, negotiate_spec, preference_list.
  simpl first_supported.
  destruct (isTypeSupported rt PREFERRED_FORMAT) eqn:Ha;
    [|destruct (isTypeSupported rt "video/mp4") eqn:Hb]; simpl.
  - repeat split; try done.
    + apply list_elem_of_here.
    + by intros ?%list_elem_of_singleton.
    + apply list_elem_of_singleton in H. by simplify_eq.
    + apply list_elem_of_singleton in H. by simplify_eq.
  - repeat split; try done.
    + apply list_elem_of_further, list_elem_of_here.
    + intros [?|?%list_elem_of_singleton]%elem_of_cons; done.
    + apply elem_of_cons in H as [H|H]; [by simplify_eq|].
      apply list_elem_of_singleton in H. by simplify_eq.
    + apply elem_of_cons in H as [H|H]; [by simplify_eq|].
      apply list_elem_of_singleton in H. by simplify_eq.
  - destruct (isTypeSupported rt FALLBACK_FORMAT); repeat split; try done;
      try (apply list_elem_of_further, list_elem_of_further, list_elem_of_here);
      try (intros [?|?%list_elem_of_singleton]%elem_of_cons; done);
      try (apply elem_of_cons in H as [H|H]; [by simplify_eq|];
           apply list_elem_of_singleton in H; by simplify_eq).
Qed.

Lemma C5_negotiation_first_supported_else_fallback_witness :
  let rt := {| isTypeSupported := fun m => String.eqb m FALLBACK_FORMAT;
               localeCompare := String.compare;
               canvasMounted := true; context2d := true;
               audioSuspended := false |} in
  isTypeSupported rt PREFERRED_FORMAT = false /\
  isTypeSupported rt "video/mp4" = false /\
  snd (getSupportedMimeType rt) = FALLBACK_FORMAT.
Proof.
  intros rt.
  assert (Ha : isTypeSupported rt PREFERRED_FORMAT = false) by reflexivity.
  assert (Hb : isTypeSupported rt "video/mp4" = false) by reflexivity.
  split; [exact Ha|]. split; [exact Hb|].
  destruct (C5_negotiation_first_supported_else_fallback rt)
    as (_ & _ & _ & _ & _ & H).
  exact (H Ha Hb).
Defined.

(** C5 as the specification words it fails: on a runtime that supports the
    fallback only, the fallback is returned, but the runtime was asked about
    the first two entries of the preference list only, not about the
    fallback. *)
Lemma C5_counterexample :
  let rt := {| isTypeSupported := fun m => String.eqb m FALLBACK_FORMAT;
               localeCompare := String.compare;
               canvasMounted := true; context2d := true;
               audioSuspended := false |} in
  snd (getSupportedMimeType rt) = FALLBACK_FORMAT /\
  queried (fst (getSupportedMimeType rt)) = [PREFERRED_FORMAT; "video/mp4"] /\
  queried (fst (getSupportedMimeType rt)) <> preference_list /\
  (FALLBACK_FORMAT ∉ queried (fst (getSupportedMimeType rt))).
Proof.
  simpl. split; [done|]. split; [done|]. split; [done|].
  intros [H|[H|H]%elem_of_cons]%elem_of_cons.
  - by vm_compute in H.
  - by vm_compute in H.
  - by apply elem_of_nil in H.
Qed.

(** ** The empty clip list *)

(** With no session, no recorder and nothing queued, an event changes
    nothing but the cancellation flag. *)
Lemma step_idle rt st e :
  pc st = PcIdle -> videos st = [] -> mediaRecorder st = None ->
  stopQueued st = false ->
  step rt st e = st \/ step rt st e = set_processingRef false st.
Proof.
  intros Hpc Hv Hr Hq.
  destruct e as [res|v|v audio|v res|v|v|v|d| |]; simpl;
    unfold onloadedmetadata, oncanplay_handler, play_settled, animation_frame,
      onended, onerror, ondataavailable;
    rewrite ?Hpc, ?Hv, ?Hr, ?Hq; simpl; auto.
Qed.

Lemma exec_selected_nil rt evs : exec rt (selected []) evs = selected [].
Proof.
  induction evs as [|e evs IH]; [done|]. simpl.
  destruct (step_idle rt (selected []) e) as [->| ->]; try done.
Qed.

Lemma filter_no_video (l : list File) :
  Forall (fun f => startsWith "video/" (type f) = false) l ->
  filter (fun f => startsWith "video/" (type f) = true) l = [].
Proof.
  induction 1 as [|f l Hf _ IH]; [done|].
  rewrite filter_cons_False; [done | congruence].
Qed.

(** C2 (as the code has it): called with an empty clip list,
    [startProcessing] returns at its guard and leaves the state as it is: no
    status is published, no recorder is created or started, and the events
    that follow change nothing.  The [error] status with a message about
    missing videos is published by [handleFolderSelect], when the selected
    folder has entries but none of them is a video. *)
Theorem C2_empty_list_returns_at_guard (rt : Runtime) :
  (forall st, files st = [] -> startProcessing rt st = st) /\
  (forall evs,
     let st := finish rt (run rt [] evs) in
     st = selected [] /\ status st = status mounted /\
     mediaRecorder st = None /\ log st = []) /\
  (forall fileList st,
     fileList <> [] ->
     Forall (fun f => startsWith "video/" (type f) = false) fileList ->
     handleFolderSelect rt fileList st
     = setStatus {| state := error;
                    message := "No video files found in the selected folder.";
                    progress := 0 |} st).
Proof.
  split; [|split].
  - intros st Hf. unfold startProcessing. by rewrite Hf.
  - intros evs. simpl. unfold run. change (startProcessing rt (selected []))
      with (selected []). by rewrite exec_selected_nil.
  - intros fileList st Hne Hall. unfold handleFolderSelect.
    destruct fileList as [|f fl]; [done|]. simpl Nat.eqb. cbv iota.
    by rewrite (filter_no_video (f :: fl)).
Qed.

Lemma C2_empty_list_returns_at_guard_witness :
  startProcessing sample_runtime mounted = mounted /\
  status (handleFolderSelect sample_runtime [notes_txt] mounted)
  = {| state := error;
       message := "No video files found in the selected folder.";
       progress := 0 |}.
Proof.
  destruct (C2_empty_list_returns_at_guard sample_runtime) as (H1 & _ & H3).
  split.
  - apply H1. reflexivity.
  - rewrite H3; [reflexivity | discriminate | repeat constructor].
Defined.

(** C2 as the specification words it fails: after [startProcessing] on an
    empty list the status is not an [error] one, and nothing was published. *)
Lemma C2_counterexample :
  let st := finish sample_runtime (run sample_runtime [] []) in
  state (status st) = idle /\ state (status st) <> error /\ log st = [].
Proof. repeat split. discriminate. Qed.

(** ** How a run ends *)

Lemma finish_spec rt st :
  finish rt st = if stopQueued st then onstop (set_stopQueued false st) else st.
Proof. unfold finish. simpl. by destruct (stopQueued st). Qed.

Lemma Inv_returned_of_queued st :
  Inv st -> stopQueued st = true -> pc st = PcReturned.
Proof.
  intros [_ Hp] Hq.
  destruct (pc st); try done; destruct Hp as (_ & _ & ?); congruence.
Qed.

Lemma stopQueued_onstop st : stopQueued (onstop st) = stopQueued st.
Proof.
  unfold onstop. destruct (mediaRecorder st); [|done].
  simpl. by destruct (audioContextRef st) as [[]|].
Qed.

Lemma log_onstop st : exists acts, log (onstop st) = log st ++ acts.
Proof.
  unfold onstop. destruct (mediaRecorder st); [|exists []; by rewrite app_nil_r].
  simpl. destruct (audioContextRef st) as [[]|]; simpl;
    rewrite <- ?app_assoc; by eexists.
Qed.

(** Once the recorder has been stopped, the run settles in [completed] with
    a download URL, whatever made it stop. *)
Lemma stopped_run_completes rt fs evs :
  ARecorderStop ∈ log (run rt fs evs) ->
  let st := finish rt (run rt fs evs) in
  Hist fs st /\ (forall a, a ∈ log (run rt fs evs) -> a ∈ log st) /\
  status st = completed_status /\ is_Some (downloadUrl st).
Proof.
  intros Hstop. pose proof (Hist_run rt fs evs) as HH.
  pose proof (Inv_run rt fs evs) as HI. simpl. rewrite finish_spec.
  destruct (stopQueued (run rt fs evs)) eqn:Hq.
  - pose proof (Hist_onstop fs _ HH (Inv_returned_of_queued _ HI Hq)) as HH'.
    destruct (log_onstop (set_stopQueued false (run rt fs evs))) as [acts El].
    assert (Hsub : forall a, a ∈ log (run rt fs evs) ->
                     a ∈ log (onstop (set_stopQueued false (run rt fs evs)))).
    { intros a Ha. rewrite El. apply elem_of_app. by left. }
    split; [done|]. split; [done|].
    destruct (h_stop _ _ HH' (Hsub _ Hstop)) as [_ [Hq'|?]]; [|done].
    by rewrite stopQueued_onstop in Hq'.
  - split; [done|]. split; [done|].
    destruct (h_stop _ _ HH Hstop) as [_ [?|?]]; [congruence | done].
Qed.

(** A run in which a session rejects settles in [completed] all the same:
    the [catch] clause stops the recorder, whose [onstop] handler publishes
    the [completed] status over the [error] one. *)
Lemma rejected_run_completes rt fs evs v e :
  AReject v e ∈ log (run rt fs evs) ->
  let st := finish rt (run rt fs evs) in
  status st = completed_status /\ is_Some (downloadUrl st).
Proof.
  intros Hr. apply (h_reject _ _ (Hist_run rt fs evs)) in Hr.
  by destruct (stopped_run_completes rt fs evs Hr) as (_ & _ & ? & ?).
Qed.

(** C1 (the code departs from it): the second of two clips fails after the
    first played to its end.  The [catch] clause publishes the [error]
    status and stops the recorder; the recorder's [onstop] handler then sets
    the download URL and publishes [completed], the state the run settles
    in. *)
Theorem C1_failed_session_settles_completed :
  let st := finish sample_runtime
              (run sample_runtime [clip_a; clip_b]
                 (plays 0 ++ [EvLoadedMetadata 1; EvError 1])) in
  status st = completed_status /\
  downloadUrl st = Some {| bytes := []; blobType := PREFERRED_FORMAT |} /\
  error_statuses (log st)
  = [{| state := error; message := "Error: Unknown error"; progress := 0 |}] /\
  AReject 1 (ErrString "Error playing file b.mp4") ∈ log st.
Proof.
  vm_compute. repeat split.
  repeat first [ apply list_elem_of_here | apply list_elem_of_further ].
Qed.

(** C3 (the code departs from it): the only clip fails to play.  The
    rejection carries a string naming the clip, but the [catch] clause reads
    the [message] property of what it caught, which a string does not have:
    the message published with the [error] status names neither the clip nor
    a cause. *)
Theorem C3_error_message_omits_clip_name :
  let st := run sample_runtime [clip_a] [EvError 0] in
  AReject 0 (ErrString "Error playing file a.mp4") ∈ log st /\
  error_statuses (log st)
  = [{| state := error; message := "Error: Unknown error"; progress := 0 |}] /\
  includes (name clip_a) "Error: Unknown error" = false.
Proof.
  vm_compute. repeat split.
  repeat first [ apply list_elem_of_here | apply list_elem_of_further ].
Qed.

(** Whatever string a session rejects with, the message is the same. *)
Lemma message_of_string_rejection s : message_or_unknown (ErrString s) = "Unknown error".
Proof. reflexivity. Qed.

(** ** Progress *)

Example loop_progress_thirds :
  loop_progress 0 3 = 0 /\ loop_progress 1 3 = 33 /\ loop_progress 2 3 = 67.
Proof. by vm_compute. Qed.

(** The product is the double one: 29/200*100 is 14.499999999999998. *)
Example loop_progress_double : loop_progress 29 200 = 14.
Proof. by vm_compute. Qed.

(** C4 (as the code has it): the progress published at the start boundary of
    clip [i] is [Math.round((i / N) * 100)], the integer nearest to the
    double-precision product, not its floor; the status is a [processing]
    one whose message names the clip. *)
Theorem C4_progress_at_clip_start rt fs evs pre s i n post :
  log (run rt fs evs) = pre ++ ASetStatus s :: ACreateVideo i n :: post ->
  progress s = loop_progress i (length fs) /\
  state s = processing /\
  exists f, fs !! i = Some f /\ n = name f /\
    message s = "Processing clip " +:+ pretty (i + 1)%nat +:+ "/"
                +:+ pretty (length fs) +:+ ": " +:+ name f.
Proof.
  intros El. pose proof (h_preceded _ _ (Hist_run rt fs evs)) as Hp.
  specialize (Hp (pre ++ [ASetStatus s]) (ACreateVideo i n) post).
  rewrite <- app_assoc in Hp. specialize (Hp El).
  destruct Hp as (f & p & Hf & Hn & E & _).
  apply app_inj_tail in E as [_ [= ->]]. repeat split. by exists f.
Qed.

Lemma C4_progress_at_clip_start_witness :
  let tr := log (run sample_runtime [clip_a; clip_b; clip_c]
                   (plays 0 ++ plays 1)) in
  tr = take 28 tr
       ++ ASetStatus (clip_status [clip_a; clip_b; clip_c] 2 clip_c)
       :: ACreateVideo 2 "c.mp4" :: drop 30 tr /\
  progress (clip_status [clip_a; clip_b; clip_c] 2 clip_c) = 67.
Proof.
  assert (E : let tr := log (run sample_runtime [clip_a; clip_b; clip_c]
                               (plays 0 ++ plays 1)) in
              tr = take 28 tr
                   ++ ASetStatus (clip_status [clip_a; clip_b; clip_c] 2 clip_c)
                   :: ACreateVideo 2 "c.mp4" :: drop 30 tr)
    by (vm_compute; reflexivity).
  split; [exact E|].
  destruct (C4_progress_at_clip_start _ _ _ _ _ _ _ _ E) as [-> _].
  vm_compute. reflexivity.
Defined.

(** C4 as the specification words it fails: with three clips the progress
    published at the start boundary of the third is 67, and the floor of
    200/3 is 66. *)
Lemma C4_counterexample :
  exists pre s n post,
    log (run sample_runtime [clip_a; clip_b; clip_c] (plays 0 ++ plays 1))
    = pre ++ ASetStatus s :: ACreateVideo 2 n :: post /\
    progress s = 67 /\ floor_progress 2 3 = 66 /\
    progress s <> floor_progress 2 3.
Proof.
  set (tr := log (run sample_runtime [clip_a; clip_b; clip_c]
                    (plays 0 ++ plays 1))).
  exists (take 28 tr), (clip_status [clip_a; clip_b; clip_c] 2 clip_c),
    "c.mp4", (drop 30 tr).
  split; [vm_compute; reflexivity|]. vm_compute. repeat split. discriminate.
Qed.

(** ** Order of the sessions *)

Lemma prefix_take {A} (l k : list A) : l `prefix_of` k -> l = take (length l) k.
Proof. intros [k' ->]. by rewrite take_app_length. Qed.

(** What [cleanup] does to the session it is called for. *)
Lemma cleanup_releases v st vid :
  videos st !! v = Some vid ->
  log (cleanup v st) = log st ++ cleanup_actions v (has_source vid) /\
  exists vid', videos (cleanup v st) !! v = Some vid' /\
               drawRequestId vid' = None /\ sourceNode vid' <> Some true.
Proof.
  intros Hv. split; [by apply cleanup_log|].
  unfold cleanup. rewrite Hv. destruct (sourceNode vid) eqn:Hs; simpl.
  - eexists. rewrite !list_lookup_alter_eq, Hv. simpl. by repeat split.
  - eexists. rewrite !list_lookup_alter_eq, Hv. simpl. repeat split.
    simpl. congruence.
Qed.

(** C7: the sessions are created for the clips of the list in the list's
    order; the session of a clip that is not the first is created right
    after the session before it was torn down (frame request cancelled,
    audio source disconnected if there is one, element removed, object URL
    revoked) and resolved; at any time at most one session's promise is
    pending; and the teardown leaves the session without a pending frame
    request and without a connected audio source. *)
Theorem C7_sessions_in_order_one_at_a_time rt fs evs :
  let st := run rt fs evs in
  created (log st)
  = imap (fun i f => (i, name f)) (take (length (videos st)) fs) /\
  (forall pre i n post,
     log st = pre ++ ACreateVideo (S i) n :: post ->
     exists p b s,
       pre = p ++ cleanup_actions i b ++ [AResolve i; ASetStatus s]) /\
  (forall v1 v2 vid1 vid2,
     videos st !! v1 = Some vid1 -> videos st !! v2 = Some vid2 ->
     settled vid1 = None -> settled vid2 = None -> v1 = v2) /\
  (forall s v vid,
     videos s !! v = Some vid ->
     log (cleanup v s) = log s ++ cleanup_actions v (has_source vid) /\
     exists vid', videos (cleanup v s) !! v = Some vid' /\
                  drawRequestId vid' = None /\ sourceNode vid' <> Some true).
Proof.
  pose proof (Hist_run rt fs evs) as []. pose proof (Inv_run rt fs evs) as HI.
  simpl. split; [|split; [|split]]; [| | |intros s v vid; apply cleanup_releases].
  - rewrite h_created0, <- length_vfiles. f_equal.
    pose proof (prefix_take _ _ (proj1 HI)) as E. by rewrite h_files0 in E.
  - intros pre i n post El. apply h_preceded0 in El. simpl in El.
    destruct El as (f & p & _ & _ & -> & p' & b & ->).
    exists p', b, (clip_status fs (S i) f).
    destruct b; simpl; by rewrite <- !app_assoc.
  - intros v1 v2 vid1 vid2 H1 H2 S1 S2.
    destruct (pending_awaited _ _ _ HI H1 S1) as [E1 _].
    destruct (pending_awaited _ _ _ HI H2 S2) as [E2 _]. congruence.
Qed.

Lemma C7_sessions_in_order_one_at_a_time_witness :
  let tr := log (run sample_runtime [clip_a; clip_b] (plays 0)) in
  tr = take 18 tr ++ ACreateVideo 1 "b.mp4" :: drop 19 tr /\
  exists p b s, take 18 tr = p ++ cleanup_actions 0 b ++ [AResolve 0; ASetStatus s].
Proof.
  assert (E : let tr := log (run sample_runtime [clip_a; clip_b] (plays 0)) in
              tr = take 18 tr ++ ACreateVideo 1 "b.mp4" :: drop 19 tr)
    by (vm_compute; reflexivity).
  split; [exact E|].
  exact (proj1 (proj2 (C7_sessions_in_order_one_at_a_time sample_runtime
                         [clip_a; clip_b] (plays 0))) _ _ _ _ E).
Defined.

(** ** Cancellation *)

(** [onstop] assembles the chunks it finds, whatever the run went through. *)
Lemma onstop_assembles st r :
  mediaRecorder st = Some r ->
  downloadUrl (onstop st) = Some (newBlob (chunks st) (recMimeType r)) /\
  status (onstop st) = completed_status.
Proof.
  intros Hr. unfold onstop. rewrite Hr. simpl.
  by destruct (audioContextRef st) as [[]|].
Qed.

(** Cancelled while the audio context resumes, before any clip. *)
Example cancelled_before_first_clip :
  let rt := {| isTypeSupported := fun _ => false;
               localeCompare := String.compare;
               canvasMounted := true; context2d := true;
               audioSuspended := true |} in
  let st := finish rt (run rt [clip_a] [EvCancel; EvResume None]) in
  ABreak 0 ∈ log st /\ created (log st) = [] /\
  status st = completed_status /\
  downloadUrl st = Some {| bytes := []; blobType := FALLBACK_FORMAT |}.
Proof.
  vm_compute. repeat split.
  repeat first [ apply list_elem_of_here | apply list_elem_of_further ].
Qed.

Lemma elem_of_created j n tr : ACreateVideo j n ∈ tr -> (j, n) ∈ created tr.
Proof.
  intros H. unfold created. apply list_elem_of_omap.
  by exists (ACreateVideo j n).
Qed.

Lemma elem_of_imap_index {A B} (f : nat -> A -> B) (g : B -> nat) (l : list A)
    (y : B) :
  (forall i x, g (f i x) = i) -> y ∈ imap f l -> (g y < length l)%nat.
Proof.
  intros Hg (i & x & -> & Hl)%elem_of_lookup_imap.
  rewrite Hg. by eapply lookup_lt_Some.
Qed.

Lemma after_loop_frame st :
  videos (after_loop st) = videos st /\
  processingRef (after_loop st) = processingRef st /\
  pc (after_loop st) = PcReturned.
Proof.
  unfold after_loop, recorder_stop.
  destruct (mediaRecorder st) as [r|]; [destruct (recState r)|]; done.
Qed.

Lemma catch_block_frame e st :
  videos (catch_block e st) = videos st /\
  processingRef (catch_block e st) = false /\
  pc (catch_block e st) = PcReturned.
Proof.
  unfold catch_block, recorder_stop; simpl.
  destruct (mediaRecorder st) as [r|]; [destruct (recState r)|]; done.
Qed.

Lemma onstop_frame st :
  videos (onstop st) = videos st /\ pc (onstop st) = pc st /\
  (processingRef st = false -> processingRef (onstop st) = false).
Proof.
  unfold onstop. destruct (mediaRecorder st); [|done]. simpl.
  by destruct (audioContextRef st) as [[]|].
Qed.

Lemma take_replicate_snoc {A} (a b : A) (i : nat) :
  take i (replicate i a ++ [b]) = replicate i a.
Proof.
  rewrite take_app_le by (by rewrite length_replicate).
  apply take_ge. by rewrite length_replicate.
Qed.

Lemma Cancelled_step rt i st e :
  Inv st -> Cancelled i st -> Cancelled i (step rt st e).
Proof.
  intros HI (Hp & Hlen & Hpc & Ht).
  assert (Hret : forall st', processingRef st' = false ->
            length (videos st') = S i -> pc st' = PcReturned ->
            take i (settles st') = replicate i (Some None) ->
            Cancelled i st').
  { intros st' ? ? ? ?. repeat split; try done. by right. }
  assert (Hquiet : forall st1, quiet st st1 ->
            processingRef st1 = false /\ length (videos st1) = S i /\
            (pc st1 = PcClip i \/ pc st1 = PcReturned) /\
            take i (settles st1) = replicate i (Some None)).
  { intros st1 []. repeat split; try congruence.
    by rewrite <- length_settles, q_settles0, length_settles. }
  assert (Hsettled : forall v st1 (s : option JsError) st2,
            quiet st st1 -> pc st1 = PcClip v ->
            settles st1 = replicate v (Some None) ++ [None] ->
            settles st2 = alter (fun _ => Some s) v (settles st1) ->
            v = i /\ length (settles st2) = S i /\
            take i (settles st2) = replicate i (Some None)).
  { intros v st1 s st2 Hq Hpc1 E E2.
    destruct (Hquiet st1 Hq) as (_ & _ & [Hc|Hc] & _); [|congruence].
    assert (v = i) as -> by congruence. split; [done|].
    rewrite E2, E, alter_replicate_last.
    split; [|apply take_replicate_snoc].
    rewrite length_app, length_replicate. simpl. lia. }
  destruct (step_shape rt st e)
    as [e st' Hq|v vid st1 Hv Hq Hl|v vid st1 Hv Hq Hl|v vid err st1 Hv Hq Hl
       |v|Hpc'|err Hpc'|d|Hsq|].
  - by apply Hquiet.
  - pose proof (Hquiet st1 Hq) as (Hp1 & _).
    destruct (resolve_cases v st1 (Inv_quiet _ _ Hq HI)) as [->|(Hpc1 & E & ->)];
      [by apply Hquiet|].
    destruct (Hsettled v st1 None (resolved v st1) Hq Hpc1 E
                (settles_resolved v st1)) as (-> & Hlen2 & Ht2).
    rewrite length_settles in Hlen2.
    unfold loop_from. change (processingRef (resolved i st1))
      with (processingRef st1). rewrite Hp1. simpl negb.
    destruct (files (resolved i st1) !! S i).
    + destruct (after_loop_frame (emit [ABreak (S i)] (resolved i st1)))
        as (Ev & Ep & Ec).
      apply Hret; try done; [by rewrite Ep | by rewrite Ev |].
      unfold settles. by rewrite Ev.
    + destruct (after_loop_frame (resolved i st1)) as (Ev & Ep & Ec).
      apply Hret; try done; [by rewrite Ep | by rewrite Ev |].
      unfold settles. by rewrite Ev.
  - set (e' := ErrString ("Error playing file " +:+ name (vfile vid))).
    destruct (reject_cases v e' st1 (Inv_quiet _ _ Hq HI))
      as [->|(Hpc1 & E & ->)]; [by apply Hquiet|].
    destruct (Hsettled v st1 (Some e') (rejected v e' st1) Hq Hpc1 E
                (settles_rejected v e' st1)) as (-> & Hlen2 & Ht2).
    rewrite length_settles in Hlen2.
    destruct (catch_block_frame e' (rejected i e' st1)) as (Ev & Ep & Ec).
    apply Hret; try done; [by rewrite Ev |]. unfold settles. by rewrite Ev.
  - destruct (reject_cases v err st1 (Inv_quiet _ _ Hq HI))
      as [->|(Hpc1 & E & ->)]; [by apply Hquiet|].
    destruct (Hsettled v st1 (Some err) (rejected v err st1) Hq Hpc1 E
                (settles_rejected v err st1)) as (-> & Hlen2 & Ht2).
    rewrite length_settles in Hlen2.
    destruct (catch_block_frame err (rejected i err st1)) as (Ev & Ep & Ec).
    apply Hret; try done; [by rewrite Ev |]. unfold settles. by rewrite Ev.
  - pose proof (control_onloadedmetadata v st) as [= E1 E2 E3 E4 E5 E6].
    repeat split.
    + unfold onloadedmetadata. destruct (videos st !! v); [|done].
      by destruct (negb _).
    + by rewrite <- length_settles, E3, length_settles.
    + by rewrite E2.
    + by rewrite E3.
  - destruct Hpc; congruence.
  - destruct Hpc; congruence.
  - pose proof (control_ondataavailable d st) as [= E1 E2 E3 E4 E5 E6].
    repeat split.
    + unfold ondataavailable. destruct (mediaRecorder st); [|done].
      by destruct (0 <? size d)%nat.
    + by rewrite <- length_settles, E3, length_settles.
    + by rewrite E2.
    + by rewrite E3.
  - destruct (onstop_frame (set_stopQueued false st)) as (Ev & Ec & Ep).
    repeat split.
    + by apply Ep.
    + by rewrite Ev.
    + by rewrite Ec.
    + unfold settles. by rewrite Ev.
  - by repeat split.
Qed.

Lemma Cancelled_exec rt i st evs :
  Inv st -> Cancelled i st -> Cancelled i (exec rt st evs).
Proof.
  revert st. induction evs as [|e evs IH]; intros st HI HC; [done|].
  simpl. apply IH; [by apply Inv_step | by apply Cancelled_step].
Qed.

(** C8: when the flag is cleared while the run awaits the session of clip
    [i], no session is ever created for a later clip; and once that session
    has resolved, the loop is left at its check (when a clip remains), no
    [error] status is published and the recorder is stopped. *)
Theorem C8_cancel_stops_after_current_clip rt fs evs1 evs2 i :
  pc (run rt fs evs1) = PcClip i ->
  let st := run rt fs (evs1 ++ EvCancel :: evs2) in
  length (videos st) = S i /\
  (forall j n, ACreateVideo j n ∈ log st -> (j <= i)%nat) /\
  (settles st !! i = Some (Some None) ->
   pc st = PcReturned /\ clean (log st) /\ ARecorderStop ∈ log st /\
   (is_Some (fs !! S i) -> ABreak (S i) ∈ log st)).
Proof.
  intros Hpc. simpl.
  pose proof (Inv_run rt fs (evs1 ++ EvCancel :: evs2)) as HI.
  pose proof (Hist_run rt fs (evs1 ++ EvCancel :: evs2)) as HH.
  assert (HC : Cancelled i (run rt fs (evs1 ++ EvCancel :: evs2))).
  { unfold run. rewrite exec_app. simpl. fold (run rt fs evs1).
    pose proof (Inv_run rt fs evs1) as HI1.
    apply Cancelled_exec; [by apply (Inv_step rt _ EvCancel)|].
    destruct HI1 as [_ Hp]. rewrite Hpc in Hp. destruct Hp as (E & _).
    repeat split; simpl.
    - by rewrite <- length_settles, E, length_app, length_replicate,
        Nat.add_comm.
    - by left.
    - change (take i (settles (run rt fs evs1)) = replicate i (Some None)).
      rewrite E. apply take_replicate_snoc. }
  destruct HC as (Hp & Hlen & Hc & Ht). split; [done|]. split.
  - intros j n Hin. apply elem_of_created in Hin.
    rewrite (h_created _ _ HH) in Hin.
    apply (elem_of_imap_index _ fst) in Hin; [|done].
    rewrite length_vfiles, Hlen in Hin. simpl in Hin. lia.
  - intros Hi.
    assert (E : settles (run rt fs (evs1 ++ EvCancel :: evs2))
                = replicate (S i) (Some None)).
    { rewrite <- (take_drop i (settles _)), Ht, replicate_S_end. f_equal.
      apply list_eq. intros [|k].
      - by rewrite lookup_drop, Nat.add_0_r, Hi.
      - rewrite lookup_drop. simpl. apply lookup_ge_None.
        rewrite length_settles. lia. }
    assert (Hret : pc (run rt fs (evs1 ++ EvCancel :: evs2)) = PcReturned).
    { destruct Hc as [Hc|Hc]; [|done]. destruct HI as [_ HIp].
      rewrite Hc in HIp. destruct HIp as (E' & _). rewrite E' in E.
      rewrite replicate_S_end in E. by apply app_inj_tail in E as [_ ?]. }
    destruct (h_resolved _ _ HH i Hret E) as (? & ? & Hb).
    repeat split; try done. by rewrite (h_files _ _ HH) in Hb.
Qed.

Lemma C8_cancel_stops_after_current_clip_witness :
  let st := run sample_runtime [clip_a; clip_b; clip_c]
              (plays 0 ++ [EvLoadedMetadata 1; EvCanPlay 1 AudioOk]
               ++ EvCancel :: [EvPlaySettled 1 None; EvEnded 1]) in
  pc (run sample_runtime [clip_a; clip_b; clip_c]
        (plays 0 ++ [EvLoadedMetadata 1; EvCanPlay 1 AudioOk])) = PcClip 1 /\
  length (videos st) = 2%nat.
Proof.
  assert (Hpc : pc (run sample_runtime [clip_a; clip_b; clip_c]
                      (plays 0 ++ [EvLoadedMetadata 1; EvCanPlay 1 AudioOk]))
                = PcClip 1) by (vm_compute; reflexivity).
  split; [exact Hpc|].
  pose proof (C8_cancel_stops_after_current_clip sample_runtime
                [clip_a; clip_b; clip_c]
                (plays 0 ++ [EvLoadedMetadata 1; EvCanPlay 1 AudioOk])
                [EvPlaySettled 1 None; EvEnded 1] 1 Hpc) as H.
  rewrite <- app_assoc in H. exact (proj1 H).
Defined.

(** ** The canvas dimensions *)

Lemma canvas_sets_app l1 l2 :
  canvas_sets (l1 ++ l2) = canvas_sets l1 ++ canvas_sets l2.
Proof. unfold canvas_sets. apply omap_app. Qed.

Lemma canvas_sets_quiet acts :
  Forall (fun a => quiet_action a = true) acts -> canvas_sets acts = [].
Proof.
  induction 1 as [|a acts Ha _ IH]; [done|]. destruct a; try done; exact IH.
Qed.

Lemma dims_frame_refl st : dims_frame st st.
Proof. done. Qed.

Lemma dims_frame_trans st1 st2 st3 :
  dims_frame st1 st2 -> dims_frame st2 st3 -> dims_frame st1 st3.
Proof. intros (?&?&?&?) (?&?&?&?). repeat split; congruence. Qed.

Lemma dims_frame_quiet st st' : quiet st st' -> dims_frame st st'.
Proof.
  intros []. destruct q_log0 as (acts & El & Hq). repeat split; try done.
  rewrite El, canvas_sets_app, (canvas_sets_quiet acts) by done.
  by rewrite app_nil_r.
Qed.

Lemma dims_frame_after_loop st :
  dims_frame st (after_loop st) /\ metas (after_loop st) = metas st.
Proof.
  unfold after_loop, recorder_stop.
  destruct (mediaRecorder st) as [r|]; [destruct (recState r)|];
    repeat split; simpl; by rewrite ?canvas_sets_app, ?app_nil_r.
Qed.

Lemma dims_frame_catch_block e st :
  dims_frame st (catch_block e st) /\ metas (catch_block e st) = metas st.
Proof.
  unfold catch_block, recorder_stop; simpl.
  destruct (mediaRecorder st) as [r|]; [destruct (recState r)|];
    repeat split; simpl; by rewrite ?canvas_sets_app, ?app_nil_r.
Qed.

Lemma dims_frame_loop_from j st :
  dims_frame st (loop_from j st) /\
  (metas (loop_from j st) = metas st \/
   metas (loop_from j st) = metas st ++ [false]).
Proof.
  unfold loop_from. destruct (files st !! j) as [file|].
  - destruct (negb (processingRef st)).
    + destruct (dims_frame_after_loop (emit [ABreak j] st)) as [H1 H2].
      split; [|by left]. eapply dims_frame_trans; [|exact H1].
      repeat split; simpl. by rewrite canvas_sets_app, app_nil_r.
    + split; [|right].
      * repeat split; simpl. by rewrite !canvas_sets_app, !app_nil_r.
      * unfold metas; simpl. by rewrite fmap_app.
  - destruct (dims_frame_after_loop st) as [H1 H2]. split; [done | by left].
Qed.

Lemma dims_frame_resolved v st : dims_frame st (resolved v st).
Proof. repeat split; simpl. by rewrite canvas_sets_app, app_nil_r. Qed.

Lemma dims_frame_rejected v e st : dims_frame st (rejected v e st).
Proof. repeat split; simpl. by rewrite canvas_sets_app, app_nil_r. Qed.

Lemma dims_frame_onstop st :
  dims_frame st (onstop st) /\ metas (onstop st) = metas st.
Proof.
  unfold onstop. destruct (mediaRecorder st); [|done]. simpl.
  destruct (audioContextRef st) as [[]|]; repeat split; simpl;
    by rewrite ?canvas_sets_app, ?app_nil_r.
Qed.

Lemma DimInv_frame f0 st st' :
  DimInv f0 st -> dims_frame st st' -> metas st' = metas st -> DimInv f0 st'.
Proof.
  intros [Hf Hd] (E1 & E2 & E3 & E4) Em. unfold DimInv.
  by rewrite E1, E2, E3, E4, Em.
Qed.

Lemma DimInv_grow f0 st st' :
  DimInv f0 st -> dims_frame st st' -> metas st' = metas st ++ [false] ->
  dimensionsSet st = true \/ metas st = [] ->
  DimInv f0 st'.
Proof.
  intros [Hf Hd] (E1 & E2 & E3 & E4) Em Hor. unfold DimInv.
  rewrite E1, E2, E3, E4, Em. split; [done|].
  destruct (dimensionsSet st).
  - destruct Hd as (? & ? & Hm). repeat split; try done.
    by apply lookup_app_l_Some.
  - destruct Hor as [?|Hm]; [done|]. destruct Hd as (? & _ & _).
    rewrite Hm. repeat split; [done | by repeat constructor | simpl; lia].
Qed.

Lemma DimInv_loop_from f0 j st :
  DimInv f0 st -> dimensionsSet st = true \/ metas st = [] ->
  DimInv f0 (loop_from j st).
Proof.
  intros HD Hor. destruct (dims_frame_loop_from j st) as [Hfr [Hm|Hm]].
  - by eapply DimInv_frame.
  - by eapply DimInv_grow.
Qed.

Lemma DimInv_after_resume rt f0 st :
  DimInv f0 st -> metas st = [] -> DimInv f0 (after_resume rt st).
Proof.
  intros HD Hm. unfold after_resume. destruct (negb (context2d rt)).
  - destruct (dims_frame_catch_block
                (ErrObject "Could not get canvas context") st) as [H1 H2].
    by eapply DimInv_frame.
  - apply DimInv_loop_from; [|by right].
    destruct HD as [Hf Hd]. destruct (dimensionsSet st) eqn:Hds.
    + destruct Hd as (_ & _ & H0). by rewrite Hm in H0.
    + split; [done|]. simpl. rewrite !canvas_sets_app, !app_nil_r.
      exact Hd.
Qed.

Lemma DimInv_onloadedmetadata f0 v st :
  Inv st -> DimInv f0 st -> DimInv f0 (onloadedmetadata v st).
Proof.
  intros [Hpre _] [Hf Hd]. unfold onloadedmetadata.
  destruct (videos st !! v) as [vid|] eqn:Hv; [|done].
  assert (Hm : metas (update_video v (with_hasMetadata true) st)
               = alter (fun _ => true) v (metas st)).
  { unfold metas; simpl. by apply fmap_alter_set. }
  assert (Hmv : is_Some (metas st !! v)).
  { unfold metas. rewrite list_lookup_fmap, Hv. by eexists. }
  change (dimensionsSet (update_video v (with_hasMetadata true) st))
    with (dimensionsSet st).
  destruct (dimensionsSet st) eqn:Hds; simpl.
  - split; [done|]. simpl. rewrite Hds.
    destruct Hd as (? & ? & H0). repeat split; try done.
    change (metas (update_video v (with_hasMetadata true) st) !! 0%nat
            = Some true).
    rewrite Hm. destruct v as [|v].
    + by rewrite list_lookup_alter_eq, H0.
    + by rewrite list_lookup_alter_ne.
  - destruct Hd as (Hc & Hall & Hlen).
    assert (v = 0%nat) as ->.
    { destruct Hmv as [? Hmv]. apply lookup_lt_Some in Hmv. lia. }
    assert (Hfile : vfile vid = f0).
    { destruct Hpre as [k Hk]. unfold vfiles in Hk.
      destruct (videos st) as [|x l]; simplify_eq/=.
      rewrite Hk in Hf. by simplify_eq/=. }
    split; [done|]. simpl. rewrite canvas_sets_app, Hc, Hfile.
    repeat split.
    change (metas (update_video 0 (with_hasMetadata true) st) !! 0%nat
            = Some true).
    rewrite Hm, list_lookup_alter_eq. by destruct Hmv as [? ->].
Qed.

Lemma DimInv_step rt f0 st e :
  Inv st -> DimInv f0 st -> browser_ok st e = true ->
  DimInv f0 (step rt st e).
Proof.
  intros HI HD Hok. destruct (step_shape rt st e)
    as [e st' Hq|v vid st1 Hv Hq Hl|v vid st1 Hv Hq Hl|v vid err st1 Hv Hq Hl
       |v|Hpc|err Hpc|d|Hsq|].
  - eapply DimInv_frame; [done | by apply dims_frame_quiet | by destruct Hq].
  - simpl in Hok. rewrite Hv in Hok.
    assert (Hset : dimensionsSet st = true).
    { destruct HD as [_ Hd]. destruct (dimensionsSet st); [done|].
      destruct Hd as (_ & Hall & _). rewrite Forall_forall in Hall.
      symmetry. apply Hall. unfold metas.
      apply (list_elem_of_lookup_2 _ v). by rewrite list_lookup_fmap, Hv, <- Hok. }
    assert (HD1 : DimInv f0 st1).
    { eapply DimInv_frame; [done | by apply dims_frame_quiet | by destruct Hq]. }
    destruct (resolve_cases v st1 (Inv_quiet _ _ Hq HI)) as [->|(_ & _ & ->)];
      [done|].
    apply DimInv_loop_from.
    + eapply DimInv_frame; [exact HD1 | apply dims_frame_resolved |
                            apply metas_resolved].
    + left. simpl. destruct Hq. congruence.
  - assert (HD1 : DimInv f0 st1).
    { eapply DimInv_frame; [done | by apply dims_frame_quiet | by destruct Hq]. }
    set (e' := ErrString ("Error playing file " +:+ name (vfile vid))).
    destruct (reject_cases v e' st1 (Inv_quiet _ _ Hq HI)) as [->|(_ & _ & ->)];
      [done|].
    destruct (dims_frame_catch_block e' (rejected v e' st1)) as [H1 H2].
    eapply DimInv_frame; [|exact H1|exact H2].
    eapply DimInv_frame; [exact HD1 | apply dims_frame_rejected |
                          apply metas_rejected].
  - assert (HD1 : DimInv f0 st1).
    { eapply DimInv_frame; [done | by apply dims_frame_quiet | by destruct Hq]. }
    destruct (reject_cases v err st1 (Inv_quiet _ _ Hq HI))
      as [->|(_ & _ & ->)]; [done|].
    destruct (dims_frame_catch_block err (rejected v err st1)) as [H1 H2].
    eapply DimInv_frame; [|exact H1|exact H2].
    eapply DimInv_frame; [exact HD1 | apply dims_frame_rejected |
                          apply metas_rejected].
  - by apply DimInv_onloadedmetadata.
  - apply DimInv_after_resume.
    + by eapply DimInv_frame.
    + destruct HI as [_ Hp]. rewrite Hpc in Hp. destruct Hp as (Hs & _).
      change (metas st = []). apply (f_equal length) in Hs.
      rewrite length_settles in Hs. unfold metas.
      by destruct (videos st).
  - destruct (dims_frame_catch_block err st) as [H1 H2].
    by eapply DimInv_frame.
  - eapply DimInv_frame; [done| |].
    + unfold ondataavailable. destruct (mediaRecorder st); [|done].
      by destruct (0 <? size d)%nat.
    + unfold ondataavailable. destruct (mediaRecorder st); [|done].
      by destruct (0 <? size d)%nat.
  - destruct (dims_frame_onstop (set_stopQueued false st)) as [H1 H2].
    by eapply DimInv_frame.
  - by eapply DimInv_frame.
Qed.

Lemma DimInv_exec rt f0 st evs :
  Inv st -> DimInv f0 st -> schedule_ok rt st evs = true ->
  DimInv f0 (exec rt st evs).
Proof.
  revert st. induction evs as [|e evs IH]; intros st HI HD Hok; [done|].
  simpl in *. apply andb_true_iff in Hok as [Hok1 Hok2].
  apply IH; [by apply Inv_step | by apply DimInv_step | done].
Qed.

Lemma DimInv_startProcessing rt f0 fs :
  DimInv f0 (startProcessing rt (selected (f0 :: fs))).
Proof.
  assert (H0 : DimInv f0 (selected (f0 :: fs))).
  { split; [done|]. simpl. split; [done|]. split; [by constructor | lia]. }
  unfold startProcessing. destruct (_ || _); [done|].
  destruct (getSupportedMimeType rt) as [queries mimeType] eqn:Hm.
  assert (Hq : canvas_sets queries = []).
  { unfold getSupportedMimeType in Hm.
    repeat destruct (isTypeSupported rt _); by simplify_eq. }
  assert (Hfr : forall st', dimensionsSet st' = false ->
            canvas st' = canvas (selected (f0 :: fs)) ->
            files st' = f0 :: fs -> metas st' = [] ->
            log st' = [ASetStatus
                         {| state := processing;
                            message := "Initializing processing engine...";
                            progress := 0 |}]
                      ++ queries
                      ++ [AConsoleLog ("Using format: " +:+ mimeType)] ->
            DimInv f0 st').
  { intros st' E1 E2 E3 E4 El. unfold DimInv. rewrite E1, E3, E4, El.
    split; [done|]. split; [|split; [by constructor | simpl; lia]].
    by rewrite !canvas_sets_app, Hq. }
  destruct (audioSuspended rt).
  - by apply Hfr.
  - apply DimInv_after_resume; [by apply Hfr | done].
Qed.

(** C6: for a run over a list that starts with [f0], under a schedule the
    browser can produce, the canvas dimensions are assigned at most once;
    they are assigned exactly when the metadata of the first clip has
    loaded, by the first clip's session and to its native resolution, and
    from then on the canvas keeps these dimensions whatever the later clips
    are. *)
Theorem C6_dimensions_set_once_from_first_clip rt f0 fs evs :
  schedule_ok rt (startProcessing rt (selected (f0 :: fs))) evs = true ->
  let st := run rt (f0 :: fs) evs in
  (length (canvas_sets (log st)) <= 1)%nat /\
  (metas st !! 0%nat = Some true ->
   canvas_sets (log st) = [(0%nat, videoWidth f0, videoHeight f0)] /\
   canvas st = (videoWidth f0, videoHeight f0)) /\
  (metas st !! 0%nat <> Some true -> canvas_sets (log st) = []).
Proof.
  intros Hok. simpl.
  assert (HD : DimInv f0 (run rt (f0 :: fs) evs)).
  { apply DimInv_exec; [|apply DimInv_startProcessing|done].
    apply Inv_startProcessing; [apply Inv_selected | done]. }
  destruct HD as [_ Hd]. destruct (dimensionsSet (run rt (f0 :: fs) evs)).
  - destruct Hd as (Hc & Hs & Hm). rewrite Hs.
    split; [simpl; lia|]. split; [done|]. by intros [].
  - destruct Hd as (Hs & Hall & Hlen). rewrite Hs.
    split; [simpl; lia|]. split; [|done].
    intros Hm. rewrite Forall_forall in Hall.
    by apply list_elem_of_lookup_2, Hall in Hm.
Qed.

Lemma C6_dimensions_set_once_from_first_clip_witness :
  let evs := plays 0 ++ plays 1 in
  schedule_ok sample_runtime
    (startProcessing sample_runtime (selected [clip_a; clip_b])) evs = true /\
  canvas_sets (log (run sample_runtime [clip_a; clip_b] evs))
  = [(0%nat, 640, 480)].
Proof.
  assert (Hok : schedule_ok sample_runtime
                  (startProcessing sample_runtime (selected [clip_a; clip_b]))
                  (plays 0 ++ plays 1) = true) by (vm_compute; reflexivity).
  split; [exact Hok|].
  destruct (C6_dimensions_set_once_from_first_clip sample_runtime clip_a
              [clip_b] (plays 0 ++ plays 1) Hok) as (_ & H & _).
  apply H. vm_compute. reflexivity.
Defined.

(** ** Audio wiring failures *)

Ltac harm acts :=
  exists acts; simpl; split;
    [by rewrite <- ?app_assoc, ?app_nil_r
    | split; [by repeat constructor | ]].

Lemma harmless_refl st : harmless st st.
Proof. harm (@nil Action). by left. Qed.

Lemma harmless_trans st1 st2 st3 :
  harmless st1 st2 -> harmless st2 st3 -> harmless st1 st3.
Proof.
  intros (a1 & E1 & F1 & S1) (a2 & E2 & F2 & S2). exists (a1 ++ a2).
  rewrite E2, E1, app_assoc. split; [done|]. split; [by apply Forall_app|].
  destruct S2 as [S2|S2].
  - rewrite S2. destruct S1 as [?|S1]; [by left|].
    right. apply elem_of_app. by left.
  - right. apply elem_of_app. by right.
Qed.

Lemma quiet_no_failure a : quiet_action a = true -> no_failure a = true.
Proof. by destruct a. Qed.

Lemma neutral_no_failure a : neutral_action a = true -> no_failure a = true.
Proof.
  unfold neutral_action. intros [H _]%andb_true_iff. by destruct a.
Qed.

Lemma harmless_quiet st st' : quiet st st' -> harmless st st'.
Proof.
  intros []. destruct q_log0 as (acts & El & Hq). exists acts.
  split; [done|]. split; [|by left].
  eapply Forall_impl; [exact Hq|]. intros a. apply quiet_no_failure.
Qed.

Lemma harmless_after_loop st : harmless st (after_loop st).
Proof.
  unfold after_loop, recorder_stop.
  destruct (mediaRecorder st) as [r|]; [destruct (recState r)|].
  - harm (@nil Action). by left.
  - harm [ARecorderStop]. by left.
  - harm (@nil Action). by left.
Qed.

Lemma harmless_loop_from j st : harmless st (loop_from j st).
Proof.
  unfold loop_from. destruct (files st !! j) as [file|];
    [|apply harmless_after_loop].
  destruct (negb (processingRef st)).
  - eapply harmless_trans; [|apply harmless_after_loop].
    harm [ABreak j]. by left.
  - eexists [ASetStatus _; ACreateVideo j (name file)]. simpl.
    split; [by rewrite <- app_assoc|]. split; [by repeat constructor|].
    right. apply list_elem_of_here.
Qed.

Lemma harmless_resolve v st : harmless st (resolve v st).
Proof.
  unfold resolve. destruct (videos st !! v) as [vid|]; [|apply harmless_refl].
  destruct (settled vid); [apply harmless_refl|].
  assert (H : harmless st (resolved v st)).
  { harm [AResolve v]. by left. }
  fold (resolved v st). destruct (pc (resolved v st)); try done.
  destruct (_ =? _)%nat; [|done].
  eapply harmless_trans; [exact H | apply harmless_loop_from].
Qed.

Lemma harmless_onstop st : harmless st (onstop st).
Proof.
  unfold onstop. destruct (mediaRecorder st) as [r|]; [|apply harmless_refl].
  set (blob := newBlob (chunks st) (recMimeType r)).
  simpl. destruct (audioContextRef st) as [[]|].
  - harm [ASetDownloadUrl blob; ASetStatus completed_status; ACloseAudio].
    right. apply list_elem_of_further, list_elem_of_here.
  - harm [ASetDownloadUrl blob; ASetStatus completed_status; ACloseAudio].
    right. apply list_elem_of_further, list_elem_of_here.
  - harm [ASetDownloadUrl blob; ASetStatus completed_status].
    right. apply list_elem_of_further, list_elem_of_here.
  - harm [ASetDownloadUrl blob; ASetStatus completed_status].
    right. apply list_elem_of_further, list_elem_of_here.
Qed.

Lemma harmless_after_resume rt st :
  context2d rt = true -> harmless st (after_resume rt st).
Proof.
  intros Hc. unfold after_resume. rewrite Hc. simpl.
  eapply harmless_trans; [|apply harmless_loop_from].
  harm [ARecorderNew (finalMimeType st) 5000000; ARecorderStart]. by left.
Qed.

Lemma harmless_step rt st e :
  context2d rt = true -> benign e = true -> harmless st (step rt st e).
Proof.
  intros Hc He. destruct (step_shape rt st e)
    as [e st' Hq|v vid st1 Hv Hq Hl|v vid st1 Hv Hq Hl|v vid err st1 Hv Hq Hl
       |v|Hpc|err Hpc|d|Hsq|]; try done.
  - by apply harmless_quiet.
  - eapply harmless_trans; [by apply harmless_quiet | apply harmless_resolve].
  - destruct (onloadedmetadata_log v st) as (acts & El & Hn & Es & Ed).
    exists acts. split; [done|]. split; [|by left].
    eapply Forall_impl; [exact Hn|]. intros a. apply neutral_no_failure.
  - eapply harmless_trans; [|by apply harmless_after_resume].
    harm (@nil Action). by left.
  - unfold ondataavailable. destruct (mediaRecorder st); [|apply harmless_refl].
    destruct (0 <? size d)%nat; [|apply harmless_refl].
    harm (@nil Action). by left.
  - eapply harmless_trans; [|apply harmless_onstop].
    harm (@nil Action). by left.
  - harm (@nil Action). by left.
Qed.

Lemma harmless_exec rt st evs :
  context2d rt = true -> Forall (fun e => benign e = true) evs ->
  harmless st (exec rt st evs).
Proof.
  intros Hc Hb. revert st.
  induction Hb as [|e evs He _ IH]; intros st; [apply harmless_refl|].
  simpl. eapply harmless_trans; [by apply harmless_step | apply IH].
Qed.

Lemma harmless_startProcessing rt st :
  context2d rt = true -> harmless st (startProcessing rt st).
Proof.
  intros Hc. unfold startProcessing. destruct (_ || _); [apply harmless_refl|].
  destruct (getSupportedMimeType rt) as [queries mimeType] eqn:Hm.
  set (ini := {| state := processing;
                 message := "Initializing processing engine...";
                 progress := 0 |}).
  assert (Hq : Forall (fun a => no_failure a = true) queries).
  { unfold getSupportedMimeType in Hm.
    repeat destruct (isTypeSupported rt _); simplify_eq; by repeat constructor. }
  assert (H : forall st', log st' = log st ++ [ASetStatus ini] ++ queries
                            ++ [AConsoleLog ("Using format: " +:+ mimeType)] ->
                status st' = ini -> harmless st st').
  { intros st' El Es. eexists. split; [exact El|]. split.
    - constructor; [done|]. apply Forall_app. split; [done|].
      by repeat constructor.
    - right. rewrite Es. apply list_elem_of_here. }
  destruct (audioSuspended rt).
  - apply H; [|done]. simpl. by rewrite <- !app_assoc.
  - eapply harmless_trans; [|by apply harmless_after_resume].
    apply H; [|done]. simpl. by rewrite <- !app_assoc.
Qed.

(** C9: when the creation of a clip's audio source or its connection to the
    destination node fails, [oncanplay] logs a warning and goes on to play
    the clip, leaving the promise, the status and the orchestration as they
    are; and a run in which nothing else fails (no playback error, no
    rejected [play()], no failure while setting up) never publishes an
    [error] status and never rejects a session, however many audio wirings
    fail. *)
Theorem C9_audio_failure_is_not_fatal (rt : Runtime) :
  (forall st v vid audio e,
     videos st !! v = Some vid -> oncanplay vid = true ->
     audio_failure audio = Some e ->
     let st' := step rt st (EvCanPlay v audio) in
     log st' = log st ++ [AConsoleWarn e; APlay v] /\
     pc st' = pc st /\ status st' = status st /\ settles st' = settles st /\
     exists vid', videos st' !! v = Some vid' /\ playPending vid' = true /\
                  (sourceNode vid = None -> sourceNode vid' <> Some true)) /\
  (forall fs evs,
     context2d rt = true -> Forall (fun e => benign e = true) evs ->
     let st := run rt fs evs in
     state (status st) <> error /\ state (status (finish rt st)) <> error /\
     clean (log st) /\ forall v e, AReject v e ∉ log st).
Proof.
  split.
  - intros st v vid audio e Hv Hoc Ha. simpl. unfold oncanplay_handler.
    rewrite Hv, Hoc.
    assert (Hq : quiet st (oncanplay_handler v audio st))
      by apply oncanplay_quiet.
    unfold oncanplay_handler in Hq. rewrite Hv, Hoc in Hq.
    destruct Hq. destruct audio as [|e'|e']; simplify_eq/=.
    + repeat split; try done; [by rewrite <- app_assoc|].
      eexists. rewrite !list_lookup_alter_eq, Hv. simpl.
      repeat split. simpl. congruence.
    + repeat split; try done; [by rewrite <- app_assoc|].
      eexists. rewrite !list_lookup_alter_eq, Hv. simpl. by repeat split.
  - intros fs evs Hc Hb. simpl.
    assert (H : harmless (selected fs) (run rt fs evs)).
    { eapply harmless_trans; [by apply harmless_startProcessing|].
      by apply harmless_exec. }
    assert (Hf : harmless (selected fs) (finish rt (run rt fs evs))).
    { eapply harmless_trans; [exact H|]. rewrite finish_spec.
      destruct (stopQueued _); [|apply harmless_refl].
      eapply harmless_trans; [|apply harmless_onstop].
      harm (@nil Action). by left. }
    assert (Hst : forall st', harmless (selected fs) st' ->
                    state (status st') <> error).
    { intros st' (acts & El & Hn & [Hs|Hs]); [by rewrite Hs|].
      rewrite Forall_forall in Hn. apply Hn in Hs. simpl in Hs.
      intros E. by rewrite E in Hs. }
    split; [by apply Hst|]. split; [by apply Hst|].
    destruct H as (acts & El & Hn & Hs). simpl in El. rewrite El. split.
    + eapply Forall_impl; [exact Hn|]. intros a Ha.
      destruct a; simpl in *; try done. by apply negb_true_iff.
    + intros v e Hin. rewrite Forall_forall in Hn. by apply Hn in Hin.
Qed.

Lemma C9_audio_failure_is_not_fatal_witness :
  let no_audio := ConnectFails (ErrObject "InvalidStateError") in
  let evs := [EvLoadedMetadata 0; EvCanPlay 0 no_audio; EvPlaySettled 0 None;
              EvAnimationFrame 0; EvEnded 0] in
  let st0 := startProcessing sample_runtime (selected [clip_a]) in
  (videos st0 !! 0%nat = Some (new_video clip_a) /\
   log (step sample_runtime st0 (EvCanPlay 0 no_audio))
   = log st0 ++ [AConsoleWarn (ErrObject "InvalidStateError"); APlay 0]) /\
  (Forall (fun e => benign e = true) evs /\
   state (status (finish sample_runtime (run sample_runtime [clip_a] evs)))
   <> error).
Proof.
  destruct (C9_audio_failure_is_not_fatal sample_runtime) as [Ha Hb].
  split.
  - split; [reflexivity|].
    apply (Ha (startProcessing sample_runtime (selected [clip_a])) 0%nat
              (new_video clip_a) (ConnectFails (ErrObject "InvalidStateError"))
              (ErrObject "InvalidStateError"));
      reflexivity.
  - assert (Hev : Forall (fun e => benign e = true)
                    [EvLoadedMetadata 0;
                     EvCanPlay 0 (ConnectFails (ErrObject "InvalidStateError"));
                     EvPlaySettled 0 None; EvAnimationFrame 0; EvEnded 0])
      by (repeat constructor).
    split; [exact Hev|].
    exact (proj1 (proj2 (Hb [clip_a] _ eq_refl Hev))).
Defined.

(** * Further properties *)

(** ** Folder selection *)

Lemma sort_insert_perm cmp f l : sort_insert cmp f l ≡ₚ f :: l.
Proof.
  induction l as [|g l IH]; simpl; [done|].
  destruct (cmp (name f) (name g)); try done.
  rewrite IH. apply Permutation_swap.
Qed.

Lemma sort_files_perm cmp l : sort_files cmp l ≡ₚ l.
Proof.
  induction l as [|f l IH]; simpl; [done|].
  unfold sort_files in *. simpl. by rewrite sort_insert_perm, IH.
Qed.

Lemma has_slash_split_head p : has_slash (split_head p) = false.
Proof.
  induction p as [|c p IH]; simpl; [done|].
  destruct (Ascii.eqb c "/") eqn:E; simpl; [done|]. by rewrite E.
Qed.

Lemma split_head_no_slash p : has_slash p = false -> split_head p = p.
Proof.
  induction p as [|c p IH]; simpl; [done|].
  destruct (Ascii.eqb c "/"); simpl; [done|]. intros H. by rewrite IH.
Qed.

(** X1: selecting a folder that holds at least one video stores exactly the
    video files of the selection, in some order, every stored file being a
    video; it forgets the previous download, names the folder with a
    non-empty name without a slash, publishes an [idle] status that counts
    the clips and names the folder, and offers "Start Merge". *)
Theorem handleFolderSelect_selects_videos rt fileList st :
  filter is_video fileList <> [] ->
  let st' := handleFolderSelect rt fileList st in
  files st' ≡ₚ filter is_video fileList /\
  Forall is_video (files st') /\
  downloadUrl st' = None /\
  folderName st' <> "" /\ has_slash (folderName st') = false /\
  status st'
  = {| state := idle;
       message := "Ready to merge " +:+ pretty (length (filter is_video fileList))
                  +:+ " clips from " +:+ dquote +:+ folderName st' +:+ dquote;
       progress := 0 |} /\
  showsStartMerge st' = true.
Proof.
  intros Hne. simpl. unfold handleFolderSelect.
  destruct fileList as [|f0 fl]; [done|]. simpl Nat.eqb. cbv iota.
  change (fun f : File => startsWith "video/" (type f) = true) with is_video.
  pose proof (sort_files_perm (localeCompare rt) (filter is_video (f0 :: fl)))
    as Hp.
  destruct (sort_files (localeCompare rt) (filter is_video (f0 :: fl)))
    as [|first rest] eqn:Hs.
  { apply Permutation_nil_l in Hp. congruence. }
  set (folder := if String.eqb (split_head (webkitRelativePath first)) ""
                 then "merged_video"
                 else split_head (webkitRelativePath first)).
  assert (Hfolder : folder <> "" /\ has_slash folder = false).
  { unfold folder.
    destruct (String.eqb_spec (split_head (webkitRelativePath first)) "").
    - by split.
    - split; [done | apply has_slash_split_head]. }
  assert (Hall : Forall is_video (first :: rest)).
  { rewrite Hp. apply Forall_forall. intros x Hx.
    by apply list_elem_of_filter in Hx as [? _]. }
  assert (Hlen : length (first :: rest)
                 = length (filter is_video (f0 :: fl))) by by rewrite Hp.
  unfold showsStartMerge. simpl in *. rewrite <- Hlen.
  repeat split; try done; apply Hfolder.
Qed.

Lemma handleFolderSelect_selects_videos_witness :
  filter is_video [notes_txt; clip_b; clip_a] <> [] /\
  Forall is_video
    (files (handleFolderSelect sample_runtime [notes_txt; clip_b; clip_a]
              mounted)) /\
  showsStartMerge
    (handleFolderSelect sample_runtime [notes_txt; clip_b; clip_a] mounted)
  = true.
Proof.
  assert (Hne : filter is_video [notes_txt; clip_b; clip_a] <> [])
    by (vm_compute; discriminate).
  split; [exact Hne|].
  destruct (handleFolderSelect_selects_videos sample_runtime
              [notes_txt; clip_b; clip_a] mounted Hne)
    as (_ & H2 & _ & _ & _ & _ & H7).
  split; [exact H2 | exact H7].
Defined.

Lemma files_handleFolderSelect rt fileList st :
  filter is_video fileList <> [] ->
  files (handleFolderSelect rt fileList st)
  = sort_files (localeCompare rt) (filter is_video fileList).
Proof.
  intros Hne. unfold handleFolderSelect.
  destruct fileList as [|f0 fl]; [done|]. simpl Nat.eqb. cbv iota.
  change (fun f : File => startsWith "video/" (type f) = true) with is_video.
  pose proof (sort_files_perm (localeCompare rt) (filter is_video (f0 :: fl)))
    as Hp.
  destruct (sort_files (localeCompare rt) (filter is_video (f0 :: fl)))
    as [|first rest] eqn:Hs; [|done].
  apply Permutation_nil_l in Hp. congruence.
Qed.

Lemma sort_insert_HdRel cmp g f l :
  in_order cmp g f -> HdRel (in_order cmp) g l ->
  HdRel (in_order cmp) g (sort_insert cmp f l).
Proof.
  intros Hgf Hl. destruct l as [|h l]; simpl; [by constructor|].
  destruct (cmp (name f) (name h)); constructor; try done;
    by inversion Hl.
Qed.

Lemma sort_insert_Sorted cmp f l :
  (forall a b, cmp a b = Gt -> cmp b a <> Gt) ->
  Sorted (in_order cmp) l -> Sorted (in_order cmp) (sort_insert cmp f l).
Proof.
  intros Hasym. induction 1 as [|g l Hs IH Hhd]; simpl.
  { by repeat constructor. }
  destruct (cmp (name f) (name g)) eqn:E.
  - constructor; [by constructor|]. constructor. unfold in_order. by rewrite E.
  - constructor; [by constructor|]. constructor. unfold in_order. by rewrite E.
  - constructor; [done|]. apply sort_insert_HdRel; [|done].
    by apply Hasym.
Qed.

Lemma sort_files_Sorted cmp l :
  (forall a b, cmp a b = Gt -> cmp b a <> Gt) ->
  Sorted (in_order cmp) (sort_files cmp l).
Proof.
  intros Hasym. induction l as [|f l IH]; [constructor|].
  by apply sort_insert_Sorted.
Qed.

Lemma sort_files_sorted_id cmp l :
  Sorted (in_order cmp) l -> sort_files cmp l = l.
Proof.
  induction 1 as [|f l Hs IH Hhd]; [done|].
  change (sort_files cmp (f :: l)) with (sort_insert cmp f (sort_files cmp l)).
  rewrite IH. destruct Hhd as [|g l Hfg]; [done|]. simpl.
  unfold in_order in Hfg. by destruct (cmp (name f) (name g)).
Qed.

(** X2: when the comparison of the runtime never puts two names each after
    the other, the clips stored by a folder selection are in order: no clip
    sorts after the clip that follows it. *)
Theorem handleFolderSelect_sorts_clips rt fileList st :
  (forall a b, localeCompare rt a b = Gt -> localeCompare rt b a <> Gt) ->
  filter is_video fileList <> [] ->
  Sorted (in_order (localeCompare rt))
    (files (handleFolderSelect rt fileList st)).
Proof.
  intros Hasym Hne. rewrite files_handleFolderSelect by done.
  by apply sort_files_Sorted.
Qed.

Lemma compare_asym a b : String.compare a b = Gt -> String.compare b a <> Gt.
Proof. rewrite (String.compare_antisym b a). by intros ->. Qed.

Lemma handleFolderSelect_sorts_clips_witness :
  filter is_video [clip_b; notes_txt; clip_a] <> [] /\
  Sorted (in_order (localeCompare sample_runtime))
    (files (handleFolderSelect sample_runtime [clip_b; notes_txt; clip_a]
              mounted)).
Proof.
  assert (Hne : filter is_video [clip_b; notes_txt; clip_a] <> [])
    by (vm_compute; discriminate).
  split; [exact Hne|].
  exact (handleFolderSelect_sorts_clips sample_runtime
           [clip_b; notes_txt; clip_a] mounted compare_asym Hne).
Defined.

(** X3: the sort is stable and changes nothing it need not change: when the
    videos of the selection already come in order (clips of equal rank
    included), they are stored in the order in which they came, whatever the
    comparison is. *)
Theorem handleFolderSelect_keeps_ordered_selection rt fileList st :
  filter is_video fileList <> [] ->
  Sorted (in_order (localeCompare rt)) (filter is_video fileList) ->
  files (handleFolderSelect rt fileList st) = filter is_video fileList.
Proof.
  intros Hne Hs. rewrite files_handleFolderSelect by done.
  by apply sort_files_sorted_id.
Qed.

Lemma handleFolderSelect_keeps_ordered_selection_witness :
  Sorted (in_order (localeCompare sample_runtime))
    (filter is_video [clip_a; notes_txt; clip_b]) /\
  files (handleFolderSelect sample_runtime [clip_a; notes_txt; clip_b] mounted)
  = [clip_a; clip_b].
Proof.
  assert (Hne : filter is_video [clip_a; notes_txt; clip_b] <> [])
    by (vm_compute; discriminate).
  assert (Hs : Sorted (in_order (localeCompare sample_runtime))
                 (filter is_video [clip_a; notes_txt; clip_b])).
  { change (filter is_video [clip_a; notes_txt; clip_b])
      with [clip_a; clip_b].
    repeat constructor. unfold in_order. vm_compute. discriminate. }
  split; [exact Hs|].
  exact (handleFolderSelect_keeps_ordered_selection sample_runtime
           [clip_a; notes_txt; clip_b] mounted Hne Hs).
Defined.

Lemma split_head_app dir rest :
  has_slash dir = false -> split_head (dir +:+ "/" +:+ rest) = dir.
Proof.
  induction dir as [|c dir IH]; simpl; [done|].
  destruct (Ascii.eqb c "/"); simpl; [done|]. intros H. by rewrite IH.
Qed.

(** X4: the folder name is the first segment of the relative paths: when
    every video of the selection lies under [dir/], the download is named
    after [dir], and after [merged_video] when [dir] is empty. *)
Theorem handleFolderSelect_names_folder rt fileList st dir :
  filter is_video fileList <> [] ->
  has_slash dir = false ->
  (forall f, f ∈ fileList -> is_video f ->
     exists rest, webkitRelativePath f = dir +:+ "/" +:+ rest) ->
  folderName (handleFolderSelect rt fileList st)
  = if String.eqb dir "" then "merged_video" else dir.
Proof.
  intros Hne Hdir Hall. unfold handleFolderSelect.
  destruct fileList as [|f0 fl]; [done|]. simpl Nat.eqb. cbv iota.
  change (fun f : File => startsWith "video/" (type f) = true) with is_video.
  pose proof (sort_files_perm (localeCompare rt) (filter is_video (f0 :: fl)))
    as Hp.
  destruct (sort_files (localeCompare rt) (filter is_video (f0 :: fl)))
    as [|first rest] eqn:Hs.
  { apply Permutation_nil_l in Hp. congruence. }
  assert (Hin : first ∈ filter is_video (f0 :: fl)).
  { rewrite <- Hp. apply list_elem_of_here. }
  apply list_elem_of_filter in Hin as [Hv Hin].
  destruct (Hall first Hin Hv) as [r Hr].
  simpl. rewrite Hr, split_head_app by done. done.
Qed.

Lemma handleFolderSelect_names_folder_witness :
  has_slash "clips" = false /\
  folderName (handleFolderSelect sample_runtime [notes_txt; clip_b; clip_a]
                mounted) = "clips".
Proof.
  assert (Hne : filter is_video [notes_txt; clip_b; clip_a] <> [])
    by (vm_compute; discriminate).
  split; [reflexivity|].
  apply (handleFolderSelect_names_folder sample_runtime
           [notes_txt; clip_b; clip_a] mounted "clips" Hne eq_refl).
  intros f Hf Hv.
  apply elem_of_cons in Hf as [->|Hf]; [vm_compute in Hv; discriminate|].
  apply elem_of_cons in Hf as [->|Hf]; [by exists "b.mp4"|].
  apply elem_of_cons in Hf as [->|Hf]; [by exists "a.mp4"|].
  by apply elem_of_nil in Hf.
Defined.

(** ** Runs that never get to record *)

Lemma step_no_session rt st e :
  videos st = [] -> mediaRecorder st = None -> stopQueued st = false ->
  is_resume_event e = false \/ pc st = PcReturned \/ pc st = PcIdle ->
  step rt st e = st \/ step rt st e = set_processingRef false st.
Proof.
  intros Hv Hr Hq Hp.
  destruct e; simpl;
    unfold onloadedmetadata, oncanplay_handler, play_settled, animation_frame,
      onended, onerror, ondataavailable;
    rewrite ?Hv, ?Hr, ?Hq; simpl; auto.
  destruct Hp as [?|[->| ->]]; [done|by left..].
Qed.

Lemma exec_idle rt fs evs : exec rt (selected fs) evs = selected fs.
Proof.
  induction evs as [|e evs IH]; [done|].
  change (exec rt (selected fs) (e :: evs))
    with (exec rt (step rt (selected fs) e) evs).
  by destruct (step_no_session rt (selected fs) e) as [-> | ->]; auto.
Qed.



Lemma FailedEarly_step rt s st e :
  FailedEarly s st ->
  FailedEarly s (step rt st e) /\ log (step rt st e) = log st /\
  audioContextRef (step rt st e) = audioContextRef st.
Proof.
  intros (Hp & Hv & Hr & Hq & Hs & Hd).
  by destruct (step_no_session rt st e) as [-> | ->]; auto.
Qed.

Lemma FailedEarly_exec rt s st evs :
  FailedEarly s st ->
  FailedEarly s (exec rt st evs) /\ log (exec rt st evs) = log st /\
  audioContextRef (exec rt st evs) = audioContextRef st.
Proof.
  revert st. induction evs as [|e evs IH]; intros st H; [done|].
  change (exec rt st (e :: evs)) with (exec rt (step rt st e) evs).
  destruct (FailedEarly_step rt s st e H) as (H1 & H2 & H3).
  destruct (IH _ H1) as (? & ? & ?). split; [done|]. split; congruence.
Qed.

Lemma FailedEarly_finish rt s st : FailedEarly s st -> finish rt st = st.
Proof. intros (_ & _ & _ & Hq & _). unfold finish. by rewrite Hq. Qed.

Lemma created_queries rt : created (fst (getSupportedMimeType rt)) = [].
Proof. unfold getSupportedMimeType. by repeat case_match. Qed.

Lemma FailedEarly_catch_block err st :
  videos st = [] -> mediaRecorder st = None -> stopQueued st = false ->
  downloadUrl st = None ->
  FailedEarly {| state := error;
                 message := "Error: " +:+ message_or_unknown err;
                 progress := 0 |} (catch_block err st) /\
  log (catch_block err st)
  = log st ++ [AConsoleError err;
               ASetStatus {| state := error;
                             message := "Error: " +:+ message_or_unknown err;
                             progress := 0 |}] /\
  audioContextRef (catch_block err st) = audioContextRef st.
Proof.
  intros Hv Hr Hq Hd. unfold catch_block, recorder_stop. simpl. rewrite Hr.
  simpl. by rewrite <- app_assoc.
Qed.



Lemma Waiting_step rt st e :
  Waiting st -> is_resume_event e = false ->
  Waiting (step rt st e) /\ log (step rt st e) = log st /\
  status (step rt st e) = status st.
Proof.
  intros (Hp & Hv & Hr & Hq & Hd) He.
  by destruct (step_no_session rt st e) as [-> | ->]; auto.
Qed.

Lemma Waiting_exec rt st evs :
  Waiting st -> Forall (fun e => is_resume_event e = false) evs ->
  Waiting (exec rt st evs) /\ log (exec rt st evs) = log st /\
  status (exec rt st evs) = status st.
Proof.
  intros H Hevs. revert st H.
  induction Hevs as [|e evs He _ IH]; intros st H; [done|].
  change (exec rt st (e :: evs)) with (exec rt (step rt st e) evs).
  destruct (Waiting_step rt st e H He) as (H1 & H2 & H3).
  destruct (IH _ H1) as (? & ? & ?). split; [done|]. split; congruence.
Qed.

Lemma Waiting_startProcessing rt fs :
  fs <> [] -> canvasMounted rt = true -> audioSuspended rt = true ->
  let st := startProcessing rt (selected fs) in
  Waiting st /\ created (log st) = [] /\
  status st = {| state := processing;
                 message := "Initializing processing engine...";
                 progress := 0 |}.
Proof.
  intros Hfs Hc Ha. simpl. unfold startProcessing. rewrite Hc, Ha.
  destruct fs as [|f fs]; [done|]. simpl orb. cbv iota.
  pose proof (created_queries rt) as Hq.
  destruct (getSupportedMimeType rt) as [queries mime]. simpl in Hq.
  simpl. by rewrite !created_app, Hq.
Qed.

(** X7: on a runtime whose audio context starts suspended, the run waits
    for [resume()] showing the initial [processing] status; when [resume()]
    is rejected the run fails for good: the [error] status carries the
    message of the rejection (or [Unknown error]), and whatever follows, no
    session and no recorder is created and nothing can be downloaded. *)
Theorem rejected_resume_fails_the_run rt fs evs1 err evs2 :
  fs <> [] -> canvasMounted rt = true -> audioSuspended rt = true ->
  Forall (fun e => is_resume_event e = false) evs1 ->
  status (run rt fs evs1)
  = {| state := processing; message := "Initializing processing engine...";
       progress := 0 |} /\
  let st := finish rt (run rt fs (evs1 ++ EvResume (Some err) :: evs2)) in
  status st = {| state := error;
                 message := "Error: " +:+ message_or_unknown err;
                 progress := 0 |} /\
  downloadUrl st = None /\ showsDownload st = false /\
  mediaRecorder st = None /\ created (log st) = [].
Proof.
  intros Hfs Hc Ha Hevs.
  destruct (Waiting_startProcessing rt fs Hfs Hc Ha) as (W0 & C0 & S0).
  destruct (Waiting_exec rt _ evs1 W0 Hevs) as (W1 & L1 & S1).
  fold (run rt fs evs1) in W1, L1, S1.
  split; [congruence|]. simpl.
  unfold run. rewrite exec_app. fold (run rt fs evs1).
  change (exec rt (run rt fs evs1) (EvResume (Some err) :: evs2))
    with (exec rt (step rt (run rt fs evs1) (EvResume (Some err))) evs2).
  destruct W1 as (Hp & Hv & Hr & Hq & Hd).
  simpl step. rewrite Hp.
  destruct (FailedEarly_catch_block err (run rt fs evs1)) as (F & L & _);
    try done.
  destruct (FailedEarly_exec rt _ _ evs2 F) as (F' & L' & _).
  rewrite (FailedEarly_finish rt _ _ F').
  destruct F' as (_ & _ & Hr' & _ & Hs' & Hd').
  unfold showsDownload. rewrite Hs', Hd', Hr', L', L, L1.
  by rewrite created_app, C0.
Qed.

Lemma rejected_resume_fails_the_run_witness :
  let rt := {| isTypeSupported := fun _ => true;
               localeCompare := String.compare;
               canvasMounted := true; context2d := true;
               audioSuspended := true |} in
  Forall (fun e => is_resume_event e = false) [EvLoadedMetadata 0] /\
  status (finish rt (run rt [clip_a]
                       ([EvLoadedMetadata 0]
                        ++ EvResume (Some (ErrObject "NotAllowedError"))
                        :: [EvResume None])))
  = {| state := error; message := "Error: NotAllowedError"; progress := 0 |}.
Proof.
  assert (Hne : [clip_a] <> []) by discriminate.
  assert (Hev : Forall (fun e => is_resume_event e = false)
                  [EvLoadedMetadata 0]) by (repeat constructor).
  split; [exact Hev|].
  exact (proj1 (proj2 (rejected_resume_fails_the_run
                  {| isTypeSupported := fun _ => true;
                     localeCompare := String.compare;
                     canvasMounted := true; context2d := true;
                     audioSuspended := true |}
                  [clip_a] [EvLoadedMetadata 0] (ErrObject "NotAllowedError")
                  [EvResume None] Hne eq_refl eq_refl Hev))).
Defined.

(** ** The run in which every clip plays to its end *)

(** X8: when the session of every clip has resolved, the run is over and
    settles as completed: the recorder was stopped, the status is the
    [completed] one, a download is offered, no [error] status was ever
    published, and exactly one session per clip was created, in the order of
    the clips. *)
Theorem all_clips_played_completes rt fs evs :
  fs <> [] ->
  settles (run rt fs evs) = replicate (length fs) (Some None) ->
  let st := finish rt (run rt fs evs) in
  status st = completed_status /\ showsDownload st = true /\
  clean (log st) /\ ARecorderStop ∈ log st /\
  created (log st) = imap (fun i f => (i, name f)) fs.
Proof.
  intros Hfs Hs. simpl.
  pose proof (Inv_run rt fs evs) as [Hpre Hpc].
  pose proof (Hist_run rt fs evs) as H.
  assert (Hlen : length fs = S (pred (length fs))).
  { destruct fs; [done|]. simpl. lia. }
  assert (Hret : pc (run rt fs evs) = PcReturned).
  { destruct (pc (run rt fs evs)) eqn:E; try done.
    - destruct Hpc as (Hn & _). rewrite Hn, Hlen in Hs. done.
    - destruct Hpc as (Hn & _). rewrite Hn, Hlen in Hs. done.
    - destruct Hpc as (Hn & _). rewrite Hn in Hs.
      assert (None ∈ replicate (length fs) (Some (@None JsError))) as Hin.
      { rewrite <- Hs. mem. }
      apply elem_of_replicate in Hin as [? _]. done. }
  rewrite Hlen in Hs.
  destruct (h_resolved fs _ H _ Hret Hs) as (_ & Hstop & _).
  destruct (stopped_run_completes rt fs evs Hstop) as (H' & Hsub & Hst & Hurl).
  destruct (onstop_frame (set_stopQueued false (run rt fs evs)))
    as (Hv & Hp & _).
  assert (Hvid : videos (finish rt (run rt fs evs)) = videos (run rt fs evs)).
  { rewrite finish_spec. by destruct (stopQueued (run rt fs evs)). }
  assert (Hpc' : pc (finish rt (run rt fs evs)) = PcReturned).
  { rewrite finish_spec. destruct (stopQueued (run rt fs evs)); [|done].
    by rewrite Hp. }
  assert (Hs' : settles (finish rt (run rt fs evs))
                = replicate (S (pred (length fs))) (Some None)).
  { unfold settles. by rewrite Hvid. }
  destruct (h_resolved fs _ H' _ Hpc' Hs') as (Hclean & Hstop' & _).
  split; [done|]. split.
  { unfold showsDownload. rewrite Hst. by destruct Hurl as [? ->]. }
  split; [done|]. split; [done|].
  rewrite (h_created fs _ H'). f_equal.
  unfold vfiles. rewrite Hvid. fold (vfiles (run rt fs evs)).
  rewrite (prefix_take _ _ Hpre), (h_files fs _ H).
  rewrite length_vfiles, <- length_settles, Hs, length_replicate, <- Hlen.
  by rewrite firstn_all.
Qed.

Lemma all_clips_played_completes_witness :
  settles (run sample_runtime [clip_a; clip_b] (plays 0 ++ plays 1))
  = replicate 2 (Some None) /\
  status (finish sample_runtime
            (run sample_runtime [clip_a; clip_b] (plays 0 ++ plays 1)))
  = completed_status.
Proof.
  assert (Hne : [clip_a; clip_b] <> []) by discriminate.
  assert (Hs : settles (run sample_runtime [clip_a; clip_b]
                          (plays 0 ++ plays 1))
               = replicate (length [clip_a; clip_b]) (Some None))
    by (vm_compute; reflexivity).
  split; [exact Hs|].
  exact (proj1 (all_clips_played_completes sample_runtime [clip_a; clip_b]
                  (plays 0 ++ plays 1) Hne Hs)).
Defined.

(** ** What a run leaves alone *)

Lemma static_recorder_stop st : static (recorder_stop st) = static st.
Proof. unfold recorder_stop. by repeat case_match. Qed.

Lemma static_after_loop st : static (after_loop st) = static st.
Proof. unfold after_loop. apply (static_recorder_stop st). Qed.

Lemma static_catch_block err st : static (catch_block err st) = static st.
Proof.
  unfold catch_block.
  match goal with
  | |- static (set_pc _ (recorder_stop ?s)) = _ =>
      change (static (recorder_stop s) = static st);
      by rewrite static_recorder_stop
  end.
Qed.

Lemma static_loop_from i st : static (loop_from i st) = static st.
Proof.
  unfold loop_from. repeat case_match; try done.
  - by rewrite static_after_loop.
  - by rewrite static_after_loop.
Qed.

Lemma static_after_resume rt st : static (after_resume rt st) = static st.
Proof.
  unfold after_resume. case_match.
  - by rewrite static_catch_block.
  - by rewrite static_loop_from.
Qed.

Lemma static_resolve v st : static (resolve v st) = static st.
Proof.
  unfold resolve. repeat case_match; try done. by rewrite static_loop_from.
Qed.

Lemma static_reject v e st : static (reject v e st) = static st.
Proof.
  unfold reject. repeat case_match; try done. by rewrite static_catch_block.
Qed.

Lemma static_cleanup v st : static (cleanup v st) = static st.
Proof. unfold cleanup. by repeat case_match. Qed.

Lemma static_drawFrame v st : static (drawFrame v st) = static st.
Proof. unfold drawFrame. by repeat case_match. Qed.

Lemma static_onstop st : static (onstop st) = static st.
Proof. unfold onstop. by repeat case_match. Qed.

Lemma static_step rt st e : static (step rt st e) = static st.
Proof.
  destruct e; unfold step.
  - repeat case_match; try done.
    + by rewrite static_catch_block.
    + by rewrite static_after_resume.
  - unfold onloadedmetadata. by repeat case_match.
  - unfold oncanplay_handler. by repeat case_match.
  - unfold play_settled. repeat case_match; try done.
    + by rewrite static_reject, static_cleanup.
    + by rewrite static_drawFrame.
  - unfold animation_frame. repeat case_match; try done.
    by rewrite static_drawFrame.
  - unfold onended. case_match; [|done].
    by rewrite static_resolve, static_cleanup.
  - unfold onerror. case_match; [|done].
    by rewrite static_reject, static_cleanup.
  - unfold ondataavailable. by repeat case_match.
  - case_match; [|done]. by rewrite static_onstop.
  - done.
Qed.

Lemma static_exec rt st evs : static (exec rt st evs) = static st.
Proof.
  revert st. induction evs as [|e evs IH]; intros st; [done|].
  change (exec rt st (e :: evs)) with (exec rt (step rt st e) evs).
  by rewrite IH, static_step.
Qed.


Lemma static_startProcessing rt st :
  files st <> [] -> canvasMounted rt = true ->
  static (startProcessing rt st)
  = (files st, folderName st, snd (getSupportedMimeType rt)).
Proof.
  intros Hf Hc. unfold startProcessing. rewrite Hc.
  destruct (files st) as [|f fs] eqn:E; [done|]. simpl orb. cbv iota.
  destruct (getSupportedMimeType rt) as [queries mime]. simpl snd.
  case_match.
  - unfold static. simpl. by rewrite E.
  - rewrite static_after_resume. unfold static. simpl. by rewrite E.
Qed.




(** ** The merged file *)

Lemma rec_view_recorder_stop st : rec_view (recorder_stop st) = rec_view st.
Proof.
  unfold recorder_stop, rec_view.
  destruct (mediaRecorder st) as [r|] eqn:E; [|by rewrite E].
  destruct (recState r); [by rewrite E|done].
Qed.

Lemma rec_view_after_loop st : rec_view (after_loop st) = rec_view st.
Proof. unfold after_loop. apply (rec_view_recorder_stop st). Qed.

Lemma rec_view_catch_block err st :
  rec_view (catch_block err st) = rec_view st.
Proof.
  unfold catch_block.
  match goal with
  | |- rec_view (set_pc _ (recorder_stop ?s)) = _ =>
      change (rec_view (recorder_stop s) = rec_view st);
      by rewrite rec_view_recorder_stop
  end.
Qed.

Lemma rec_view_loop_from i st : rec_view (loop_from i st) = rec_view st.
Proof.
  unfold loop_from. repeat case_match; try done.
  - by rewrite rec_view_after_loop.
  - by rewrite rec_view_after_loop.
Qed.

Lemma rec_view_resolve v st : rec_view (resolve v st) = rec_view st.
Proof.
  unfold resolve. repeat case_match; try done. by rewrite rec_view_loop_from.
Qed.

Lemma rec_view_reject v e st : rec_view (reject v e st) = rec_view st.
Proof.
  unfold reject. repeat case_match; try done.
  by rewrite rec_view_catch_block.
Qed.

Lemma rec_view_cleanup v st : rec_view (cleanup v st) = rec_view st.
Proof. unfold cleanup. by repeat case_match. Qed.

Lemma rec_view_drawFrame v st : rec_view (drawFrame v st) = rec_view st.
Proof. unfold drawFrame. by repeat case_match. Qed.

Lemma kept_singleton d :
  filter nonempty [d] = if (0 <? size d)%nat then [d] else [].
Proof.
  unfold nonempty. destruct (0 <? size d)%nat eqn:E.
  - rewrite filter_cons_True; [done | by rewrite E].
  - rewrite filter_cons_False; [done | rewrite E; by intros []].
Qed.

(** Until the [stop] event is delivered, a step changes what the recorder
    has gathered only by the chunk it is handed. *)
Lemma rec_view_step rt st e :
  Inv st -> is_Some (mediaRecorder st) -> is_stop_event e = false ->
  rec_view (step rt st e)
  = (recMimeType <$> mediaRecorder st,
     chunks st ++ filter nonempty (datas [e]), downloadUrl st).
Proof.
  intros [_ Hpc] [r Hr] He.
  assert (H : forall s, rec_view s = rec_view st ->
                rec_view s = (recMimeType <$> mediaRecorder st,
                              chunks st ++ [], downloadUrl st)).
  { intros s ->. by rewrite app_nil_r. }
  assert (Hp : pc st <> PcResume).
  { intros E. rewrite E in Hpc. destruct Hpc as (_ & ? & _). congruence. }
  clear Hpc.
  destruct e; try done; unfold step; simpl datas;
    try (change (filter nonempty []) with (@nil Blob); apply H).
  - by destruct (pc st).
  - unfold onloadedmetadata. by repeat case_match.
  - unfold oncanplay_handler. by repeat case_match.
  - unfold play_settled. repeat case_match; try done.
    + by rewrite rec_view_reject, rec_view_cleanup.
    + by rewrite rec_view_drawFrame.
  - unfold animation_frame. repeat case_match; try done.
    by rewrite rec_view_drawFrame.
  - unfold onended. case_match; [|done].
    by rewrite rec_view_resolve, rec_view_cleanup.
  - unfold onerror. case_match; [|done].
    by rewrite rec_view_reject, rec_view_cleanup.
  - rewrite kept_singleton. unfold ondataavailable. rewrite Hr.
    destruct (0 <? size data)%nat.
    + unfold rec_view. simpl. by rewrite Hr.
    + unfold rec_view. by rewrite Hr, app_nil_r.
  - done.
Qed.

Lemma datas_app evs1 evs2 : datas (evs1 ++ evs2) = datas evs1 ++ datas evs2.
Proof. apply omap_app. Qed.

Lemma rec_view_exec rt st evs mime cs :
  Inv st -> rec_view st = (Some mime, cs, None) ->
  Forall (fun e => is_stop_event e = false) evs ->
  rec_view (exec rt st evs)
  = (Some mime, cs ++ filter nonempty (datas evs), None).
Proof.
  intros Hinv Hv Hevs. revert st cs Hinv Hv.
  induction Hevs as [|e evs He _ IH]; intros st cs Hinv Hv.
  { simpl. by rewrite app_nil_r. }
  change (exec rt st (e :: evs)) with (exec rt (step rt st e) evs).
  assert (Hr : is_Some (mediaRecorder st)).
  { unfold rec_view in Hv. destruct (mediaRecorder st); [eauto|done]. }
  pose proof (rec_view_step rt st e Hinv Hr He) as Hs.
  unfold rec_view in Hv. injection Hv as E1 E2 E3. rewrite E1, E2, E3 in Hs.
  rewrite (IH _ _ (Inv_step rt st e Hinv) Hs).
  change (e :: evs) with ([e] ++ evs).
  by rewrite datas_app, filter_app, app_assoc.
Qed.

(** ** What the component offers during and after a run *)

Lemma mood_after_loop st : status (after_loop st) = status st.
Proof. unfold after_loop, recorder_stop. by repeat case_match. Qed.

Lemma mood_loop_from i st : mood st (loop_from i st).
Proof.
  unfold loop_from, mood. repeat case_match.
  - left. by rewrite mood_after_loop.
  - right. by left.
  - left. by rewrite mood_after_loop.
Qed.

Lemma status_catch_block err st : state (status (catch_block err st)) = error.
Proof. unfold catch_block, recorder_stop. by repeat case_match. Qed.

Lemma mood_after_resume rt st : mood st (after_resume rt st).
Proof.
  unfold after_resume. case_match.
  - right. right. apply status_catch_block.
  - match goal with |- mood _ (loop_from 0 ?s) =>
      destruct (mood_loop_from 0 s) as [E|E]; [left; by rewrite E | by right]
    end.
Qed.

Lemma mood_busy st st' :
  mood st st' -> state (status st) <> idle -> state (status st) <> completed ->
  Busy st'.
Proof.
  intros [E|[E|E]] H1 H2; split; rewrite E; try done.
Qed.

Lemma mood_resolve v st : Inv st -> mood st (resolve v st).
Proof.
  intros Hinv. destruct (resolve_cases v st Hinv) as [-> | (_ & _ & ->)];
    [by left|].
  destruct (mood_loop_from (S v) (resolved v st)) as [E|E];
    [left; by rewrite E | by right].
Qed.

Lemma mood_reject v e st : Inv st -> mood st (reject v e st).
Proof.
  intros Hinv. destruct (reject_cases v e st Hinv) as [-> | (_ & _ & ->)];
    [by left|].
  right. right. apply status_catch_block.
Qed.

Lemma mood_quiet st1 st2 st3 : quiet st1 st2 -> mood st2 st3 -> mood st1 st3.
Proof. intros [] M. unfold mood in *. by rewrite <- q_status0. Qed.

Lemma over_view_onloadedmetadata v st :
  over_view (onloadedmetadata v st) = over_view st.
Proof.
  unfold onloadedmetadata, over_view.
  destruct (videos st !! v) as [vid|]; [|done].
  assert (Hs : settles (update_video v (with_hasMetadata true) st)
               = settles st) by by apply fmap_alter_keep.
  case_match; simpl; unfold settles in *; simpl in *; by rewrite Hs.
Qed.

Lemma over_view_ondataavailable d st :
  over_view (ondataavailable d st) = over_view st.
Proof. unfold ondataavailable. by repeat case_match. Qed.

Lemma Over_view st st' : over_view st' = over_view st -> Over st -> Over st'.
Proof.
  unfold over_view, Over. intros E. injection E as _ _ E1 E2 E3 E4.
  by rewrite E1, E2, E3, E4.
Qed.

Lemma over_view_quiet st st' : quiet st st' -> over_view st' = over_view st.
Proof. intros []. unfold over_view. congruence. Qed.

Lemma resolve_settled v st : None ∉ settles st -> resolve v st = st.
Proof.
  intros Hn. unfold resolve. destruct (videos st !! v) as [vid|] eqn:Ev; [|done].
  destruct (settled vid) eqn:Es; [done|]. exfalso. apply Hn.
  apply (list_elem_of_lookup_2 _ v). unfold settles.
  by rewrite list_lookup_fmap, Ev, <- Es.
Qed.

Lemma reject_settled v e st : None ∉ settles st -> reject v e st = st.
Proof.
  intros Hn. unfold reject. destruct (videos st !! v) as [vid|] eqn:Ev; [|done].
  destruct (settled vid) eqn:Es; [done|]. exfalso. apply Hn.
  apply (list_elem_of_lookup_2 _ v). unfold settles.
  by rewrite list_lookup_fmap, Ev, <- Es.
Qed.

(** Nothing changes the outcome of a run that is over. *)
Lemma Over_step rt st e : Over st -> over_view (step rt st e) = over_view st.
Proof.
  intros (Hp & Hf & Hq & Hn).
  assert (Hn' : forall st1, quiet st st1 -> None ∉ settles st1).
  { intros st1 Hqu. by rewrite (q_settles _ _ Hqu). }
  destruct (step_shape rt st e)
    as [e st' Hqu|v vid st1 Hv Hqu Hl|v vid st1 Hv Hqu Hl
       |v vid err st1 Hv Hqu Hl|v|Hpc|err Hpc|d|Hsq|]; try congruence.
  - by apply over_view_quiet.
  - rewrite resolve_settled by auto. by apply over_view_quiet.
  - rewrite reject_settled by auto. by apply over_view_quiet.
  - rewrite reject_settled by auto. by apply over_view_quiet.
  - apply over_view_onloadedmetadata.
  - apply over_view_ondataavailable.
  - unfold over_view. simpl. by rewrite Hf.
Qed.

Lemma Over_onstop st r :
  Inv st -> stopQueued st = true -> mediaRecorder st = Some r ->
  Over (onstop (set_stopQueued false st)) /\
  is_Some (downloadUrl (onstop (set_stopQueued false st))).
Proof.
  intros Hinv Hq Hr.
  pose proof (Inv_returned_of_queued st Hinv Hq) as Hp.
  destruct Hinv as [_ Hpc]. rewrite Hp in Hpc.
  destruct (onstop_frame (set_stopQueued false st)) as (Hv & Hp' & _).
  destruct (onstop_assembles (set_stopQueued false st) r Hr) as [Hd _].
  unfold Over. rewrite Hp', Hd, stopQueued_onstop. unfold settles.
  rewrite Hv. split; [|eauto]. split; [done|]. split; [|done].
  unfold onstop. simpl. rewrite Hr. simpl.
  by destruct (audioContextRef st) as [[]|].
Qed.

Lemma Busy_step rt st e : Inv st -> Busy st -> Busy (step rt st e).
Proof.
  intros Hinv [Hi Hc].
  assert (state (status st) = completed \/ state (status st) <> completed)
    as [Ec|Ec] by (destruct (state (status st)); auto).
  { destruct (Hc Ec) as [Ho Hd].
    pose proof (Over_step rt st e Ho) as Ev.
    pose proof (Over_view _ _ Ev Ho) as Ho'.
    unfold over_view in Ev. injection Ev as Es Ed _ _ _ _.
    split; rewrite Es, ?Ed; done. }
  destruct (step_shape rt st e)
    as [e st' Hqu|v vid st1 Hv Hqu Hl|v vid st1 Hv Hqu Hl
       |v vid err st1 Hv Hqu Hl|v|Hpc|err Hpc|d|Hsq|].
  - apply (mood_busy st); [left; apply (q_status _ _ Hqu)|done..].
  - apply (mood_busy st); [|done..].
    eapply mood_quiet; [done|]. apply mood_resolve. by eapply Inv_quiet.
  - apply (mood_busy st); [|done..].
    eapply mood_quiet; [done|]. apply mood_reject. by eapply Inv_quiet.
  - apply (mood_busy st); [|done..].
    eapply mood_quiet; [done|]. apply mood_reject. by eapply Inv_quiet.
  - pose proof (over_view_onloadedmetadata v st) as Ev.
    unfold over_view in Ev. injection Ev as Es _ _ _ _ _.
    apply (mood_busy st); [by left|done..].
  - apply (mood_busy st); [|done..].
    match goal with |- mood _ (after_resume rt ?s) =>
      apply (mood_after_resume rt s) end.
  - apply (mood_busy st); [|done..]. right. right. apply status_catch_block.
  - pose proof (over_view_ondataavailable d st) as Ev.
    unfold over_view in Ev. injection Ev as Es _ _ _ _ _.
    apply (mood_busy st); [by left|done..].
  - destruct (mediaRecorder st) as [r|] eqn:Er.
    + split.
      * destruct (onstop_assembles (set_stopQueued false st) r Er) as [_ ->].
        done.
      * intros _. by eapply Over_onstop.
    + apply (mood_busy st); [left|done..]. unfold onstop. simpl.
      by rewrite Er.
  - by apply (mood_busy st); [left|..].
Qed.

Lemma Busy_exec rt st evs : Inv st -> Busy st -> Busy (exec rt st evs).
Proof.
  revert st. induction evs as [|e evs IH]; intros st Hinv Hb; [done|].
  change (exec rt st (e :: evs)) with (exec rt (step rt st e) evs).
  apply IH; [by apply Inv_step | by apply Busy_step].
Qed.

Lemma Busy_startProcessing rt fs :
  fs <> [] -> canvasMounted rt = true -> Busy (startProcessing rt (selected fs)).
Proof.
  intros Hfs Hc. unfold startProcessing. rewrite Hc.
  destruct fs as [|f fs]; [done|]. simpl orb. cbv iota.
  destruct (getSupportedMimeType rt) as [queries mime].
  case_match; [by split|].
  match goal with |- Busy (after_resume rt ?s) =>
    apply (mood_busy s); [apply mood_after_resume|done..] end.
Qed.

Lemma Busy_run rt fs evs :
  fs <> [] -> canvasMounted rt = true -> Busy (run rt fs evs).
Proof.
  intros Hfs Hc. apply Busy_exec; [|by apply Busy_startProcessing].
  by apply Inv_startProcessing; [apply Inv_selected|].
Qed.

Lemma finish_as_step rt st :
  finish rt st = st \/ finish rt st = step rt st EvRecorderStop.
Proof. unfold finish. case_match; auto. Qed.



Lemma Over_exec rt st evs :
  Over st -> over_view (exec rt st evs) = over_view st.
Proof.
  revert st. induction evs as [|e evs IH]; intros st Ho; [done|].
  change (exec rt st (e :: evs)) with (exec rt (step rt st e) evs).
  pose proof (Over_step rt st e Ho) as Ev.
  rewrite IH; [done | by eapply Over_view].
Qed.

Lemma completed_over rt fs evs :
  state (status (run rt fs evs)) = completed ->
  Over (run rt fs evs) /\ is_Some (downloadUrl (run rt fs evs)).
Proof.
  intros Hc.
  assert (Hb : Busy (run rt fs evs)).
  { destruct (decide (fs = [])) as [->|Hfs].
    - exfalso. unfold run in Hc.
      change (startProcessing rt (selected [])) with (selected []) in Hc.
      by rewrite exec_idle in Hc.
    - destruct (canvasMounted rt) eqn:Ec; [by apply Busy_run|].
      exfalso. unfold run in Hc.
      replace (startProcessing rt (selected fs)) with (selected fs) in Hc.
      + by rewrite exec_idle in Hc.
      + unfold startProcessing. rewrite Ec. simpl. by rewrite orb_true_r. }
  destruct Hb as [_ Ho]. by apply Ho.
Qed.



Lemma startOver_view st :
  over_view (startOver st)
  = ({| state := idle; message := ""; progress := 0 |}, None, pc st,
     processingRef st, stopQueued st, settles st).
Proof. done. Qed.

(** X12: "Start Over", which is offered when a run is completed, leaves
    nothing of the run to act on, and nothing of it comes back: whatever
    late events of the finished run follow, the clip list stays empty, the
    status stays the empty [idle] one and there is no download, so that the
    component shows neither "Start Merge" nor the progress panel nor the
    download section, and "Start Merge" and the download handler do
    nothing. *)
Theorem startOver_after_completed_run rt fs evs evs' :
  state (status (run rt fs evs)) = completed ->
  let st := exec rt (startOver (run rt fs evs)) evs' in
  files st = [] /\
  status st = {| state := idle; message := ""; progress := 0 |} /\
  downloadUrl st = None /\
  showsStartMerge st = false /\ showsProgress st = false /\
  showsDownload st = false /\
  handleDownload st = None /\ startProcessing rt st = st /\ finish rt st = st.
Proof.
  intros Hc. simpl.
  destruct (completed_over rt fs evs Hc) as [Hov _].
  assert (Hov' : Over (startOver (run rt fs evs))).
  { exact Hov. }
  pose proof (Over_exec rt _ evs' Hov') as Ev.
  pose proof (Over_view _ _ Ev Hov') as (_ & _ & Hq & _).
  rewrite startOver_view in Ev. unfold over_view in Ev.
  injection Ev as Es Ed _ _ _ _.
  pose proof (static_exec rt (startOver (run rt fs evs)) evs') as Hs.
  unfold static in Hs. injection Hs as Hf _ _. simpl in Hf.
  unfold showsStartMerge, showsProgress, showsDownload, handleDownload,
    startProcessing, finish.
  by rewrite Hf, Es, Ed, Hq.
Qed.

Lemma startOver_after_completed_run_witness :
  let evs := plays 0 ++ [EvRecorderStop] in
  state (status (run sample_runtime [clip_a] evs)) = completed /\
  showsDownload
    (exec sample_runtime (startOver (run sample_runtime [clip_a] evs))
       [EvEnded 0; EvDataAvailable {| bytes := [Byte.x01]; blobType := "" |};
        EvRecorderStop]) = false.
Proof.
  intros evs.
  assert (Hc : state (status (run sample_runtime [clip_a] evs)) = completed)
    by (vm_compute; reflexivity).
  split; [exact Hc|].
  by destruct (startOver_after_completed_run sample_runtime [clip_a] evs
                 [EvEnded 0;
                  EvDataAvailable {| bytes := [Byte.x01]; blobType := "" |};
                  EvRecorderStop] Hc)
    as (_ & _ & _ & _ & _ & ? & _).
Defined.

(** ** The cancelled run *)

Lemma concat_kept ds :
  concat (bytes <$> filter nonempty ds) = concat (bytes <$> ds).
Proof.
  induction ds as [|d ds IH]; [done|].
  destruct (nonempty d) eqn:E.
  - rewrite filter_cons_True by (by rewrite E).
    rewrite !fmap_cons. cbn [concat]. by rewrite IH.
  - rewrite filter_cons_False by (rewrite E; by intros []).
    rewrite IH, fmap_cons. cbn [concat].
    unfold nonempty, size in E. apply Nat.ltb_ge in E.
    destruct (bytes d); [done | simpl in E; lia].
Qed.

Lemma resumed_split evs :
  (Forall (fun e => is_resume_event e = false) evs /\ resumed evs = []) \/
  exists evs1 r, evs = evs1 ++ EvResume r :: resumed evs /\
                 Forall (fun e => is_resume_event e = false) evs1.
Proof.
  induction evs as [|e evs IH]; [by left|].
  destruct (is_resume_event e) eqn:E.
  - right. destruct e; try done. by exists [], res.
  - destruct IH as [[H1 H2]|(evs1 & r & H1 & H2)].
    + left. split; [by constructor|]. by destruct e.
    + right. exists (e :: evs1), r. split; [|by constructor].
      destruct e; try done; simpl; by rewrite <- H1.
Qed.

Lemma rec_view_after_resume rt st :
  context2d rt = true ->
  rec_view (after_resume rt st) = (Some (finalMimeType st), [], downloadUrl st).
Proof.
  intros Hx. unfold after_resume. rewrite Hx. simpl negb. cbv iota.
  by rewrite rec_view_loop_from.
Qed.

(** The chunks a run holds that got past [await audioCtx.resume()] in a
    state [st], after the events [evs] that followed. *)
Lemma rec_view_resumed rt st evs :
  videos st = [] -> mediaRecorder st = None -> stopQueued st = false ->
  downloadUrl st = None -> Inv (after_resume rt st) ->
  Forall (fun e => is_stop_event e = false) evs ->
  is_Some (mediaRecorder (exec rt (after_resume rt st) evs)) ->
  rec_view (exec rt (after_resume rt st) evs)
  = (Some (finalMimeType st), filter nonempty (datas evs), None).
Proof.
  intros Hv Hr Hq Hd Hinv Hevs Hsome.
  destruct (context2d rt) eqn:Hx.
  - pose proof (rec_view_after_resume rt st Hx) as H. rewrite Hd in H.
    by rewrite (rec_view_exec rt _ evs _ _ Hinv H Hevs).
  - exfalso. unfold after_resume in Hsome. rewrite Hx in Hsome.
    simpl negb in Hsome. cbv iota in Hsome.
    destruct (FailedEarly_catch_block
                (ErrObject "Could not get canvas context") st)
      as (F & _); try done.
    destruct (FailedEarly_exec rt _ _ evs F) as ((_ & _ & Hn & _) & _).
    rewrite Hn in Hsome. by destruct Hsome.
Qed.

Lemma selected_of_guard rt fs :
  fs = [] \/ canvasMounted rt = false ->
  startProcessing rt (selected fs) = selected fs.
Proof.
  intros [->|Hc]; [done|]. unfold startProcessing. rewrite Hc. simpl.
  by rewrite orb_true_r.
Qed.

(** The format, the chunks and the download of a run that has a recorder and
    whose [stop] event is still to come. *)
Lemma rec_view_run rt fs evs :
  is_Some (mediaRecorder (run rt fs evs)) ->
  Forall (fun e => is_stop_event e = false) evs ->
  rec_view (run rt fs evs)
  = (Some (snd (getSupportedMimeType rt)), filter nonempty (emitted rt evs),
     None).
Proof.
  intros Hsome Hevs.
  destruct (decide (fs = [])) as [Hfs|Hfs].
  { exfalso. unfold run in Hsome.
    rewrite selected_of_guard, exec_idle in Hsome by auto.
    by destruct Hsome. }
  destruct (canvasMounted rt) eqn:Hc.
  2: { exfalso. unfold run in Hsome.
       rewrite selected_of_guard, exec_idle in Hsome by auto.
       by destruct Hsome. }
  pose proof (static_startProcessing rt (selected fs)) as Hst.
  simpl in Hst. specialize (Hst Hfs Hc).
  pose proof (Inv_startProcessing rt _ (Inv_selected fs) eq_refl) as Hinv.
  unfold emitted. destruct (audioSuspended rt) eqn:Ha.
  - destruct (Waiting_startProcessing rt fs Hfs Hc Ha) as (W0 & _ & _).
    destruct (resumed_split evs) as [[Hn _]|(evs1 & r & Hsplit & Hn)].
    { exfalso.
      destruct (Waiting_exec rt _ evs W0 Hn) as ((_ & _ & Hr & _) & _).
      unfold run in Hsome. rewrite Hr in Hsome. by destruct Hsome. }
    generalize dependent (resumed evs). intros evs2 ->.
    apply Forall_app in Hevs as [_ Hevs]. apply Forall_cons in Hevs as [_ Hevs].
    destruct (Waiting_exec rt _ evs1 W0 Hn) as ((Hp & Hv & Hr & Hq & Hd) & _).
    pose proof (Inv_exec rt _ evs1 Hinv) as Hinv1.
    pose proof (static_exec rt (startProcessing rt (selected fs)) evs1) as Hs1.
    rewrite Hst in Hs1. unfold static in Hs1. injection Hs1 as _ _ Hm.
    unfold run in *. rewrite exec_app in Hsome |- *.
    set (s1 := exec rt (startProcessing rt (selected fs)) evs1) in *.
    change (exec rt s1 (EvResume r :: evs2))
      with (exec rt (step rt s1 (EvResume r)) evs2) in Hsome |- *.
    pose proof (Inv_step rt s1 (EvResume r) Hinv1) as Hinv2.
    unfold step in Hsome, Hinv2 |- *. rewrite Hp in Hsome, Hinv2 |- *.
    destruct r as [err|].
    + exfalso.
      destruct (FailedEarly_catch_block err s1) as (F & _); try done.
      destruct (FailedEarly_exec rt _ _ evs2 F) as ((_ & _ & Hn' & _) & _).
      rewrite Hn' in Hsome. by destruct Hsome.
    + rewrite rec_view_resumed; try done. simpl. by rewrite Hm.
  - unfold run in *. unfold static in Hst. injection Hst as _ _ Hm.
    revert Hsome Hinv Hm. unfold startProcessing. rewrite Hc, Ha.
    destruct fs as [|f fs]; [done|]. simpl orb. cbv iota.
    destruct (getSupportedMimeType rt) as [queries mime]. simpl snd.
    intros Hsome Hinv Hm. by rewrite rec_view_resumed.
Qed.

Lemma Uncancelled_keep st st' acts :
  log st' = log st ++ acts -> Forall (fun a => is_break a = false) acts ->
  pc st' = pc st -> processingRef st' = processingRef st ->
  Uncancelled st -> Uncancelled st'.
Proof.
  intros El Hf Hp Hr [Hl Hc]. unfold Uncancelled.
  rewrite El, Hp, Hr. split; [by apply Forall_app|done].
Qed.

Lemma Uncancelled_quiet st st' : quiet st st' -> Uncancelled st -> Uncancelled st'.
Proof.
  intros []. destruct q_log0 as (acts & El & Hq).
  apply (Uncancelled_keep st st' acts); try done.
  eapply Forall_impl; [exact Hq|]. by intros [].
Qed.

Lemma Uncancelled_after_loop st :
  Forall (fun a => is_break a = false) (log st) -> Uncancelled (after_loop st).
Proof.
  intros Hl. unfold after_loop, recorder_stop.
  destruct (mediaRecorder st) as [r|]; [destruct (recState r)|];
    split; simpl; auto.
  apply Forall_app. split; [done | by repeat constructor].
Qed.

Lemma Uncancelled_catch_block err st :
  Forall (fun a => is_break a = false) (log st) ->
  Uncancelled (catch_block err st).
Proof.
  intros Hl. unfold catch_block, recorder_stop. simpl.
  destruct (mediaRecorder st) as [r|]; [destruct (recState r)|];
    split; simpl; auto;
    repeat (apply Forall_app; split); try done; by repeat constructor.
Qed.

Lemma Uncancelled_loop_from j st :
  Forall (fun a => is_break a = false) (log st) -> processingRef st = true ->
  Uncancelled (loop_from j st).
Proof.
  intros Hl Hr. unfold loop_from.
  destruct (files st !! j) as [file|]; [|by apply Uncancelled_after_loop].
  rewrite Hr. simpl. split; simpl; [|by right].
  repeat (apply Forall_app; split); try done; by repeat constructor.
Qed.

Lemma Uncancelled_step rt st e :
  Inv st -> Uncancelled st -> is_cancel e = false ->
  Uncancelled (step rt st e).
Proof.
  intros Hinv H He.
  destruct (step_shape rt st e)
    as [e st' Hqu|v vid st1 Hv Hqu Hl|v vid st1 Hv Hqu Hl
       |v vid err st1 Hv Hqu Hl|v|Hpc|err Hpc|d|Hsq|]; try done.
  - by eapply Uncancelled_quiet.
  - destruct (Uncancelled_quiet _ _ Hqu H) as [Hl1 Hc1].
    destruct (resolve_cases v st1 (Inv_quiet _ _ Hqu Hinv))
      as [-> | (Hp & _ & ->)]; [done|].
    apply Uncancelled_loop_from.
    + simpl. apply Forall_app. split; [done | by repeat constructor].
    + destruct Hc1 as [Hc1|Hc1]; [congruence | done].
  - destruct (Uncancelled_quiet _ _ Hqu H) as [Hl1 Hc1].
    destruct (reject_cases v
                (ErrString ("Error playing file " +:+ name (vfile vid))) st1
                (Inv_quiet _ _ Hqu Hinv)) as [-> | (_ & _ & ->)]; [done|].
    apply Uncancelled_catch_block. simpl.
    apply Forall_app. split; [done | by repeat constructor].
  - destruct (Uncancelled_quiet _ _ Hqu H) as [Hl1 Hc1].
    destruct (reject_cases v err st1 (Inv_quiet _ _ Hqu Hinv))
      as [-> | (_ & _ & ->)]; [done|].
    apply Uncancelled_catch_block. simpl.
    apply Forall_app. split; [done | by repeat constructor].
  - unfold onloadedmetadata. destruct (videos st !! v) as [vid|]; [|done].
    destruct (negb _).
    + by eapply (Uncancelled_keep st _ [ASetCanvasSize v _ _]);
        [| repeat constructor | | |].
    + eapply (Uncancelled_keep st _ []); try done. simpl.
      by rewrite app_nil_r.
  - destruct H as [Hl [Hc|Hc]]; [congruence|].
    unfold after_resume. destruct (negb (context2d rt)).
    + by apply Uncancelled_catch_block.
    + apply Uncancelled_loop_from; [|done]. simpl.
      repeat (apply Forall_app; split); try done; by repeat constructor.
  - destruct H as [Hl _]. by apply Uncancelled_catch_block.
  - unfold ondataavailable. destruct (mediaRecorder st); [|done].
    destruct (0 <? size d)%nat; [|done].
    eapply (Uncancelled_keep st _ []); try done. simpl. by rewrite app_nil_r.
  - pose proof (Inv_returned_of_queued st Hinv Hsq) as Hp.
    destruct H as [Hl _]. unfold onstop. simpl.
    destruct (mediaRecorder st) as [r|]; [|by split; [|left]].
    destruct (audioContextRef st) as [[]|]; split; simpl; auto;
      repeat (apply Forall_app; split); try done; by repeat constructor.
Qed.

Lemma Uncancelled_exec rt st evs :
  Inv st -> Uncancelled st -> Forall (fun e => is_cancel e = false) evs ->
  Uncancelled (exec rt st evs).
Proof.
  intros Hinv H Hevs. revert st Hinv H.
  induction Hevs as [|e evs He _ IH]; intros st Hinv H; [done|].
  change (exec rt st (e :: evs)) with (exec rt (step rt st e) evs).
  apply IH; [by apply Inv_step | by apply Uncancelled_step].
Qed.

Lemma Uncancelled_startProcessing rt fs :
  fs <> [] -> canvasMounted rt = true ->
  Uncancelled (startProcessing rt (selected fs)).
Proof.
  intros Hfs Hc. unfold startProcessing. rewrite Hc.
  destruct fs as [|f fs]; [done|]. simpl orb. cbv iota.
  assert (Hq : Forall (fun a => is_break a = false)
                 (fst (getSupportedMimeType rt))).
  { unfold getSupportedMimeType.
    repeat destruct (isTypeSupported rt _); by repeat constructor. }
  destruct (getSupportedMimeType rt) as [queries mime]. simpl in Hq.
  assert (H0 : Forall (fun a => is_break a = false)
                 (([ASetStatus {| state := processing;
                      message := "Initializing processing engine...";
                      progress := 0 |}] ++ queries)
                  ++ [AConsoleLog ("Using format: " +:+ mime)])).
  { repeat (apply Forall_app; split); try done; by repeat constructor. }
  destruct (audioSuspended rt); [split; [exact H0 | by right]|].
  unfold after_resume. destruct (negb (context2d rt)).
  - by apply Uncancelled_catch_block.
  - apply Uncancelled_loop_from; [|done]. simpl. constructor; [done|].
    repeat (apply Forall_app; split); try done; by repeat constructor.
Qed.

(** The loop is left at the cancellation check only if the flag was cleared
    by a cancellation. *)
Lemma break_is_cancelled rt fs evs j :
  ABreak j ∈ log (run rt fs evs) -> EvCancel ∈ evs.
Proof.
  intros Hb.
  assert (Hdec : Forall (fun e => is_cancel e = false) evs \/ EvCancel ∈ evs).
  { clear. induction evs as [|e evs [IH|IH]].
    - left. constructor.
    - destruct e; try (left; by constructor). right. apply list_elem_of_here.
    - right. by apply list_elem_of_further. }
  destruct Hdec as [Hn|]; [exfalso|done].
  assert (H : Forall (fun a => is_break a = false) (log (run rt fs evs))).
  { destruct (decide (fs = [])) as [Hfs|Hfs];
      [unfold run; rewrite selected_of_guard, exec_idle by auto; constructor|].
    destruct (canvasMounted rt) eqn:Hc;
      [|unfold run; rewrite selected_of_guard, exec_idle by auto; constructor].
    apply Uncancelled_exec; [| |done].
    - by apply Inv_startProcessing; [apply Inv_selected|].
    - by apply Uncancelled_startProcessing. }
  apply (proj1 (Forall_forall _ _) H) in Hb. done.
Qed.

(** C10: a run whose loop was left at the cancellation check, which happens
    only after a cancellation cleared the flag, settles in [completed] with
    progress 100 and a download, without an [error] status ever published:
    the recorder is stopped after the loop, and when its [stop] event is
    delivered after the events [evs] the merged file behind the download
    holds, under the negotiated format, the bytes of the chunks the recorder
    emitted in the course of [evs], in the order of their emission.  Nothing
    that happens after the [stop] event changes the status or the file.
    [onstop] itself does not look at how the run went: in any state it
    makes a file of the chunks gathered and publishes [completed]. *)
Theorem C10_cancelled_run_settles_completed rt fs evs j :
  ABreak j ∈ log (run rt fs evs) ->
  let st := finish rt (run rt fs evs) in
  EvCancel ∈ evs /\
  ARecorderStop ∈ log st /\
  status st = completed_status /\
  clean (log st) /\
  (exists b,
     downloadUrl st = Some b /\
     (Forall (fun e => is_stop_event e = false) evs ->
      bytes b = concat (bytes <$> emitted rt evs) /\
      blobType b = snd (getSupportedMimeType rt))) /\
  (forall evs',
     status (run rt fs (evs ++ EvRecorderStop :: evs')) = completed_status /\
     downloadUrl (run rt fs (evs ++ EvRecorderStop :: evs')) = downloadUrl st) /\
  (forall s r,
     mediaRecorder s = Some r ->
     exists b, downloadUrl (onstop s) = Some b /\
               bytes b = concat (bytes <$> chunks s) /\
               blobType b = recMimeType r /\
               status (onstop s) = completed_status).
Proof.
  intros Hb. destruct (h_break _ _ (Hist_run rt fs evs) j Hb) as [Hs _].
  destruct (stopped_run_completes rt fs evs Hs) as (HH & Hsub & Hst & Hd).
  simpl. split; [by eapply break_is_cancelled|].
  split; [by apply Hsub|]. split; [done|].
  split; [by apply (h_break _ _ HH j), Hsub|].
  split; [|split].
  - destruct Hd as [b Hd]. exists b. split; [done|]. intros Hevs.
    destruct (h_stop _ _ (Hist_run rt fs evs) Hs) as [Hsome Hq].
    pose proof (rec_view_run rt fs evs Hsome Hevs) as Hv.
    unfold rec_view in Hv. injection Hv as Hr Hch Hnone.
    destruct Hq as [Hq|[_ [b' Hb']]]; [|congruence].
    rewrite finish_spec, Hq in Hd.
    destruct (mediaRecorder (run rt fs evs)) as [r|] eqn:Er; [|done].
    destruct (onstop_assembles (set_stopQueued false (run rt fs evs)) r Er)
      as [Hd' _].
    rewrite Hd' in Hd. injection Hd as <-. simpl in Hr. injection Hr as ->.
    simpl. by rewrite Hch, concat_kept.
  - intros evs'.
    assert (E : run rt fs (evs ++ [EvRecorderStop])
                = finish rt (run rt fs evs)).
    { unfold run. rewrite exec_app. unfold finish. simpl.
      by destruct (stopQueued _). }
    assert (Hc : state (status (run rt fs (evs ++ [EvRecorderStop])))
                 = completed) by (by rewrite E, Hst).
    destruct (completed_over rt fs _ Hc) as [Hov _].
    pose proof (Over_exec rt _ evs' Hov) as Ev.
    unfold over_view in Ev. injection Ev as Es Eu _ _ _ _.
    replace (evs ++ EvRecorderStop :: evs')
      with ((evs ++ [EvRecorderStop]) ++ evs') by by rewrite <- app_assoc.
    unfold run in *. rewrite (exec_app rt _ (evs ++ [EvRecorderStop]) evs').
    rewrite Es, Eu, E. done.
  - intros s r Hr. destruct (onstop_assembles s r Hr) as [Hu Hc].
    eexists. split; [exact Hu|]. done.
Qed.

Lemma C10_cancelled_run_settles_completed_witness :
  let d1 := {| bytes := [Byte.x01; Byte.x02]; blobType := "video/mp4" |} in
  let d0 := {| bytes := []; blobType := "video/mp4" |} in
  let d2 := {| bytes := [Byte.x03]; blobType := "video/mp4" |} in
  let evs := [EvLoadedMetadata 0; EvCanPlay 0 AudioOk; EvDataAvailable d1;
              EvCancel; EvPlaySettled 0 None; EvDataAvailable d0; EvEnded 0;
              EvDataAvailable d2] in
  ABreak 1 ∈ log (run sample_runtime [clip_a; clip_b] evs) /\
  Forall (fun e => is_stop_event e = false) evs /\
  status (finish sample_runtime (run sample_runtime [clip_a; clip_b] evs))
  = completed_status /\
  exists b,
    downloadUrl (finish sample_runtime
                   (run sample_runtime [clip_a; clip_b] evs)) = Some b /\
    bytes b = [Byte.x01; Byte.x02; Byte.x03] /\
    blobType b = PREFERRED_FORMAT.
Proof.
  intros d1 d0 d2 evs.
  assert (Hb : ABreak 1 ∈ log (run sample_runtime [clip_a; clip_b] evs)).
  { vm_compute.
    repeat first [ apply list_elem_of_here | apply list_elem_of_further ]. }
  assert (Hev : Forall (fun e => is_stop_event e = false) evs)
    by (repeat constructor).
  split; [exact Hb|]. split; [exact Hev|].
  destruct (C10_cancelled_run_settles_completed sample_runtime
              [clip_a; clip_b] evs 1%nat Hb)
    as (_ & _ & Hst & _ & (b & Hd & Hbytes) & _).
  split; [exact Hst|]. exists b. split; [exact Hd|]. exact (Hbytes Hev).
Defined.

(** X13: whatever made a run stop its recorder (the end of the clip list, a
    cancellation or a failed session), no download exists before the
    recorder's [stop] event is delivered, and the merged file made when it
    is delivered holds, under the negotiated format, the bytes of all the
    chunks the recorder emitted until then, in the order of their
    emission. *)
Theorem merged_file_holds_recorded_chunks rt fs evs :
  Forall (fun e => is_stop_event e = false) evs ->
  ARecorderStop ∈ log (run rt fs evs) ->
  downloadUrl (run rt fs evs) = None /\
  exists b, downloadUrl (finish rt (run rt fs evs)) = Some b /\
            bytes b = concat (bytes <$> emitted rt evs) /\
            blobType b = snd (getSupportedMimeType rt).
Proof.
  intros Hevs Hs.
  destruct (h_stop _ _ (Hist_run rt fs evs) Hs) as [Hsome Hq].
  pose proof (rec_view_run rt fs evs Hsome Hevs) as Hv.
  unfold rec_view in Hv. injection Hv as Hr Hch Hnone.
  split; [done|].
  destruct Hq as [Hq|[_ [b' Hb']]]; [|congruence].
  rewrite finish_spec, Hq.
  destruct (mediaRecorder (run rt fs evs)) as [r|] eqn:Er; [|done].
  destruct (onstop_assembles (set_stopQueued false (run rt fs evs)) r Er)
    as [Hd' _].
  eexists. split; [exact Hd'|]. simpl in Hr. injection Hr as ->.
  simpl. by rewrite Hch, concat_kept.
Qed.

Lemma merged_file_holds_recorded_chunks_witness :
  let d1 := {| bytes := [Byte.x01; Byte.x02]; blobType := "video/mp4" |} in
  let d2 := {| bytes := [Byte.x03]; blobType := "video/mp4" |} in
  let evs := [EvLoadedMetadata 0; EvDataAvailable d1; EvError 0;
              EvDataAvailable d2] in
  Forall (fun e => is_stop_event e = false) evs /\
  ARecorderStop ∈ log (run sample_runtime [clip_a] evs) /\
  exists b,
    downloadUrl (finish sample_runtime (run sample_runtime [clip_a] evs))
    = Some b /\
    bytes b = [Byte.x01; Byte.x02; Byte.x03].
Proof.
  intros d1 d2 evs.
  assert (Hev : Forall (fun e => is_stop_event e = false) evs)
    by (repeat constructor).
  assert (Hstop : ARecorderStop ∈ log (run sample_runtime [clip_a] evs)).
  { vm_compute.
    repeat first [ apply list_elem_of_here | apply list_elem_of_further ]. }
  split; [exact Hev|]. split; [exact Hstop|].
  destruct (merged_file_holds_recorded_chunks sample_runtime [clip_a] evs
              Hev Hstop) as (_ & b & Hd & Hb & _).
  exists b. split; [exact Hd | exact Hb].
Defined.

(** ** Teardown *)



















(** ** Starting playback *)

Lemma calm_refl st : calm st st.
Proof. by repeat split. Qed.

Lemma calm_trans st1 st2 st3 : calm st1 st2 -> calm st2 st3 -> calm st1 st3.
Proof.
  intros (P1 & W1 & A1) (P2 & W2 & A2). repeat split; try congruence.
  by etrans.
Qed.

Lemma calm_emit acts st :
  played acts = [] -> wired acts = [] -> calm st (emit acts st).
Proof.
  intros Hp Hw. unfold calm, played, wired in *. simpl.
  rewrite !omap_app, Hp, Hw, !app_nil_r. done.
Qed.

Lemma calm_update_video v f st :
  (forall x, oncanplay (f x) = oncanplay x) -> calm st (update_video v f st).
Proof.
  intros H. repeat split. unfold armed. simpl.
  by rewrite fmap_alter_keep.
Qed.

(** Setters that leave the log and the sessions alone. *)
Lemma frame_set_status x st :
  log (set_status x st) = log st /\ videos (set_status x st) = videos st.
Proof. done. Qed.

Lemma frame_set_downloadUrl x st :
  log (set_downloadUrl x st) = log st /\ videos (set_downloadUrl x st) = videos st.
Proof. done. Qed.

Lemma frame_set_finalMimeType x st :
  log (set_finalMimeType x st) = log st /\ videos (set_finalMimeType x st) = videos st.
Proof. done. Qed.

Lemma frame_set_processingRef x st :
  log (set_processingRef x st) = log st /\ videos (set_processingRef x st) = videos st.
Proof. done. Qed.

Lemma frame_set_audioContextRef x st :
  log (set_audioContextRef x st) = log st /\ videos (set_audioContextRef x st) = videos st.
Proof. done. Qed.

Lemma frame_set_canvas x st :
  log (set_canvas x st) = log st /\ videos (set_canvas x st) = videos st.
Proof. done. Qed.

Lemma frame_set_mediaRecorder x st :
  log (set_mediaRecorder x st) = log st /\ videos (set_mediaRecorder x st) = videos st.
Proof. done. Qed.

Lemma frame_set_chunks x st :
  log (set_chunks x st) = log st /\ videos (set_chunks x st) = videos st.
Proof. done. Qed.

Lemma frame_set_dimensionsSet x st :
  log (set_dimensionsSet x st) = log st /\ videos (set_dimensionsSet x st) = videos st.
Proof. done. Qed.

Lemma frame_set_pc x st :
  log (set_pc x st) = log st /\ videos (set_pc x st) = videos st.
Proof. done. Qed.

Lemma frame_set_stopQueued x st :
  log (set_stopQueued x st) = log st /\ videos (set_stopQueued x st) = videos st.
Proof. done. Qed.

Lemma frame_set_nextRequestId x st :
  log (set_nextRequestId x st) = log st /\ videos (set_nextRequestId x st) = videos st.
Proof. done. Qed.

Ltac frame_of f :=
  lazymatch f with
  | set_status => constr:(frame_set_status)
  | set_downloadUrl => constr:(frame_set_downloadUrl)
  | set_finalMimeType => constr:(frame_set_finalMimeType)
  | set_processingRef => constr:(frame_set_processingRef)
  | set_audioContextRef => constr:(frame_set_audioContextRef)
  | set_canvas => constr:(frame_set_canvas)
  | set_mediaRecorder => constr:(frame_set_mediaRecorder)
  | set_chunks => constr:(frame_set_chunks)
  | set_dimensionsSet => constr:(frame_set_dimensionsSet)
  | set_pc => constr:(frame_set_pc)
  | set_stopQueued => constr:(frame_set_stopQueued)
  | set_nextRequestId => constr:(frame_set_nextRequestId)
  end.

Lemma calm_same st st' :
  log st' = log st /\ videos st' = videos st -> calm st st'.
Proof. intros [El Ev]. unfold calm, armed. by rewrite El, Ev. Qed.

Ltac calm_chain :=
  repeat match goal with
  | |- calm ?a ?b => constr_eq a b; apply calm_refl
  | |- calm ?a (emit _ ?s) =>
      apply (calm_trans a s); [|apply calm_emit; reflexivity]
  | |- calm ?a (update_video _ _ ?s) =>
      apply (calm_trans a s);
        [|apply calm_update_video; intros []; reflexivity]
  | |- calm ?a (setStatus _ ?s) => unfold setStatus
  | |- calm ?a (?f ?x ?s) =>
      let l := frame_of f in
      apply (calm_trans a s); [|apply calm_same; exact (l x s)]
  end.

Lemma calm_recorder_stop st : calm st (recorder_stop st).
Proof. unfold recorder_stop. repeat case_match; calm_chain. Qed.

Lemma calm_after_loop st : calm st (after_loop st).
Proof. unfold after_loop. calm_chain. apply calm_recorder_stop. Qed.

Lemma calm_catch_block err st : calm st (catch_block err st).
Proof.
  unfold catch_block. calm_chain.
  eapply calm_trans; [|apply calm_recorder_stop]. calm_chain.
Qed.

Lemma calm_loop_from i st : calm st (loop_from i st).
Proof.
  unfold loop_from. repeat case_match.
  - eapply calm_trans; [|apply calm_after_loop]. calm_chain.
  - calm_chain.
    match goal with |- calm ?a (set_videos _ ?s) =>
      apply (calm_trans a s); [|repeat split] end.
    + calm_chain.
    + unfold armed. simpl. rewrite fmap_app. by apply prefix_app_r.
  - apply calm_after_loop.
Qed.

Lemma calm_after_resume rt st : calm st (after_resume rt st).
Proof.
  unfold after_resume. case_match; [apply calm_catch_block|].
  eapply calm_trans; [|apply calm_loop_from]. calm_chain.
Qed.

Lemma calm_resolve v st : calm st (resolve v st).
Proof.
  unfold resolve. repeat case_match; calm_chain.
  eapply calm_trans; [|apply calm_loop_from]. calm_chain.
Qed.

Lemma calm_reject v e st : calm st (reject v e st).
Proof.
  unfold reject. repeat case_match; calm_chain.
  eapply calm_trans; [|apply calm_catch_block]. calm_chain.
Qed.

Lemma calm_cleanup v st : calm st (cleanup v st).
Proof. unfold cleanup. repeat case_match; calm_chain. Qed.

Lemma calm_drawFrame v st : calm st (drawFrame v st).
Proof. unfold drawFrame. repeat case_match; calm_chain. Qed.

Lemma calm_onstop st : calm st (onstop st).
Proof. unfold onstop. repeat case_match; calm_chain. Qed.

(** Every handler but [oncanplay] is calm. *)
Lemma calm_step rt st e :
  (forall v audio, e <> EvCanPlay v audio) -> calm st (step rt st e).
Proof.
  intros He. destruct e; unfold step.
  - repeat case_match; calm_chain.
    + apply calm_catch_block.
    + eapply calm_trans; [|apply calm_after_resume]. calm_chain.
  - unfold onloadedmetadata. repeat case_match; calm_chain.
  - by destruct (He v audio).
  - unfold play_settled. repeat case_match; calm_chain.
    + eapply calm_trans; [|apply calm_reject].
      eapply calm_trans; [|apply calm_cleanup]. calm_chain.
    + eapply calm_trans; [|apply calm_drawFrame]. calm_chain.
  - unfold animation_frame. repeat case_match; calm_chain.
    eapply calm_trans; [|apply calm_drawFrame]. calm_chain.
  - unfold onended. case_match; calm_chain.
    eapply calm_trans; [|apply calm_resolve].
    eapply calm_trans; [|apply calm_cleanup]. calm_chain.
  - unfold onerror. case_match; calm_chain.
    eapply calm_trans; [|apply calm_reject]. apply calm_cleanup.
  - unfold ondataavailable. repeat case_match; calm_chain.
  - case_match; calm_chain.
    eapply calm_trans; [|apply calm_onstop]. calm_chain.
  - calm_chain.
Qed.

Lemma PlayOnce_calm st st' : calm st st' -> PlayOnce st -> PlayOnce st'.
Proof.
  intros (Hp & Hw & Ha) (N1 & N2 & H). unfold PlayOnce. rewrite Hp, Hw.
  split; [done|]. split; [done|]. intros v Hv.
  eapply prefix_lookup_Some; [by apply H | done].
Qed.

Lemma played_emit acts st :
  played (log (emit acts st)) = played (log st) ++ played acts.
Proof. apply omap_app. Qed.

Lemma wired_emit acts st :
  wired (log (emit acts st)) = wired (log st) ++ wired acts.
Proof. apply omap_app. Qed.

Lemma log_update_video v f st : log (update_video v f st) = log st.
Proof. done. Qed.

Lemma armed_emit acts st : armed (emit acts st) = armed st.
Proof. done. Qed.

Lemma armed_update_keep v f st :
  (forall x, oncanplay (f x) = oncanplay x) ->
  armed (update_video v f st) = armed st.
Proof. intros H. unfold armed. simpl. by apply fmap_alter_keep. Qed.

Lemma armed_update_set v b st :
  armed (update_video v (with_oncanplay b) st)
  = alter (fun _ => b) v (armed st).
Proof. unfold armed. simpl. by apply fmap_alter_set. Qed.

Lemma PlayOnce_oncanplay v audio st :
  PlayOnce st -> PlayOnce (oncanplay_handler v audio st).
Proof.
  intros (N1 & N2 & H). unfold oncanplay_handler.
  destruct (videos st !! v) as [vid|] eqn:Ev; [|done].
  destruct (oncanplay vid) eqn:Eo; [|done].
  assert (Hv : armed st !! v = Some true).
  { unfold armed. by rewrite list_lookup_fmap, Ev, <- Eo. }
  assert (Hnp : v ∉ played (log st)).
  { intros Hin. rewrite H in Hv by auto. done. }
  assert (Hnw : v ∉ wired (log st)).
  { intros Hin. rewrite H in Hv by auto. done. }
  assert (Ha : forall w, w = v \/ w ∈ played (log st) \/ w ∈ wired (log st) ->
                 alter (fun _ => false) v (armed st) !! w = Some false).
  { intros w [->|Hw].
    - by rewrite list_lookup_alter_eq, Hv.
    - destruct (decide (w = v)) as [->|Hne].
      + by rewrite list_lookup_alter_eq, Hv.
      + rewrite list_lookup_alter_ne by done. apply H. tauto. }
  assert (Hd : forall l, v ∉ l -> NoDup l -> NoDup (l ++ [v])).
  { intros l Hl Hn. apply NoDup_app. split; [done|]. split.
    - intros x Hx ->%list_elem_of_singleton. done.
    - apply NoDup_singleton. }
  destruct audio; cbv zeta; unfold PlayOnce;
    rewrite ?played_emit, ?wired_emit, ?log_update_video, ?armed_emit;
    rewrite ?armed_update_keep by (intros []; reflexivity);
    rewrite ?played_emit, ?wired_emit, ?log_update_video, ?armed_emit;
    rewrite ?armed_update_keep by (intros []; reflexivity);
    rewrite ?log_update_video, armed_update_set; simpl played; simpl wired;
    rewrite ?app_nil_r.
  - split; [by apply Hd|]. split; [by apply Hd|]. intros w Hw. apply Ha.
    revert Hw. rewrite !elem_of_app, !list_elem_of_singleton. tauto.
  - split; [by apply Hd|]. split; [done|]. intros w Hw. apply Ha.
    revert Hw. rewrite !elem_of_app, !list_elem_of_singleton. tauto.
  - split; [by apply Hd|]. split; [done|]. intros w Hw. apply Ha.
    revert Hw. rewrite !elem_of_app, !list_elem_of_singleton. tauto.
Qed.

Lemma PlayOnce_step rt st e : PlayOnce st -> PlayOnce (step rt st e).
Proof.
  intros H. destruct e; try (by eapply PlayOnce_calm; [apply calm_step|]).
  by apply PlayOnce_oncanplay.
Qed.

Lemma PlayOnce_exec rt st evs : PlayOnce st -> PlayOnce (exec rt st evs).
Proof.
  revert st. induction evs as [|e evs IH]; intros st H; [done|].
  change (exec rt st (e :: evs)) with (exec rt (step rt st e) evs).
  by apply IH, PlayOnce_step.
Qed.

Lemma calm_startProcessing rt st : calm st (startProcessing rt st).
Proof.
  unfold startProcessing. case_match; [apply calm_refl|].
  destruct (getSupportedMimeType rt) as [queries mimeType] eqn:Hm.
  assert (Hq : played queries = [] /\ wired queries = []).
  { unfold getSupportedMimeType in Hm.
    repeat destruct (isTypeSupported rt _); by simplify_eq. }
  destruct Hq as [Hq1 Hq2].
  case_match.
  - calm_chain. apply (calm_trans st _ _ (calm_refl st)).
    match goal with |- calm ?a (emit queries ?s) =>
      apply (calm_trans a s); [calm_chain | by apply calm_emit] end.
  - eapply calm_trans; [|apply calm_after_resume]. calm_chain.
    match goal with |- calm ?a (emit queries ?s) =>
      apply (calm_trans a s); [calm_chain | by apply calm_emit] end.
Qed.

(** X15: the guard of [oncanplay] against double triggering works: in
    every run, whatever the browser fires and however often, [video.play()]
    is called at most once on the element of each session, and an audio
    source is created and connected at most once for it. *)
Theorem playback_starts_once_per_session rt fs evs :
  let st := finish rt (run rt fs evs) in
  NoDup (played (log st)) /\ NoDup (wired (log st)) /\
  played (log (run rt fs evs)) = played (log st) /\
  wired (log (run rt fs evs)) = wired (log st).
Proof.
  simpl.
  assert (H : PlayOnce (run rt fs evs)).
  { apply PlayOnce_exec. eapply PlayOnce_calm; [apply calm_startProcessing|].
    repeat split; try apply NoDup_nil_2.
    intros v [Hv|Hv]; by apply elem_of_nil in Hv. }
  assert (Hc : calm (run rt fs evs) (finish rt (run rt fs evs))).
  { destruct (finish_as_step rt (run rt fs evs)) as [-> | ->];
      [apply calm_refl | by apply calm_step]. }
  destruct (PlayOnce_calm _ _ Hc H) as (N1 & N2 & _).
  destruct Hc as (Hp & Hw & _). done.
Qed.

(** ** The life of the recorder *)

Lemma life_app l1 l2 : life (l1 ++ l2) = life l1 ++ life l2.
Proof. apply filter_app. Qed.

Lemma life_none acts :
  Forall (fun a => life_action a = false) acts -> life acts = [].
Proof.
  induction 1 as [|a acts Ha _ IH]; [done|].
  unfold life in *. rewrite filter_cons_False; [done | congruence].
Qed.

(** A change of state that leaves the recorder, the merged file and the
    audio context alone keeps [Life]. *)
Lemma Life_keep m st st' acts :
  life_view st' = life_view st -> log st' = log st ++ acts ->
  Forall (fun a => life_action a = false) acts ->
  Life m st -> Life m st'.
Proof.
  unfold life_view, Life. intros E El Hf.
  injection E as -> -> -> -> ->.
  by rewrite El, life_app, (life_none acts Hf), app_nil_r.
Qed.

Lemma Life_quiet m st st' : quiet st st' -> Life m st -> Life m st'.
Proof.
  intros []. destruct q_log0 as (acts & El & Hq).
  apply (Life_keep m st st' acts); [|done|].
  - unfold life_view. congruence.
  - eapply Forall_impl; [exact Hq|]. by intros [].
Qed.

Lemma Life_recorder_stop m st :
  Life m st -> Life m (recorder_stop st).
Proof.
  unfold recorder_stop. intros [Hm H].
  destruct (mediaRecorder st) as [r|] eqn:Er; [|by split; [|rewrite Er]].
  destruct (recState r) eqn:Es; [by split; [|rewrite Er, Es]|].
  destruct (stopQueued st) eqn:Eq; [by destruct H|].
  destruct H as [Ha Hl]. split; [done|]. simpl.
  split; [done|]. by rewrite life_app, Hl.
Qed.

Lemma Life_after_loop m st : Life m st -> Life m (after_loop st).
Proof. intros H. by apply Life_recorder_stop in H. Qed.

Lemma Life_catch_block m err st : Life m st -> Life m (catch_block err st).
Proof.
  intros H. unfold catch_block.
  match goal with |- Life m (set_pc _ (recorder_stop ?s)) =>
    assert (H' : Life m s) end.
  { eapply (Life_keep m st _ [AConsoleError err; ASetStatus _]);
      [done| |by repeat constructor|done].
    simpl. by rewrite <- app_assoc. }
  by apply Life_recorder_stop in H'.
Qed.

Lemma Life_loop_from m j st : Life m st -> Life m (loop_from j st).
Proof.
  intros H. unfold loop_from.
  destruct (files st !! j) as [file|]; [|by apply Life_after_loop].
  destruct (negb (processingRef st)).
  - apply Life_after_loop.
    by apply (Life_keep m st _ [ABreak j]); [| |repeat constructor|].
  - eapply (Life_keep m st _ [ASetStatus _; ACreateVideo j (name file)]);
      [done| |by repeat constructor|done].
    simpl. by rewrite <- app_assoc.
Qed.

Lemma Life_resolved m v st : Life m st -> Life m (resolved v st).
Proof.
  intros H. by apply (Life_keep m st _ [AResolve v]); [| |repeat constructor|].
Qed.

Lemma Life_rejected m v e st : Life m st -> Life m (rejected v e st).
Proof.
  intros H.
  by apply (Life_keep m st _ [AReject v e]); [| |repeat constructor|].
Qed.

Lemma Life_after_resume m rt st :
  Life m st -> mediaRecorder st = None ->
  audioContextRef st = Some AudioRunning ->
  Life m (after_resume rt st).
Proof.
  intros H Hr Ha. unfold after_resume.
  destruct (negb (context2d rt)); [by apply Life_catch_block|].
  apply Life_loop_from. destruct H as [Hm H]. rewrite Hr in H.
  destruct H as [Hl Hq]. split; [done|]. simpl. rewrite Hq.
  split; [done|]. by rewrite !life_app, Hl, Hm.
Qed.

Lemma Life_onstop m st :
  Life m st -> stopQueued st = true -> Life m (onstop (set_stopQueued false st)).
Proof.
  intros [Hm H] Hq. unfold onstop. simpl.
  destruct (mediaRecorder st) as [r|] eqn:Er.
  2: { destruct H as [_ ?]. congruence. }
  rewrite Hq in H. destruct (recState r) eqn:Es; [|by destruct H].
  destruct H as [Ha Hl]. simpl. rewrite Ha. split; [done|]. simpl.
  rewrite Er, Es. split; [done|]. eexists. split; [done|].
  by rewrite !life_app, Hl.
Qed.

Lemma Life_step m rt st e : Inv st -> Life m st -> Life m (step rt st e).
Proof.
  intros Hinv H.
  destruct (step_shape rt st e)
    as [e st' Hqu|v vid st1 Hv Hqu Hl|v vid st1 Hv Hqu Hl
       |v vid err st1 Hv Hqu Hl|v|Hpc|err Hpc|d|Hsq|].
  - by eapply Life_quiet.
  - pose proof (Life_quiet m _ _ Hqu H) as H1.
    destruct (resolve_cases v st1 (Inv_quiet _ _ Hqu Hinv))
      as [-> | (_ & _ & ->)]; [done|].
    by apply Life_loop_from, Life_resolved.
  - pose proof (Life_quiet m _ _ Hqu H) as H1.
    destruct (reject_cases v
                (ErrString ("Error playing file " +:+ name (vfile vid))) st1
                (Inv_quiet _ _ Hqu Hinv)) as [-> | (_ & _ & ->)]; [done|].
    by apply Life_catch_block, Life_rejected.
  - pose proof (Life_quiet m _ _ Hqu H) as H1.
    destruct (reject_cases v err st1 (Inv_quiet _ _ Hqu Hinv))
      as [-> | (_ & _ & ->)]; [done|].
    by apply Life_catch_block, Life_rejected.
  - unfold onloadedmetadata. destruct (videos st !! v) as [vid|]; [|done].
    destruct (negb _).
    + by eapply (Life_keep m st _ [ASetCanvasSize v _ _]);
        [| |repeat constructor|].
    + eapply (Life_keep m st _ []); [done| |done..]. simpl.
      by rewrite app_nil_r.
  - destruct Hinv as [_ Hp]. rewrite Hpc in Hp. destruct Hp as (_ & Hr & Hq).
    apply Life_after_resume; [|done..].
    destruct H as [Hm H]. rewrite Hr in H. split; [done|]. simpl.
    by rewrite Hr.
  - by apply Life_catch_block.
  - unfold ondataavailable. destruct (mediaRecorder st) eqn:Er; [|done].
    destruct (0 <? size d)%nat; [|done].
    eapply (Life_keep m st _ []); [|simpl; by rewrite app_nil_r|done..].
    unfold life_view. simpl. by rewrite Er.
  - by apply Life_onstop.
  - eapply (Life_keep m st _ []); [done| |done..]. simpl.
    by rewrite app_nil_r.
Qed.

Lemma Life_exec m rt st evs : Inv st -> Life m st -> Life m (exec rt st evs).
Proof.
  revert st. induction evs as [|e evs IH]; intros st Hinv H; [done|].
  change (exec rt st (e :: evs)) with (exec rt (step rt st e) evs).
  apply IH; [by apply Inv_step | by apply Life_step].
Qed.

Lemma Life_startProcessing rt fs :
  fs <> [] -> canvasMounted rt = true ->
  Life (snd (getSupportedMimeType rt)) (startProcessing rt (selected fs)).
Proof.
  intros Hfs Hc. unfold startProcessing. rewrite Hc.
  destruct fs as [|f fs]; [done|]. simpl orb. cbv iota.
  assert (Hq : Forall (fun a => life_action a = false)
                 (fst (getSupportedMimeType rt))).
  { unfold getSupportedMimeType.
    repeat destruct (isTypeSupported rt _); by repeat constructor. }
  destruct (getSupportedMimeType rt) as [queries mime]. simpl in *.
  assert (Hl : life ([ASetStatus {| state := processing;
                        message := "Initializing processing engine...";
                        progress := 0 |}] ++ queries
                     ++ [AConsoleLog ("Using format: " +:+ mime)]) = []).
  { apply life_none. constructor; [done|]. apply Forall_app.
    split; [done | by repeat constructor]. }
  destruct (audioSuspended rt).
  - split; [done|]. simpl. split; [exact Hl | done].
  - apply Life_after_resume; [|done..].
    split; [done|]. simpl. split; [exact Hl | done].
Qed.

(** X16: the recorder, the merged file and the audio context go through
    one life per run, in one order: the recorder is created once, with the
    negotiated format at 5 Mbit/s, and started; it is stopped at most once;
    the merged file is made once, after the stop; the audio context is
    closed once, after that.  Whatever the events, what the log tells of it
    is an initial part of that sequence, and the whole of it once the
    recorder was stopped and the [stop] event delivered. *)
Theorem recorder_has_one_life rt fs evs :
  let st := finish rt (run rt fs evs) in
  let m := snd (getSupportedMimeType rt) in
  (exists b, life (log st) `prefix_of` whole_life m b) /\
  (ARecorderStop ∈ log st ->
   exists b, life (log st) = whole_life m b /\ downloadUrl st = Some b /\
             audioContextRef st = Some AudioClosed).
Proof.
  simpl. set (m := snd (getSupportedMimeType rt)).
  assert (Hidle : run rt fs evs = selected fs ->
            (exists b, life (log (finish rt (run rt fs evs)))
                       `prefix_of` whole_life m b) /\
            (ARecorderStop ∈ log (finish rt (run rt fs evs)) ->
             exists b, life (log (finish rt (run rt fs evs))) = whole_life m b /\
                       downloadUrl (finish rt (run rt fs evs)) = Some b /\
                       audioContextRef (finish rt (run rt fs evs))
                       = Some AudioClosed)).
  { intros ->. split.
    - exists {| bytes := []; blobType := "" |}. apply prefix_nil.
    - intros Hin. by apply elem_of_nil in Hin. }
  destruct (decide (fs = [])) as [->|Hfs].
  { apply Hidle. unfold run.
    change (startProcessing rt (selected [])) with (selected []).
    apply exec_idle. }
  destruct (canvasMounted rt) eqn:Ec.
  2: { apply Hidle. unfold run.
       replace (startProcessing rt (selected fs)) with (selected fs);
         [apply exec_idle|].
       unfold startProcessing. rewrite Ec. simpl. by rewrite orb_true_r. }
  assert (H : Life m (finish rt (run rt fs evs))).
  { assert (H : Life m (run rt fs evs)).
    { apply Life_exec; [|by apply Life_startProcessing].
      by apply Inv_startProcessing; [apply Inv_selected|]. }
    destruct (finish_as_step rt (run rt fs evs)) as [-> | ->]; [done|].
    apply Life_step; [apply Inv_run | done]. }
  assert (Hq : stopQueued (finish rt (run rt fs evs)) = false).
  { rewrite finish_spec. destruct (stopQueued (run rt fs evs)) eqn:E; [|done].
    by rewrite stopQueued_onstop. }
  destruct H as [_ H]. rewrite Hq in H.
  destruct (mediaRecorder (finish rt (run rt fs evs))) as [r|].
  - destruct H as [Ha H]. destruct (recState r).
    + destruct H as (b & Hd & Hl). split; [exists b; by rewrite Hl|].
      intros _. by exists b.
    + split.
      * exists {| bytes := []; blobType := "" |}. rewrite H.
        by apply (prefix_app_r _ [_; _] _).
      * intros Hin. exfalso.
        assert (Hin' : ARecorderStop ∈ life (log (finish rt (run rt fs evs)))).
        { apply list_elem_of_filter. by split. }
        rewrite H in Hin'. revert Hin'. mem.
  - destruct H as [Hl _]. split.
    + exists {| bytes := []; blobType := "" |}. rewrite Hl. apply prefix_nil.
    + intros Hin. exfalso.
      assert (Hin' : ARecorderStop ∈ life (log (finish rt (run rt fs evs)))).
      { apply list_elem_of_filter. by split. }
      rewrite Hl in Hin'. by apply elem_of_nil in Hin'.
Qed.

(** ** Drawing *)

Lemma steady_refl st : steady st st.
Proof. split; [done|]. exists []. by rewrite app_nil_r. Qed.

Lemma steady_trans st1 st2 st3 :
  steady st1 st2 -> steady st2 st3 -> steady st1 st3.
Proof.
  intros (E1 & a1 & L1 & F1) (E2 & a2 & L2 & F2). split; [congruence|].
  exists (a1 ++ a2). rewrite L2, L1, app_assoc. split; [done|].
  by apply Forall_app.
Qed.

Lemma steady_emit acts st :
  Forall (fun a => draw_neutral a = true) acts -> steady st (emit acts st).
Proof. intros H. split; [done|]. by exists acts. Qed.

Lemma steady_update_video v f st :
  (forall x, ended (f x) = ended x) -> steady st (update_video v f st).
Proof.
  intros H. split.
  - unfold endeds. simpl. by apply fmap_alter_keep.
  - exists []. by rewrite app_nil_r.
Qed.

Lemma steady_same st st' :
  log st' = log st /\ videos st' = videos st -> steady st st'.
Proof.
  intros [El Ev]. unfold steady, endeds. rewrite El, Ev. split; [done|].
  exists []. by rewrite app_nil_r.
Qed.

Ltac steady_chain :=
  repeat match goal with
  | |- steady ?a ?b => constr_eq a b; apply steady_refl
  | |- steady ?a (emit _ ?s) =>
      apply (steady_trans a s); [|apply steady_emit; by repeat constructor]
  | |- steady ?a (update_video _ _ ?s) =>
      apply (steady_trans a s);
        [|apply steady_update_video; intros []; reflexivity]
  | |- steady ?a (setStatus _ ?s) => unfold setStatus
  | |- steady ?a (?f ?x ?s) =>
      let l := frame_of f in
      apply (steady_trans a s); [|apply steady_same; exact (l x s)]
  end.

Lemma steady_recorder_stop st : steady st (recorder_stop st).
Proof. unfold recorder_stop. repeat case_match; steady_chain. Qed.

Lemma steady_after_loop st : steady st (after_loop st).
Proof. unfold after_loop. steady_chain. apply steady_recorder_stop. Qed.

Lemma steady_catch_block err st : steady st (catch_block err st).
Proof.
  unfold catch_block. steady_chain.
  eapply steady_trans; [|apply steady_recorder_stop]. steady_chain.
Qed.

Lemma steady_reject v e st : steady st (reject v e st).
Proof.
  unfold reject. repeat case_match; steady_chain.
  eapply steady_trans; [|apply steady_catch_block]. steady_chain.
Qed.

Lemma steady_cleanup v st : steady st (cleanup v st).
Proof. unfold cleanup. repeat case_match; steady_chain. Qed.

Lemma steady_onstop st : steady st (onstop st).
Proof. unfold onstop. repeat case_match; steady_chain. Qed.

Lemma resolves_neutral acts :
  Forall (fun a => draw_neutral a = true) acts ->
  resolves acts = [] /\ created acts = [].
Proof.
  induction 1 as [|a acts Ha _ [IH1 IH2]]; [done|].
  destruct a; try done.
Qed.

Lemma resolves_app l1 l2 : resolves (l1 ++ l2) = resolves l1 ++ resolves l2.
Proof. apply omap_app. Qed.

Lemma Draw_steady st st' : steady st st' -> Draw st -> Draw st'.
Proof.
  intros (E & acts & L & F) (HE & HL & HP & HC).
  destruct (resolves_neutral acts F) as [Hr Hc].
  unfold Draw. rewrite E, L, resolves_app, created_app, Hr, Hc, !app_nil_r.
  repeat split; try done.
  apply preceded_app; [done|]. intros pre a post ->.
  apply Forall_app in F as [_ F]. apply Forall_cons in F as [Ha _].
  by destruct a.
Qed.

Lemma lookup_endeds st v vid :
  videos st !! v = Some vid -> endeds st !! v = Some (ended vid).
Proof. intros H. unfold endeds. by rewrite list_lookup_fmap, H. Qed.

(** [drawFrame] draws for a session that has not ended: the one created
    last, not yet resolved. *)
Lemma Draw_drawFrame v st : Draw st -> Draw (drawFrame v st).
Proof.
  intros (HE & HL & HP & HC). unfold drawFrame.
  destruct (videos st !! v) as [vid|] eqn:Ev; [|done].
  destruct (paused vid || ended vid) eqn:Epe; [done|].
  apply orb_false_iff in Epe as [_ Eend].
  pose proof (lookup_endeds st v vid Ev) as Hv. rewrite Eend in Hv.
  assert (Hlt : (v < length (endeds st))%nat)
    by (apply lookup_lt_is_Some; eauto).
  assert (Hlast : length (endeds st) = S v).
  { destruct (decide (S v < length (endeds st))%nat) as [Hlt'|]; [|lia].
    rewrite (HL v Hlt') in Hv. done. }
  assert (Hnr : v ∉ resolves (log st)).
  { intros Hin. rewrite (HE v Hin) in Hv. done. }
  match goal with |- Draw (set_nextRequestId _ ?s) => change (Draw s) end.
  eapply Draw_steady; [apply steady_update_video; by intros []|].
  unfold Draw. change (endeds (emit ?a st)) with (endeds st). simpl log.
  rewrite resolves_app, created_app. simpl. rewrite !app_nil_r.
  repeat split; try done.
  apply preceded_snoc; [done|]. simpl. split; [done | congruence].
Qed.

Lemma Draw_loop_from j st :
  Draw st -> Forall (fun b => b = true) (endeds st) -> Draw (loop_from j st).
Proof.
  intros H Hall. unfold loop_from.
  destruct (files st !! j) as [file|];
    [|by eapply Draw_steady; [apply steady_after_loop|]].
  destruct (negb (processingRef st)).
  { eapply Draw_steady; [|exact H].
    eapply steady_trans; [|apply steady_after_loop]. steady_chain. }
  destruct H as (HE & HL & HP & HC). unfold Draw, setStatus, endeds. simpl.
  rewrite fmap_app, length_app, resolves_app, created_app. simpl.
  rewrite resolves_app, created_app. simpl. rewrite !app_nil_r.
  fold (endeds st). repeat split.
  - intros v Hv. rewrite lookup_app_l; [by apply HE|].
    apply lookup_lt_is_Some. rewrite HE; eauto.
  - intros v Hv.
    assert (Hlt : (v < length (endeds st))%nat) by lia.
    rewrite lookup_app_l by done.
    destruct (lookup_lt_is_Some_2 _ _ Hlt) as [b Hb]. rewrite Hb.
    by rewrite (proj1 (Forall_lookup _ _) Hall v b Hb).
  - apply preceded_snoc; [|done]. by apply preceded_snoc.
  - rewrite length_app. simpl. lia.
Qed.

Lemma Draw_resolve v st :
  Inv st -> Draw st -> endeds st !! v = Some true -> Draw (resolve v st).
Proof.
  intros Hinv H Hv.
  destruct (resolve_cases v st Hinv) as [-> | (Hpc & Hs & ->)]; [done|].
  assert (Hend : endeds (resolved v st) = endeds st).
  { unfold endeds. simpl. by apply fmap_alter_keep. }
  assert (Hlen : length (endeds st) = S v).
  { unfold endeds. rewrite length_fmap, <- length_settles, Hs, length_app,
      length_replicate. simpl. lia. }
  destruct H as (HE & HL & HP & HC). apply Draw_loop_from.
  - unfold Draw. rewrite Hend. simpl log.
    rewrite resolves_app, created_app. simpl. rewrite app_nil_r.
    repeat split; try done.
    + intros w [Hw|Hw%list_elem_of_singleton]%elem_of_app;
        [by apply HE | by subst].
    + by apply preceded_snoc.
  - rewrite Hend. apply Forall_lookup. intros w b Hb.
    destruct (decide (w = v)) as [->|Hne]; [congruence|].
    assert (Hlt : (w < length (endeds st))%nat)
      by (apply lookup_lt_is_Some; eauto).
    rewrite HL in Hb by lia. congruence.
Qed.

Lemma Draw_step rt st e : Inv st -> Draw st -> Draw (step rt st e).
Proof.
  intros Hinv H. destruct e; unfold step.
  - destruct (pc st) eqn:Hpc; try done. destruct res as [err|].
    + by eapply Draw_steady; [apply steady_catch_block|].
    + unfold after_resume. case_match.
      * by eapply Draw_steady; [apply steady_catch_block|].
      * destruct Hinv as [_ Hp]. rewrite Hpc in Hp. destruct Hp as (Hs & _).
        assert (Hv : videos st = []).
        { apply nil_length_inv. by rewrite <- length_settles, Hs. }
        apply Draw_loop_from.
        -- eapply Draw_steady; [|exact H]. steady_chain.
        -- unfold endeds. simpl. rewrite Hv. constructor.
  - eapply Draw_steady; [|exact H].
    unfold onloadedmetadata. repeat case_match; steady_chain.
  - eapply Draw_steady; [|exact H].
    unfold oncanplay_handler. repeat case_match; steady_chain.
  - unfold play_settled. destruct (videos st !! v) as [vid|]; [|done].
    destruct (playPending vid); [|done]. destruct res as [err|].
    + eapply Draw_steady; [|exact H].
      eapply steady_trans; [|apply steady_reject].
      eapply steady_trans; [|apply steady_cleanup]. steady_chain.
    + apply Draw_drawFrame. eapply Draw_steady; [|exact H]. steady_chain.
  - unfold animation_frame. destruct (videos st !! v) as [vid|]; [|done].
    destruct (drawRequestId vid); [|done].
    apply Draw_drawFrame. eapply Draw_steady; [|exact H]. steady_chain.
  - unfold onended. destruct (videos st !! v) as [vid|] eqn:Ev; [|done].
    set (s0 := update_video v (fun x => with_paused true (with_ended true x)) st).
    assert (Hq : quiet st (cleanup v s0)).
    { eapply quiet_trans; [|apply cleanup_quiet].
      apply quiet_update_video; by intros []. }
    assert (E0 : endeds s0 = alter (fun _ => true) v (endeds st)).
    { unfold endeds, s0. simpl. by apply fmap_alter_set. }
    destruct (steady_cleanup v s0) as (E1 & acts & L1 & F1).
    destruct H as (HE & HL & HP & HC).
    assert (H0 : Draw (cleanup v s0)).
    { destruct (resolves_neutral acts F1) as [Hr Hc].
      unfold Draw. rewrite E1, E0, L1. change (log s0) with (log st).
      rewrite resolves_app, created_app, Hr, Hc, !app_nil_r, length_alter.
      assert (Hmono : forall w, endeds st !! w = Some true ->
                alter (fun _ => true) v (endeds st) !! w = Some true).
      { intros w Hw. destruct (decide (w = v)) as [->|Hne].
        - by rewrite list_lookup_alter_eq, Hw.
        - by rewrite list_lookup_alter_ne. }
      repeat split; auto.
      apply preceded_app; [done|]. intros pre a post ->.
      apply Forall_app in F1 as [_ F1]. apply Forall_cons in F1 as [Ha _].
      by destruct a. }
    apply Draw_resolve; [by eapply Inv_quiet | done |].
    rewrite E1, E0, list_lookup_alter_eq, (lookup_endeds st v vid Ev). done.
  - eapply Draw_steady; [|exact H].
    unfold onerror. destruct (videos st !! v) as [vid|]; [|apply steady_refl].
    eapply steady_trans; [|apply steady_reject]. apply steady_cleanup.
  - eapply Draw_steady; [|exact H].
    unfold ondataavailable. repeat case_match; steady_chain.
  - destruct (stopQueued st); [|done].
    eapply Draw_steady; [|exact H].
    eapply steady_trans; [|apply steady_onstop]. steady_chain.
  - eapply Draw_steady; [|exact H]. steady_chain.
Qed.

Lemma Draw_startProcessing rt fs : Draw (startProcessing rt (selected fs)).
Proof.
  assert (H0 : Draw (selected fs)).
  { repeat split; try done.
    - intros v Hv. by apply elem_of_nil in Hv.
    - simpl. lia.
    - apply preceded_nil. }
  unfold startProcessing. case_match; [done|].
  destruct (getSupportedMimeType rt) as [queries mimeType] eqn:Hm.
  assert (Hq : Forall (fun a => draw_neutral a = true) queries).
  { unfold getSupportedMimeType in Hm.
    repeat destruct (isTypeSupported rt _); simplify_eq; by repeat constructor. }
  case_match.
  - eapply Draw_steady; [|exact H0]. steady_chain.
  - unfold after_resume. case_match.
    + eapply Draw_steady; [|exact H0].
      eapply steady_trans; [|apply steady_catch_block]. steady_chain.
    + apply Draw_loop_from; [|constructor].
      eapply Draw_steady; [|exact H0]. steady_chain.
Qed.

Lemma Draw_run rt fs evs : Draw (run rt fs evs).
Proof.
  unfold run.
  assert (I0 : Inv (startProcessing rt (selected fs)))
    by (by apply Inv_startProcessing; [apply Inv_selected|]).
  pose proof (Draw_startProcessing rt fs) as H0.
  revert H0 I0. generalize (startProcessing rt (selected fs)).
  induction evs as [|e evs IH]; intros st H0 I0; [done|].
  change (exec rt st (e :: evs)) with (exec rt (step rt st e) evs).
  apply IH; [by apply Draw_step | by apply Inv_step].
Qed.

(** X17: the clips never draw over one another: whenever a frame is drawn
    onto the canvas, it is a frame of the session created last, and that
    session has not resolved yet; once a clip has played to its end, no
    frame of it is drawn any more, whatever events still arrive for its
    element. *)
Theorem only_the_current_clip_draws rt fs evs pre v w h post :
  log (finish rt (run rt fs evs)) = pre ++ ADrawImage v w h :: post ->
  length (created pre) = S v /\ (AResolve v ∉ pre) /\
  forall j n, ACreateVideo j n ∈ pre -> (j <= v)%nat.
Proof.
  intros El.
  assert (H : Draw (finish rt (run rt fs evs))).
  { destruct (finish_as_step rt (run rt fs evs)) as [-> | ->].
    - apply Draw_run.
    - apply Draw_step; [apply Inv_run | apply Draw_run]. }
  destruct H as (_ & _ & HP & _).
  destruct (HP pre _ post El) as [Hnr Hlen].
  split; [done|]. split.
  - intros Hin. apply Hnr. unfold resolves.
    apply list_elem_of_omap. exists (AResolve v). by split.
  - intros j n Hin.
    assert (Hh : Hist fs (finish rt (run rt fs evs))).
    { destruct (finish_as_step rt (run rt fs evs)) as [-> | ->].
      - apply Hist_run.
      - apply Hist_step; [apply Inv_run | apply Hist_run]. }
    pose proof (h_created fs _ Hh) as Hc. rewrite El, created_app in Hc.
    apply elem_of_created in Hin.
    assert (Hpre : created pre `prefix_of`
              imap (fun i f => (i, name f)) (vfiles (finish rt (run rt fs evs)))).
    { rewrite <- Hc. by apply prefix_app_r. }
    apply list_elem_of_lookup in Hin as [k Hk].
    pose proof (prefix_lookup_Some _ _ _ _ Hk Hpre) as Hk'.
    apply list_lookup_imap_Some in Hk' as (f & _ & [= -> _]).
    apply lookup_lt_Some in Hk. lia.
Qed.

Lemma only_the_current_clip_draws_witness :
  let tr := log (finish sample_runtime
                   (run sample_runtime [clip_a; clip_b] (plays 0 ++ plays 1)))
  in
  tr = take 21 tr ++ ADrawImage 1 640 480 :: drop 22 tr /\
  length (created (take 21 tr)) = 2%nat.
Proof.
  intros tr.
  assert (E : tr = take 21 tr ++ ADrawImage 1 640 480 :: drop 22 tr)
    by (vm_compute; reflexivity).
  split; [exact E|].
  exact (proj1 (only_the_current_clip_draws sample_runtime [clip_a; clip_b]
                  (plays 0 ++ plays 1) _ _ _ _ _ E)).
Defined.
